(** * PageSense backend: content extraction, chunking and context assembly

    A shallow embedding of [app/services/content_extractor.py] and of the
    context-building part of [app/services/llm_service.py], together with the
    properties of the text pipeline.

    Python [str] values are modelled as lists of characters; a character is a
    code point below 256 (Latin-1), held in an [ascii].  Python [int]s are [Z].
    Indexing and slicing follow Python: negative indices count from the end,
    an index out of range raises [IndexError], a slice never raises. *)

From Stdlib Require Import ZArith QArith List Ascii String Bool Lia DecimalString.
Import ListNotations.

Local Open Scope Z_scope.

(** ** Python strings *)

Module PyStr.

Definition str := list ascii.

Definition lit (s : string) : str := list_ascii_of_string s.

Definition code (c : ascii) : Z := Z.of_N (N_of_ascii c).

Definition len (s : str) : Z := Z.of_nat (List.length s).

Definition in_range (lo hi : Z) (c : ascii) : bool :=
  (lo <=? code c) && (code c <=? hi).

(** [str.isspace] on one character, for code points below 256. *)
Definition isspace (c : ascii) : bool :=
  in_range 9 13 c || in_range 28 32 c || (code c =? 133) || (code c =? 160).

Fixpoint lstrip (s : str) : str :=
  match s with
  | c :: s' => if isspace c then lstrip s' else s
  | [] => []
  end.

Definition rstrip (s : str) : str := rev (lstrip (rev s)).

Definition strip (s : str) : str := rstrip (lstrip s).

(** [s[i]]: [None] stands for [IndexError]. *)
Definition index (s : str) (i : Z) : option ascii :=
  if (0 <=? i) && (i <? len s) then nth_error s (Z.to_nat i)
  else if (- len s <=? i) && (i <? 0) then nth_error s (Z.to_nat (len s + i))
  else None.

(** The bound of a slice after Python's adjustment to the length. *)
Definition clamp (n i : Z) : Z :=
  if i <? 0 then Z.max (i + n) 0 else Z.min i n.

(** [s[lo:hi]]. *)
Definition slice (s : str) (lo hi : Z) : str :=
  let lo' := clamp (len s) lo in
  let hi' := clamp (len s) hi in
  firstn (Z.to_nat (hi' - lo')) (skipn (Z.to_nat lo') s).

Definition eqb (a b : str) : bool :=
  if list_eq_dec ascii_dec a b then true else false.

Fixpoint prefixb (p s : str) : bool :=
  match p, s with
  | [], _ => true
  | a :: p', b :: s' => Ascii.eqb a b && prefixb p' s'
  | _ :: _, [] => false
  end.

(** [p in s]. *)
Fixpoint contains (p s : str) : bool :=
  prefixb p s ||
  match s with
  | [] => false
  | _ :: s' => contains p s'
  end.

(** [sep.join(parts)]. *)
Fixpoint join (sep : str) (parts : list str) : str :=
  match parts with
  | [] => []
  | [p] => p
  | p :: rest => p ++ sep ++ join sep rest
  end.

(** [str(n)] for an [int]. *)
Definition of_int (n : Z) : str := lit (NilZero.string_of_int (Z.to_int n)).

(** [str.lower] on one character, for code points below 256. *)
Definition lower_char (c : ascii) : ascii :=
  if in_range 65 90 c || (in_range 192 222 c && negb (code c =? 215))
  then ascii_of_N (Z.to_N (code c + 32)) else c.

Definition lower (s : str) : str := map lower_char s.

Definition upper_char (c : ascii) : ascii :=
  if in_range 97 122 c then ascii_of_N (Z.to_N (code c - 32)) else c.

(** [str.upper], on the ASCII letters the pattern names are made of. *)
Definition upper (s : str) : str := map upper_char s.

(** [str.encode()]: UTF-8, one byte below 128 and two bytes from 128 to 255. *)
Definition encode_char (c : ascii) : list Z :=
  if code c <? 128 then [code c]
  else [Z.lor 192 (Z.shiftr (code c) 6); Z.lor 128 (Z.land (code c) 63)].

Definition encode (s : str) : list Z := flat_map encode_char s.

End PyStr.

Import PyStr.

(** ** MD5 ([hashlib.md5], RFC 1321) *)

Module MD5.

Definition mask32 (x : Z) : Z := Z.land x 4294967295.

Definition add32 (x y : Z) : Z := mask32 (x + y).

Definition rotl32 (x : Z) (s : Z) : Z :=
  mask32 (Z.lor (Z.shiftl x s) (Z.shiftr x (32 - s))).

Definition not32 (x : Z) : Z := Z.lxor x 4294967295.

Definition K : list Z :=
  [ 3614090360; 3905402710; 606105819; 3250441966; 4118548399; 1200080426; 2821735955; 4249261313;
    1770035416; 2336552879; 4294925233; 2304563134; 1804603682; 4254626195; 2792965006; 1236535329;
    4129170786; 3225465664; 643717713; 3921069994; 3593408605; 38016083; 3634488961; 3889429448;
    568446438; 3275163606; 4107603335; 1163531501; 2850285829; 4243563512; 1735328473; 2368359562;
    4294588738; 2272392833; 1839030562; 4259657740; 2763975236; 1272893353; 4139469664; 3200236656;
    681279174; 3936430074; 3572445317; 76029189; 3654602809; 3873151461; 530742520; 3299628645;
    4096336452; 1126891415; 2878612391; 4237533241; 1700485571; 2399980690; 4293915773; 2240044497;
    1873313359; 4264355552; 2734768916; 1309151649; 4149444226; 3174756917; 718787259; 3951481745 ].

Definition shifts : list Z :=
  [ 7; 12; 17; 22; 7; 12; 17; 22; 7; 12; 17; 22; 7; 12; 17; 22;
    5; 9; 14; 20; 5; 9; 14; 20; 5; 9; 14; 20; 5; 9; 14; 20;
    4; 11; 16; 23; 4; 11; 16; 23; 4; 11; 16; 23; 4; 11; 16; 23;
    6; 10; 15; 21; 6; 10; 15; 21; 6; 10; 15; 21; 6; 10; 15; 21 ].

(** The message padded to a multiple of 64 bytes. *)
Definition pad (msg : list Z) : list Z :=
  let n := Z.of_nat (List.length msg) in
  let zeros := Z.to_nat ((55 - n) mod 64) in
  let bits := 8 * n in
  msg ++ [128] ++ repeat 0 zeros
      ++ map (fun i => Z.land (Z.shiftr bits (8 * Z.of_nat i)) 255) (seq 0 8).

Fixpoint words (n : nat) (bytes : list Z) : list Z :=
  match n, bytes with
  | S n', b0 :: b1 :: b2 :: b3 :: rest =>
      (b0 + Z.shiftl b1 8 + Z.shiftl b2 16 + Z.shiftl b3 24) :: words n' rest
  | _, _ => []
  end.

Record state := { sa : Z; sb : Z; sc : Z; sd : Z }.

Definition init : state :=
  {| sa := 1732584193; sb := 4023233417; sc := 2562383102; sd := 271733878 |}.

Definition round (M : list Z) (st : state) (i : nat) : state :=
  let '(Build_state a b c d) := st in
  let zi := Z.of_nat i in
  let '(f, g) :=
    if zi <? 16 then (Z.lor (Z.land b c) (Z.land (not32 b) d), zi)
    else if zi <? 32 then (Z.lor (Z.land d b) (Z.land (not32 d) c), (5 * zi + 1) mod 16)
    else if zi <? 48 then (Z.lxor (Z.lxor b c) d, (3 * zi + 5) mod 16)
    else (Z.lxor c (Z.lor b (not32 d)), (7 * zi) mod 16) in
  let f' := add32 (add32 (add32 f a) (nth i K 0)) (nth (Z.to_nat g) M 0) in
  {| sa := d; sb := add32 b (rotl32 f' (nth i shifts 0)); sc := b; sd := c |}.

Definition block (st : state) (M : list Z) : state :=
  let st' := fold_left (round M) (seq 0 64) st in
  {| sa := add32 (sa st) (sa st'); sb := add32 (sb st) (sb st');
     sc := add32 (sc st) (sc st'); sd := add32 (sd st) (sd st') |}.

Fixpoint blocks (n : nat) (st : state) (bytes : list Z) : state :=
  match n with
  | O => st
  | S n' => blocks n' (block st (words 16 bytes)) (skipn 64 bytes)
  end.

Definition le_bytes (w : Z) : list Z :=
  map (fun i => Z.land (Z.shiftr w (8 * Z.of_nat i)) 255) (seq 0 4).

Definition digest (msg : list Z) : list Z :=
  let p := pad msg in
  let st := blocks (Nat.div (List.length p) 64) init p in
  le_bytes (sa st) ++ le_bytes (sb st) ++ le_bytes (sc st) ++ le_bytes (sd st).

Definition hex_digit (d : Z) : ascii :=
  nth (Z.to_nat d) (lit "0123456789abcdef") "0"%char.

Definition hex_byte (b : Z) : str :=
  [hex_digit (Z.shiftr b 4); hex_digit (Z.land b 15)].

Definition hexdigest (msg : list Z) : str := flat_map hex_byte (digest msg).

End MD5.

(** ** Outcomes of a Python call

    A call returns a value, raises [IndexError], or (in the model only) is
    cut off because the iteration budget of a [while] loop is used up. *)

Inductive outcome (A : Type) : Type :=
| Returned (a : A)
| IndexError
| OutOfFuel.

Arguments Returned {A} a.
Arguments IndexError {A}.
Arguments OutOfFuel {A}.

(** ** [schemas.TextChunk] *)

Record TextChunk := mkTextChunk {
  id : str;
  text : str;
  start_char : Z;
  end_char : Z;
  dom_selector : option str
}.

(** ** [ContentExtractor._create_chunks] *)

Module Chunker.

Definition default_chunk_size : Z := 1000.
Definition default_overlap : Z := 200.

(** [c in '.!?'] *)
Definition is_terminator (c : ascii) : bool :=
  contains [c] (lit ".!?").

(** [hashlib.md5(f"{url}:{chunk_index}".encode()).hexdigest()[:16]] *)
Definition chunk_id (url : str) (chunk_index : Z) : str :=
  slice (MD5.hexdigest (encode (url ++ lit ":" ++ of_int chunk_index))) 0 16.

Inductive search_result : Type :=
| Found (new_end : Z)
| NotFound
| SearchError.

(** The [for i in range(end, stop, -1)] loop with its [break]: [count]
    values of [i] are left, the next one is [i]. *)
Fixpoint boundary_search (txt : str) (count : nat) (i : Z) : search_result :=
  match count with
  | O => NotFound
  | S count' =>
      match index txt i with
      | None => SearchError
      | Some c =>
          if is_terminator c then Found (i + 1)
          else boundary_search txt count' (i - 1)
      end
  end.

(** The value of [end] when the slice is taken, for the window at [start]. *)
Definition window_end (txt : str) (chunk_size start : Z) : outcome Z :=
  let text_length := len txt in
  let end_ := Z.min (start + chunk_size) text_length in
  if end_ <? text_length then
    let stop := Z.max (start + chunk_size - 200) start in
    match boundary_search txt (Z.to_nat (end_ - stop)) end_ with
    | Found e => Returned e
    | NotFound => Returned end_
    | SearchError => IndexError
    end
  else Returned end_.

(** [start = end - overlap if end < text_length else end] *)
Definition next_start (txt : str) (overlap end_ : Z) : Z :=
  if end_ <? len txt then end_ - overlap else end_.

(** The state of the [while] loop. *)
Record loop_state := mkState {
  chunks : list TextChunk;
  start : Z;
  chunk_index : Z
}.

(** One pass through the body of the loop. *)
Definition body (txt url : str) (chunk_size overlap : Z) (st : loop_state)
  : outcome loop_state :=
  match window_end txt chunk_size (start st) with
  | Returned end_ =>
      let chunk_text := strip (slice txt (start st) end_) in
      let st' :=
        match chunk_text with
        | [] => st
        | _ :: _ =>
            {| chunks := chunks st ++
                 [ {| id := chunk_id url (chunk_index st);
                      text := chunk_text;
                      start_char := start st;
                      end_char := end_;
                      dom_selector := None |} ];
               start := start st;
               chunk_index := chunk_index st + 1 |}
        end in
      Returned {| chunks := chunks st';
                  start := next_start txt overlap end_;
                  chunk_index := chunk_index st' |}
  | IndexError => IndexError
  | OutOfFuel => OutOfFuel
  end.

(** [while start < text_length: ...], at most [fuel] passes. *)
Fixpoint loop (fuel : nat) (txt url : str) (chunk_size overlap : Z)
         (st : loop_state) : outcome (list TextChunk) :=
  if start st <? len txt then
    match fuel with
    | O => OutOfFuel
    | S fuel' =>
        match body txt url chunk_size overlap st with
        | Returned st' => loop fuel' txt url chunk_size overlap st'
        | IndexError => IndexError
        | OutOfFuel => OutOfFuel
        end
    end
  else Returned (chunks st).

Definition initial : loop_state :=
  {| chunks := []; start := 0; chunk_index := 0 |}.

Definition _create_chunks (fuel : nat) (txt url : str) (chunk_size overlap : Z)
  : outcome (list TextChunk) :=
  loop fuel txt url chunk_size overlap initial.

(** The windows [(start, end)] the loop visits, emitted or skipped, in
    order, up to the pass that raises if one does. *)
Fixpoint windows (fuel : nat) (txt : str) (chunk_size overlap start : Z)
  : list (Z * Z) :=
  if start <? len txt then
    match fuel with
    | O => []
    | S fuel' =>
        match window_end txt chunk_size start with
        | Returned end_ =>
            (start, end_) ::
            windows fuel' txt chunk_size overlap (next_start txt overlap end_)
        | _ => []
        end
    end
  else [].

(** A window is skipped when its slice is empty after [strip]. *)
Definition skipped (txt : str) (w : Z * Z) : bool :=
  match strip (slice txt (fst w) (snd w)) with
  | [] => true
  | _ :: _ => false
  end.

(** The chunk a pass appends for the window ending at [e], if any. *)
Definition emitted (txt url : str) (st : loop_state) (e : Z) : list TextChunk :=
  match strip (slice txt (start st) e) with
  | [] => []
  | c :: s =>
      [ {| id := chunk_id url (chunk_index st);
           text := c :: s;
           start_char := start st;
           end_char := e;
           dom_selector := None |} ]
  end.

Definition span (c : TextChunk) : Z * Z := (start_char c, end_char c).

(** [c] comes before [d] and runs at most [overlap] characters into it. *)
Definition before (overlap : Z) (c d : TextChunk) : Prop :=
  start_char c < start_char d /\ end_char c <= start_char d + overlap.

(** Position [p] of the text lies in the span of [c]. *)
Definition covers (c : TextChunk) (p : Z) : Prop :=
  start_char c <= p < end_char c.

(** What holds of the chunks emitted so far, at the top of each pass. *)
Definition span_inv (txt : str) (overlap : Z) (st : loop_state) : Prop :=
  0 <= start st
  /\ ForallOrdPairs (before overlap) (chunks st)
  /\ Forall (fun c => 0 <= start_char c < end_char c
                      /\ end_char c <= len txt
                      /\ start_char c < start st
                      /\ end_char c <= start st + overlap) (chunks st).

(** The identifiers of the chunks emitted so far follow the counter. *)
Definition id_inv (url : str) (st : loop_state) : Prop :=
  chunk_index st = Z.of_nat (List.length (chunks st))
  /\ map id (chunks st) =
     map (fun k => chunk_id url (Z.of_nat k)) (seq 0 (List.length (chunks st))).

(** The text of a chunk is the trimmed slice at its span. *)
Definition text_inv (txt : str) (c : TextChunk) : Prop :=
  text c = strip (slice txt (start_char c) (end_char c))
  /\ text c <> []
  /\ (0 <= start_char c -> 0 <= end_char c).

(** Configurations in which every pass moves [start] forward: the
    refinement can pull [end] back to [max(start + size - 200, start) + 2]. *)
Definition progress_config (chunk_size overlap : Z) : Prop :=
  0 <= overlap /\ overlap < chunk_size /\ overlap < Z.max (chunk_size - 198) 2.

End Chunker.

(** ** Regular expressions ([re])

    The patterns of this program are sequences of word boundaries and of
    character sets under a greedy quantifier.  Matching is by backtracking,
    as in [re]: a quantifier takes as many characters as it can and gives
    them back one by one while the rest of the pattern fails. *)

Module Re.

Definition char_set := ascii -> bool.

Definition chr (c : ascii) : char_set := Ascii.eqb c.

Definition range (lo hi : ascii) : char_set :=
  fun c => in_range (code lo) (code hi) c.

Definition one_of (s : string) : char_set :=
  fun c => existsb (Ascii.eqb c) (lit s).

Definition union (a b : char_set) : char_set := fun c => a c || b c.

(** [\d] *)
Definition digit : char_set := range "0" "9".

(** [\s] *)
Definition space : char_set := isspace.

(** [\w], for code points below 256. *)
Definition word : char_set :=
  fun c =>
    in_range 48 57 c || in_range 65 90 c || (code c =? 95) || in_range 97 122 c
    || (code c =? 170) || in_range 178 179 c || (code c =? 181)
    || in_range 185 186 c || in_range 188 190 c
    || in_range 192 214 c || in_range 216 246 c || in_range 248 255 c.

Inductive atom : Type :=
| Boundary                                              (* \b *)
| Rep (set : char_set) (lo : nat) (hi : option nat).    (* set{lo,hi} *)

Definition regex := list atom.

Definition exactly (n : nat) (set : char_set) : atom := Rep set n (Some n).
Definition opt (set : char_set) : atom := Rep set 0 (Some 1%nat).
Definition star (set : char_set) : atom := Rep set 0 None.
Definition plus (set : char_set) : atom := Rep set 1 None.
Definition at_least (n : nat) (set : char_set) : atom := Rep set n None.
Definition one (set : char_set) : atom := Rep set 1 (Some 1%nat).

Definition is_word (c : option ascii) : bool :=
  match c with
  | Some c => word c
  | None => false
  end.

(** [\b] between the character before the position and the one at it. *)
Definition at_boundary (prev : option ascii) (s : str) : bool :=
  xorb (is_word prev) (is_word (hd_error s)).

Definition may_take (hi : option nat) : bool :=
  match hi with
  | Some O => false
  | _ => true
  end.

(** A quantified set followed by the continuation [k]: one more character
    first, the continuation at this position once that has failed. *)
Fixpoint rep (set : char_set) (k : option ascii -> str -> option nat)
         (lo : nat) (hi : option nat) (prev : option ascii) (s : str)
  : option nat :=
  let stop := match lo with O => k prev s | S _ => None end in
  match s with
  | c :: s' =>
      if set c && may_take hi then
        match rep set k (Nat.pred lo) (option_map Nat.pred hi) (Some c) s' with
        | Some n => Some (S n)
        | None => stop
        end
      else stop
  | [] => stop
  end.

(** The length of the match of [r] that starts at the head of [s], where
    [prev] is the character before it. *)
Fixpoint match_here (r : regex) (prev : option ascii) (s : str) : option nat :=
  match r with
  | [] => Some O
  | Boundary :: r' => if at_boundary prev s then match_here r' prev s else None
  | Rep set lo hi :: r' => rep set (match_here r') lo hi prev s
  end.

(** [pattern.search(s)]: start and length of the leftmost match. *)
Fixpoint search_from (r : regex) (prev : option ascii) (pos : nat) (s : str)
  : option (nat * nat) :=
  match match_here r prev s with
  | Some n => Some (pos, n)
  | None =>
      match s with
      | c :: s' => search_from r (Some c) (S pos) s'
      | [] => None
      end
  end.

Definition search (r : regex) (s : str) : option (nat * nat) :=
  search_from r None O s.

(** The scan of [pattern.sub(repl, s)]: [skip] characters of the last
    match are still to be passed over. *)
Fixpoint sub_scan (r : regex) (repl : str) (prev : option ascii)
         (skip : nat) (s : str) : str :=
  match skip with
  | S skip' =>
      match s with
      | c :: s' => sub_scan r repl (Some c) skip' s'
      | [] => []
      end
  | O =>
      match match_here r prev s with
      | Some (S n) =>
          repl ++ match s with
                  | c :: s' => sub_scan r repl (Some c) n s'
                  | [] => []
                  end
      | Some O =>
          repl ++ match s with
                  | c :: s' => c :: sub_scan r repl (Some c) O s'
                  | [] => []
                  end
      | None =>
          match s with
          | c :: s' => c :: sub_scan r repl (Some c) O s'
          | [] => []
          end
      end
  end.

(** [pattern.sub(repl, s)], for a replacement without escapes. *)
Definition sub (r : regex) (repl : str) (s : str) : str :=
  sub_scan r repl None O s.

(** The least number of characters a match takes. *)
Fixpoint min_len (r : regex) : nat :=
  match r with
  | [] => O
  | Boundary :: r' => min_len r'
  | Rep _ lo _ :: r' => (lo + min_len r')%nat
  end.

(** No set of [r] holds [c]: no match of [r] runs over [c]. *)
Fixpoint barrier (r : regex) (c : ascii) : bool :=
  match r with
  | [] => true
  | Boundary :: r' => barrier r' c
  | Rep set _ _ :: r' => negb (set c) && barrier r' c
  end.

(** No match of [r] starts at a position of [inner], when [inner] comes
    after [prev] and before the barrier [stop]. *)
Fixpoint no_match_inside (r : regex) (prev : ascii) (inner : str) (stop : ascii)
  : bool :=
  match match_here r (Some prev) (inner ++ [stop]) with
  | Some _ => false
  | None =>
      match inner with
      | [] => true
      | c :: inner' => no_match_inside r c inner' stop
      end
  end.

End Re.

(** ** [ContentExtractor]: patterns, cleaning and redaction *)

Module Extractor.
Import Re.

Definition nl : ascii := ascii_of_nat 10.

Definition letter : char_set := union (range "A" "Z") (range "a" "z").
Definition alnum : char_set := union letter (range "0" "9").

(** [\b\d{4}[-\s]?\d{4}[-\s]?\d{4}[-\s]?\d{4}\b] *)
Definition credit_card : regex :=
  [ Boundary; exactly 4 digit; opt (union (chr "-") space);
    exactly 4 digit; opt (union (chr "-") space);
    exactly 4 digit; opt (union (chr "-") space);
    exactly 4 digit; Boundary ].

(** [\b\d{3}-\d{2}-\d{4}\b] *)
Definition ssn : regex :=
  [ Boundary; exactly 3 digit; one (chr "-"); exactly 2 digit; one (chr "-");
    exactly 4 digit; Boundary ].

(** [\b[A-Za-z0-9._%+-]+@[A-Za-z0-9.-]+\.[A-Z|a-z]{2,}\b] *)
Definition email : regex :=
  [ Boundary; plus (union alnum (one_of "._%+-")); one (chr "@");
    plus (union alnum (one_of ".-")); one (chr ".");
    at_least 2 (union (range "A" "Z") (union (chr "|") (range "a" "z")));
    Boundary ].

(** [self.sensitive_patterns], in insertion order. *)
Definition sensitive_patterns : list (str * regex) :=
  [ (lit "credit_card", credit_card); (lit "ssn", ssn); (lit "email", email) ].

(** [f'[REDACTED_{pattern_name.upper()}]'] *)
Definition marker (pattern_name : str) : str :=
  lit "[REDACTED_" ++ upper pattern_name ++ lit "]".

(** [\n\s*\n] *)
Definition blank_lines : regex := [ one (chr nl); star space; one (chr nl) ].

(** [ +] *)
Definition spaces : regex := [ plus (chr " ") ].

Definition _clean_text (txt : str) : str :=
  let txt := sub blank_lines [nl; nl] txt in
  let txt := sub spaces (lit " ") txt in
  strip txt.

(** [text = pattern.sub(f'[REDACTED_{pattern_name.upper()}]', text)] *)
Definition redact_with (txt : str) (item : str * regex) : str :=
  let '(pattern_name, pattern) := item in
  sub pattern (marker pattern_name) txt.

Definition _redact_sensitive (txt : str) : str :=
  fold_left redact_with sensitive_patterns txt.

(** The running text when the pattern at position [k] is applied. *)
Definition running (k : nat) (txt : str) : str :=
  fold_left redact_with (firstn k sensitive_patterns) txt.

(** The text of [extract_from_html] after cleaning and redaction, from the
    plain text that the conversion from markup gives. *)
Definition normalize (plain : str) : str :=
  _redact_sensitive (_clean_text plain).

(** [m] is the leftmost match of [r] in [s]. *)
Definition matched (r : regex) (s m : str) : Prop :=
  exists pos n, search r s = Some (pos, n)
                /\ m = firstn n (skipn pos s).

End Extractor.

(** ** [ContentExtractor.detect_sensitive_inputs] *)

Module Detector.

#[local] Unset Elimination Schemes.

(** The parse tree of [BeautifulSoup(html, 'lxml')]. *)
Inductive node : Type :=
| Tag (name : str) (attrs : list (str * str)) (children : list node)
| NavigableString (s : str).

#[local] Set Elimination Schemes.

(** A tag and the tags below it, in document order. *)
Fixpoint descendants (n : node) : list node :=
  match n with
  | Tag _ _ children => n :: flat_map descendants children
  | NavigableString _ => []
  end.

Definition tag_name (n : node) : str :=
  match n with
  | Tag name _ _ => name
  | NavigableString _ => []
  end.

(** [tag.get(key)] *)
Definition get (n : node) (key : str) : option str :=
  match n with
  | Tag _ attrs _ =>
      option_map snd (find (fun kv => PyStr.eqb (fst kv) key) attrs)
  | NavigableString _ => None
  end.

(** [tag.get(key, default)] *)
Definition get_default (n : node) (key default : str) : str :=
  match get n key with
  | Some v => v
  | None => default
  end.

(** [soup.find_all(name)] *)
Definition find_all (soup : list node) (name : str) : list node :=
  filter (fun n => PyStr.eqb (tag_name n) name) (flat_map descendants soup).

(** [soup.find_all(name, key=value)] *)
Definition find_all_attr (soup : list node) (name key value : str) : list node :=
  filter (fun n => match get n key with
                   | Some v => PyStr.eqb v value
                   | None => false
                   end)
         (find_all soup name).

Definition keywords : list str :=
  [ lit "card"; lit "cvv"; lit "ccv"; lit "credit" ].

(** [(input_tag.get('name', '') + ' ' + input_tag.get('id', '')).lower()] *)
Definition field_name (input_tag : node) : str :=
  lower (get_default input_tag (lit "name") [] ++ lit " "
         ++ get_default input_tag (lit "id") []).

(** [any(keyword in name for keyword in [...])] *)
Definition card_like (input_tag : node) : bool :=
  existsb (fun keyword => contains keyword (field_name input_tag)) keywords.

Definition password_typed (input_tag : node) : bool :=
  match get input_tag (lit "type") with
  | Some v => PyStr.eqb v (lit "password")
  | None => false
  end.

(** [list(set(fields))]: the distinct elements; Python fixes no order. *)
Definition list_of_set (fields : list str) : list str :=
  nodup (list_eq_dec ascii_dec) fields.

Section Parser.
(** The parser is the library's; the detector works on what it returns. *)
Variable parse : str -> list node.

(** The [input] elements of the parsed markup. *)
Definition inputs (html : str) : list node :=
  find_all (parse html) (lit "input").

Definition detect_sensitive_inputs (html : str) : list str :=
  let soup := parse html in
  let sensitive_fields :=
    map (fun _ => lit "password")
        (find_all_attr soup (lit "input") (lit "type") (lit "password")) in
  let sensitive_fields :=
    sensitive_fields ++
    flat_map (fun input_tag =>
                if card_like input_tag then [lit "credit_card"] else [])
             (find_all soup (lit "input")) in
  list_of_set sensitive_fields.
End Parser.

End Detector.

(** ** [LLMService]: context assembly *)

Module LLM.

Definition default_max_chars : Z := 8000.

(** The [for] loop of [_prepare_context], with its [break]. *)
Fixpoint collect (chunks : list TextChunk) (max_chars total_chars : Z)
         (context_parts : list str) : list str :=
  match chunks with
  | [] => context_parts
  | chunk :: rest =>
      if total_chars + len (text chunk) >? max_chars then context_parts
      else collect rest max_chars (total_chars + len (text chunk))
                   (context_parts ++ [text chunk])
  end.

Definition blank_line : str := [Extractor.nl; Extractor.nl].

Definition _prepare_context (chunks : list TextChunk) (max_chars : Z) : str :=
  join blank_line (collect chunks max_chars 0 []).

Definition total_chars (chunks : list TextChunk) : Z :=
  fold_right (fun c acc => len (text c) + acc) 0 chunks.

(** [l[i]] for a list and [i >= 0]. *)
Definition list_index {A} (l : list A) (i : Z) : option A :=
  if 0 <=? i then nth_error l (Z.to_nat i) else None.

(** [f"Page {i+1} ({page_urls[i]}):\n{page_text[:2000]}"] *)
Definition page_section (i : Z) (url page_text : str) : str :=
  lit "Page " ++ of_int (i + 1) ++ lit " (" ++ url ++ lit "):"
      ++ [Extractor.nl] ++ slice page_text 0 2000.

(** The [for i, chunks in enumerate(page_chunks_list)] loop of
    [compare_pages]. *)
Fixpoint page_contexts (i : Z) (page_chunks_list : list (list TextChunk))
         (page_urls : list str) (contexts : list str) : outcome (list str) :=
  match page_chunks_list with
  | [] => Returned contexts
  | chunks :: rest =>
      let page_text := _prepare_context chunks default_max_chars in
      match list_index page_urls i with
      | Some url =>
          page_contexts (i + 1) rest page_urls
                        (contexts ++ [page_section i url page_text])
      | None => IndexError
      end
  end.

(** The sections the loop appends when every page has its URL. *)
Fixpoint sections (i : nat) (page_chunks_list : list (list TextChunk))
         (page_urls : list str) : list str :=
  match page_chunks_list, page_urls with
  | chunks :: rest, url :: urls =>
      page_section (Z.of_nat i) url (_prepare_context chunks default_max_chars)
      :: sections (S i) rest urls
  | _, _ => []
  end.

Definition separator : str :=
  [Extractor.nl; Extractor.nl] ++ lit "---" ++ [Extractor.nl; Extractor.nl].

(** [combined_context] of [compare_pages]. *)
Definition combined_context (page_chunks_list : list (list TextChunk))
           (page_urls : list str) : outcome str :=
  match page_contexts 0 page_chunks_list page_urls [] with
  | Returned contexts => Returned (join separator contexts)
  | IndexError => IndexError
  | OutOfFuel => OutOfFuel
  end.

End LLM.

(** ** Shapes of chunks and windows *)

Module ChunkShapes.
Import Chunker.

(** A chunk that stops inside the text spans the whole window or ends with
    a sentence terminator. *)
Definition cut_at_sentence (txt : str) (chunk_size : Z) (c : TextChunk) : Prop :=
  end_char c < len txt ->
  end_char c = start_char c + chunk_size
  \/ exists front t, text c = front ++ [t] /\ is_terminator t = true.

(** The least distance between the starts of two windows. *)
Definition stride (chunk_size overlap : Z) : Z :=
  Z.min chunk_size (Z.max (chunk_size - 198) 2) - overlap.

(** The chunks emitted so far start at least one stride apart. *)
Definition stride_inv (txt : str) (chunk_size overlap : Z) (st : loop_state) : Prop :=
  0 <= start st
  /\ (forall j c, nth_error (chunks st) j = Some c ->
        Z.of_nat j * stride chunk_size overlap <= start_char c < len txt)
  /\ (start st < len txt ->
      Z.of_nat (List.length (chunks st)) * stride chunk_size overlap <= start st).

(** The digits of [hexdigest()]. *)
Definition hex_alphabet : str := lit "0123456789abcdef".

End ChunkShapes.

(** ** Python lists *)

Module PyList.

(** [l[lo:hi]] *)
Definition slice {A} (l : list A) (lo hi : Z) : list A :=
  let n := Z.of_nat (List.length l) in
  let lo' := clamp n lo in
  let hi' := clamp n hi in
  firstn (Z.to_nat (hi' - lo')) (skipn (Z.to_nat lo') l).

(** [l[:hi]] *)
Definition slice_to {A} (l : list A) (hi : Z) : list A := slice l 0 hi.


End PyList.

(** ** [schemas.SourceReference] and [schemas.ChatMessage] *)

Module SourceReference.

Record t := mk {
  chunk_id : str;
  score : Q;
  selector : option str;
  text : str
}.

End SourceReference.

Module ChatMessage.

Record t := mk {
  role : str;
  content : str
}.

End ChatMessage.

(** ** [LLMService]: sources and prompts *)

Module Prompts.
Import LLM.

Definition ellipsis : str := lit "...".

(** [chunk.text[:200] + "..." if len(chunk.text) > 200 else chunk.text] *)
Definition preview (chunk_text : str) : str :=
  if len chunk_text >? 200 then PyStr.slice chunk_text 0 200 ++ ellipsis
  else chunk_text.

Definition _extract_sources (chunks : list TextChunk) : list SourceReference.t :=
  map (fun chunk =>
         {| SourceReference.chunk_id := id chunk;
            SourceReference.score := 0.9%Q;
            SourceReference.selector := dom_selector chunk;
            SourceReference.text := preview (text chunk) |})
      chunks.

(** [self._extract_sources(chunks[:3])], in [summarize] and in
    [_extract_relevant_sources]. *)
Definition _extract_relevant_sources (chunks : list TextChunk)
  : list SourceReference.t :=
  _extract_sources (PyList.slice_to chunks 3).

(** [all_sources] of [compare_pages]. *)
Definition compare_sources (page_chunks_list : list (list TextChunk))
  : list SourceReference.t :=
  fold_left (fun all_sources chunks =>
               all_sources ++ _extract_sources (PyList.slice_to chunks 2))
            page_chunks_list [].









End Prompts.

(** ** Runs of spaces and of blank lines *)

Module CleanShapes.

Definition is_sp (c : ascii) : bool := Ascii.eqb " " c.

Definition is_nl (c : ascii) : bool := Ascii.eqb Extractor.nl c.

Definition lead_space (s : str) : bool :=
  match s with
  | c :: _ => is_sp c
  | [] => false
  end.

(** The length of the run of spaces at the head. *)
Fixpoint run (s : str) : nat :=
  match s with
  | c :: s' => if is_sp c then S (run s') else O
  | [] => O
  end.

(** The run of whitespace at the head holds a newline. *)
Fixpoint run_has_nl (s : str) : bool :=
  match s with
  | c :: s' => if is_nl c then true else if isspace c then run_has_nl s' else false
  | [] => false
  end.

(** What the run of whitespace read so far allows: anything, one more
    newline, or no newline. *)
Inductive gap : Type := Open | OneNl | Closed.

Definition step (g : gap) (c : ascii) : option gap :=
  if is_nl c then
    match g with
    | Open => Some OneNl
    | OneNl => Some Closed
    | Closed => None
    end
  else if isspace c then
    match g with
    | Open => Some Open
    | _ => Some Closed
    end
  else Some Open.

(** What a space does to the run. *)
Definition after_space (g : gap) : gap :=
  match g with
  | Open => Open
  | _ => Closed
  end.

(** No newline of [s] is followed by whitespace and then a newline, other
    than by the newline itself. *)
Fixpoint tidy (g : gap) (s : str) : bool :=
  match s with
  | c :: s' =>
      match step g c with
      | Some g' => tidy g' s'
      | None => false
      end
  | [] => true
  end.

End CleanShapes.

(** ** [core.security]: the password before hashing *)

Module Security.

Definition char_of (n : Z) : ascii := ascii_of_N (Z.to_N n).

Definition is_continuation (b : Z) : bool := (128 <=? b) && (b <=? 191).

(** [bytes.decode("utf-8", errors="ignore")], as far as the result stays
    below code point 256: a byte that starts the encoding of a higher code
    point gives [None]. *)
Fixpoint decode_ignore (bytes : list Z) : option str :=
  match bytes with
  | [] => Some []
  | b :: rest =>
      if b <? 128 then option_map (cons (char_of b)) (decode_ignore rest)
      else if b <? 194 then decode_ignore rest
      else if b <? 196 then
        match rest with
        | b2 :: rest' =>
            if is_continuation b2 then
              option_map (cons (char_of (Z.lor (Z.shiftl (Z.land b 31) 6) (Z.land b2 63))))
                         (decode_ignore rest')
            else decode_ignore rest
        | [] => Some []
        end
      else None
  end.

(** [password.encode("utf-8")[:72].decode("utf-8", errors="ignore")] *)
Definition truncate_password (password : str) : option str :=
  decode_ignore (PyList.slice_to (encode password) 72).

Section Bcrypt.
(** [pwd_context.verify] is the library's. *)
Variable verify : str -> str -> bool.

Definition verify_password (plain_password hashed_password : str) : option bool :=
  option_map (fun plain => verify plain hashed_password)
             (truncate_password plain_password).
End Bcrypt.

End Security.

(** ** [ContentExtractor._extract_metadata] and the pruning of the tree *)

Module Metadata.
Import Detector.

(** [tag.get_text()]: the strings below the tag, in document order. *)
Fixpoint get_text (n : node) : str :=
  match n with
  | Tag _ _ children => flat_map get_text children
  | NavigableString s => s
  end.

(** [soup.get_text()] *)
Definition soup_text (soup : list node) : str := flat_map get_text soup.

(** [str.split()]: [word] is the word read so far. *)
Fixpoint split_from (word : str) (s : str) : list str :=
  match s with
  | [] =>
      match word with
      | [] => []
      | _ :: _ => [word]
      end
  | c :: s' =>
      if isspace c then
        match word with
        | [] => split_from [] s'
        | _ :: _ => word :: split_from [] s'
        end
      else split_from (word ++ [c]) s'
  end.

Definition split (s : str) : list str := split_from [] s.

(** [soup.find_all([name, ...])] *)
Definition find_all_names (soup : list node) (names : list str) : list node :=
  filter (fun n => existsb (PyStr.eqb (tag_name n)) names)
         (flat_map descendants soup).

(** [soup.find_all(name, key=True)] *)
Definition find_all_with (soup : list node) (name key : str) : list node :=
  filter (fun n => match get n key with
                   | Some _ => true
                   | None => false
                   end)
         (find_all soup name).

Record PageMetadata := mkMeta {
  url : str;
  word_count : Z;
  headings : list (str * str);
  links : list (str * str)
}.

Definition _extract_metadata (soup : list node) (page_url : str) : PageMetadata :=
  {| url := page_url;
     word_count := Z.of_nat (List.length (split (soup_text soup)));
     headings :=
       map (fun heading => (tag_name heading, strip (get_text heading)))
           (find_all_names soup [lit "h1"; lit "h2"; lit "h3"]);
     links :=
       map (fun link => (strip (get_text link), get_default link (lit "href") []))
           (PyList.slice_to (find_all_with soup (lit "a") (lit "href")) 20) |}.

Definition removed_names : list str :=
  [ lit "script"; lit "style"; lit "nav"; lit "footer"; lit "header" ].

(** The tree after [tag.decompose()] on every tag with one of [names]. *)
Fixpoint prune (names : list str) (n : node) : list node :=
  match n with
  | Tag name attrs children =>
      if existsb (PyStr.eqb name) names then []
      else [Tag name attrs (flat_map (prune names) children)]
  | NavigableString _ => [n]
  end.

(** [for tag in soup(['script', 'style', 'nav', 'footer', 'header']):
    tag.decompose()] *)
Definition decompose_all (soup : list node) : list node :=
  flat_map (prune removed_names) soup.

End Metadata.

(** ** [api.v1.extract.extract_content] and the text pipeline *)

Module ExtractEndpoint.
Import Detector.

(** A response of an endpoint: a value, or an [HTTPException]. *)
Inductive response (A : Type) : Type :=
| Ok (a : A)
| HTTPException (status_code : Z) (detail : str).

Arguments Ok {A} a.
Arguments HTTPException {A} status_code detail.

Section Endpoint.
Variable A : Type.
(** The parser and the extraction with its libraries; the extraction gives
    its result or the message of the exception it raises. *)
Variable parse : str -> list node.
Variable extract_from_html : str -> str -> A + str.

(** [extract_content], from the check for sensitive inputs on. *)
Definition extract_content (html url : str) : response A :=
  let sensitive_fields := detect_sensitive_inputs parse html in
  match sensitive_fields with
  | _ :: _ =>
      HTTPException 400
        (lit "Page contains sensitive fields: " ++ join (lit ", ") sensitive_fields
         ++ lit ". Cannot extract content for privacy reasons.")
  | [] =>
      match extract_from_html html url with
      | inl result => Ok result
      | inr e => HTTPException 500 (lit "Content extraction failed: " ++ e)
      end
  end.
End Endpoint.

(** The text and the chunks of [extract_from_html], from the plain text that
    the conversion from markup gives. *)
Definition extract_text (converted : str) : str :=
  Extractor._redact_sensitive (Extractor._clean_text converted).

Definition extract_chunks (fuel : nat) (converted url : str)
  : outcome (list TextChunk) :=
  Chunker._create_chunks fuel (extract_text converted) url
                         Chunker.default_chunk_size Chunker.default_overlap.

End ExtractEndpoint.

(** ** Chats and their messages ([api.v1.chat], and the saving of answers
    and summaries in [api.v1.qa] and [api.v1.summarize])

    The tables are lists of rows and a request is handled in one piece; the
    time stamps of the rows play no part here and are left out. *)

Module Chats.
Import ExtractEndpoint.

Record Chat := mkChat {
  chat_id : Z;
  chat_user_id : Z;
  chat_title : option str
}.

Record Message := mkMessage {
  message_id : Z;
  message_chat_id : Z;
  message_role : str;
  message_content : str
}.

Record db := mkDb {
  chats : list Chat;
  messages : list Message;
  next_chat_id : Z;
  next_message_id : Z
}.

Definition empty_db : db :=
  {| chats := []; messages := []; next_chat_id := 1; next_message_id := 1 |}.

(** [select(func.count(Chat.id)).where(Chat.user_id == user_id)] *)
Definition chat_count (d : db) (user_id : Z) : Z :=
  Z.of_nat (List.length (filter (fun c => chat_user_id c =? user_id) (chats d))).

(** [select(func.count(Message.id)).where(Message.chat_id == chat_id)] *)
Definition message_count (d : db) (cid : Z) : Z :=
  Z.of_nat (List.length (filter (fun m => message_chat_id m =? cid) (messages d))).

(** [select(Chat).where(Chat.id == chat_id, Chat.user_id == user_id)] with
    [scalar_one_or_none()] *)
Definition find_chat (d : db) (cid user_id : Z) : option Chat :=
  find (fun c => (chat_id c =? cid) && (chat_user_id c =? user_id)) (chats d).

(** [a or b] on optional strings. *)
Definition or_else (a : option str) (b : option str) : option str :=
  match a with
  | Some (_ :: _) => a
  | _ => b
  end.

Definition add_message (d : db) (cid : Z) (role content : str) : db :=
  {| chats := chats d;
     messages := messages d ++
       [ {| message_id := next_message_id d; message_chat_id := cid;
            message_role := role; message_content := content |} ];
     next_chat_id := next_chat_id d;
     next_message_id := next_message_id d + 1 |}.

Section Limits.
(** [settings.MAX_CHATS_PER_USER] and [settings.MAX_MESSAGES_PER_CHAT]
    (3 and 50 unless the environment says otherwise). *)
Variables (MAX_CHATS_PER_USER MAX_MESSAGES_PER_CHAT : Z).

Definition create_chat (user_id : Z) (title : option str) (d : db)
  : db * response Chat :=
  if chat_count d user_id >=? MAX_CHATS_PER_USER then
    (d, HTTPException 400
          (lit "Maximum of " ++ of_int MAX_CHATS_PER_USER
           ++ lit " chats allowed per user. Please delete an existing chat first."))
  else
    let new_chat := {| chat_id := next_chat_id d; chat_user_id := user_id;
                       chat_title := or_else title (Some (lit "New Chat")) |} in
    ({| chats := chats d ++ [new_chat];
        messages := messages d;
        next_chat_id := next_chat_id d + 1;
        next_message_id := next_message_id d |},
     Ok new_chat).

(** [delete_chat]: the messages go with the chat. *)
Definition delete_chat (user_id cid : Z) (d : db) : db * response str :=
  match find_chat d cid user_id with
  | None => (d, HTTPException 404 (lit "Chat not found"))
  | Some chat =>
      ({| chats := filter (fun c => negb (chat_id c =? chat_id chat)) (chats d);
          messages := filter (fun m => negb (message_chat_id m =? chat_id chat))
                             (messages d);
          next_chat_id := next_chat_id d;
          next_message_id := next_message_id d |},
       Ok (lit "Chat deleted successfully"))
  end.

Definition update_chat_title (user_id cid : Z) (title : option str) (d : db)
  : db * response str :=
  match find_chat d cid user_id with
  | None => (d, HTTPException 404 (lit "Chat not found"))
  | Some chat =>
      ({| chats := map (fun c => if chat_id c =? chat_id chat
                                 then {| chat_id := chat_id c;
                                         chat_user_id := chat_user_id c;
                                         chat_title := or_else title (chat_title c) |}
                                 else c) (chats d);
          messages := messages d;
          next_chat_id := next_chat_id d;
          next_message_id := next_message_id d |},
       Ok (lit "Chat title updated successfully"))
  end.

Definition limit_reached : response unit :=
  HTTPException 400
    (lit "Chat has reached maximum of " ++ of_int MAX_MESSAGES_PER_CHAT
     ++ lit " messages").

(** The end of [answer_question]: the question and the answer are saved when
    the request names a chat of the user. *)
Definition save_answer (user_id : Z) (request_chat_id : option Z)
           (question answer : str) (d : db) : db * response unit :=
  match request_chat_id with
  | None => (d, Ok tt)
  | Some cid =>
      if cid =? 0 then (d, Ok tt)
      else
        match find_chat d cid user_id with
        | None => (d, Ok tt)
        | Some chat =>
            if message_count d (chat_id chat) >=? MAX_MESSAGES_PER_CHAT
            then (d, limit_reached)
            else
              (add_message (add_message d (chat_id chat) (lit "user") question)
                           (chat_id chat) (lit "assistant") answer,
               Ok tt)
        end
  end.

(** The end of [summarize_content]: the summary is saved in the same way. *)
Definition save_summary (user_id : Z) (request_chat_id : option Z)
           (summary : str) (d : db) : db * response unit :=
  match request_chat_id with
  | None => (d, Ok tt)
  | Some cid =>
      if cid =? 0 then (d, Ok tt)
      else
        match find_chat d cid user_id with
        | None => (d, Ok tt)
        | Some chat =>
            if message_count d (chat_id chat) >=? MAX_MESSAGES_PER_CHAT
            then (d, limit_reached)
            else (add_message d (chat_id chat) (lit "assistant") summary, Ok tt)
        end
  end.

(** The requests that write to the tables. *)
Inductive request : Type :=
| CreateChat (user_id : Z) (title : option str)
| DeleteChat (user_id cid : Z)
| UpdateTitle (user_id cid : Z) (title : option str)
| SaveAnswer (user_id : Z) (cid : option Z) (question answer : str)
| SaveSummary (user_id : Z) (cid : option Z) (summary : str).

Definition handle (req : request) (d : db) : db :=
  match req with
  | CreateChat u title => fst (create_chat u title d)
  | DeleteChat u cid => fst (delete_chat u cid d)
  | UpdateTitle u cid title => fst (update_chat_title u cid title d)
  | SaveAnswer u cid q a => fst (save_answer u cid q a d)
  | SaveSummary u cid s => fst (save_summary u cid s d)
  end.

(** Requests handled one after the other. *)
Definition run (reqs : list request) (d : db) : db :=
  fold_left (fun d req => handle req d) reqs d.

Definition request_user (req : request) : Z :=
  match req with
  | CreateChat u _ | DeleteChat u _ | UpdateTitle u _ _
  | SaveAnswer u _ _ _ | SaveSummary u _ _ => u
  end.

(** The tables are well formed: identifiers are fresh and not repeated. *)
Definition well_formed (d : db) : Prop :=
  NoDup (map chat_id (chats d))
  /\ Forall (fun c => chat_id c < next_chat_id d) (chats d).


End Limits.

End Chats.

(** ** [core.redis_client.increment_rate_limit]

    The Redis server is a map from keys to a counter and the time at which
    the key expires; time is counted in seconds. *)

Module RateLimit.

Record entry := mkEntry {
  value : Z;
  expires_at : option Z
}.

Definition store : Type := str -> option entry.

Definition no_keys : store := fun _ => None.

Definition set_key (s : store) (key : str) (e : entry) : store :=
  fun k => if PyStr.eqb k key then Some e else s k.

(** The entry of a key that has not expired at [now]. *)
Definition lookup (s : store) (key : str) (now : Z) : option entry :=
  match s key with
  | Some e =>
      match expires_at e with
      | Some t => if t <=? now then None else Some e
      | None => Some e
      end
  | None => None
  end.

(** [INCR key]: a key that is not there counts from 0 and gets no expiry. *)
Definition incr (s : store) (key : str) (now : Z) : store * Z :=
  match lookup s key now with
  | Some e =>
      (set_key s key {| value := value e + 1; expires_at := expires_at e |},
       value e + 1)
  | None => (set_key s key {| value := 1; expires_at := None |}, 1)
  end.

(** [EXPIRE key seconds] *)
Definition expire (s : store) (key : str) (seconds now : Z) : store :=
  match lookup s key now with
  | Some e => set_key s key {| value := value e; expires_at := Some (now + seconds) |}
  | None => s
  end.

(** [increment_rate_limit(key, window_seconds)], called at time [now];
    [redis_client] is [None] before [init_redis]. *)
Definition increment_rate_limit (redis_client : option store) (key : str)
           (window_seconds now : Z) : option store * Z :=
  match redis_client with
  | None => (None, 0)
  | Some s =>
      let '(s, count) := incr s key now in
      (Some (expire s key window_seconds now), count)
  end.

(** [count > settings.RATE_LIMIT_PER_MINUTE], the test before the 429. *)
Definition refused (rate_limit count : Z) : bool := count >? rate_limit.

(** The counts that calls at the given times get, one after the other. *)
Fixpoint counts (redis_client : option store) (key : str) (window_seconds : Z)
         (times : list Z) : list Z :=
  match times with
  | [] => []
  | now :: later =>
      let '(redis_client, count) :=
        increment_rate_limit redis_client key window_seconds now in
      count :: counts redis_client key window_seconds later
  end.

(** Each call comes less than [window] after the one before it. *)
Fixpoint close_calls (window previous : Z) (times : list Z) : Prop :=
  match times with
  | [] => True
  | now :: later => now < previous + window /\ close_calls window now later
  end.

End RateLimit.

(** * Properties *)

Example md5_empty : MD5.hexdigest [] = lit "d41d8cd98f00b204e9800998ecf8427e".
Proof. vm_compute. reflexivity. Qed.

Example md5_abc : MD5.hexdigest (encode (lit "abc")) = lit "900150983cd24fb0d6963f7d28e17f72".
Proof. vm_compute. reflexivity. Qed.

Example md5_two_blocks :
  MD5.hexdigest (encode (repeat "x"%char 70 ++ lit ":12")) = lit "66f22101cb1d2f4195497ef3046226d7".
Proof. vm_compute. reflexivity. Qed.

Example md5_latin1 :
  MD5.hexdigest (encode (lit "caf" ++ [ascii_of_nat 233] ++ lit ":3"))
  = lit "e38df82d9cc188db5b354faf053ae8a9".
Proof. vm_compute. reflexivity. Qed.

(** ** Facts about Python strings *)

Section StringFacts.

Lemma len_nonneg (s : str) : 0 <= len s.
Proof. unfold len. lia. Qed.

Lemma len_app (a b : str) : len (a ++ b) = len a + len b.
Proof. unfold len. rewrite length_app. lia. Qed.

Lemma lstrip_split (s : str) :
  exists a, s = a ++ lstrip s /\ forallb isspace a = true.
Proof.
  induction s as [|c s IH]; simpl.
  - exists []. split; reflexivity.
  - destruct (isspace c) eqn:Hc.
    + destruct IH as [a [Ha Hs]]. exists (c :: a). simpl.
      rewrite Hc, Hs. split; [f_equal; exact Ha | reflexivity].
    + exists []. split; reflexivity.
Qed.

Lemma forallb_rev {A} (f : A -> bool) (l : list A) :
  forallb f (rev l) = forallb f l.
Proof.
  induction l as [|x l IH]; simpl; [reflexivity|].
  rewrite forallb_app, IH. simpl. rewrite andb_true_r. apply andb_comm.
Qed.

Lemma rstrip_split (s : str) :
  exists b, s = rstrip s ++ b /\ forallb isspace b = true.
Proof.
  unfold rstrip. destruct (lstrip_split (rev s)) as [a [Ha Hs]].
  exists (rev a). split.
  - rewrite <- rev_app_distr, <- Ha, rev_involutive. reflexivity.
  - rewrite forallb_rev. exact Hs.
Qed.

Lemma strip_split (s : str) :
  exists a b, s = a ++ strip s ++ b
              /\ forallb isspace a = true /\ forallb isspace b = true.
Proof.
  unfold strip. destruct (lstrip_split s) as [a [Ha Hsa]].
  destruct (rstrip_split (lstrip s)) as [b [Hb Hsb]].
  exists a, b. split; [|split; assumption].
  rewrite <- Hb. exact Ha.
Qed.

Lemma strip_len (s : str) : len (strip s) <= len s.
Proof.
  destruct (strip_split s) as [a [b [H _]]].
  rewrite H at 2. rewrite !len_app.
  pose proof (len_nonneg a). pose proof (len_nonneg b). lia.
Qed.

Lemma clamp_range (n i : Z) : 0 <= n -> 0 <= clamp n i <= n.
Proof. unfold clamp. destruct (i <? 0) eqn:E; lia. Qed.

Lemma slice_len (s : str) (lo hi : Z) :
  len (slice s lo hi) = Z.max 0 (clamp (len s) hi - clamp (len s) lo).
Proof.
  unfold slice, len.
  pose proof (clamp_range (len s) lo (len_nonneg s)) as Hlo.
  pose proof (clamp_range (len s) hi (len_nonneg s)) as Hhi.
  unfold len in *.
  rewrite length_firstn, length_skipn. lia.
Qed.

(** A non-empty slice is no longer than the distance between its bounds,
    unless the lower bound counts from the start and the upper one from
    the end. *)
Lemma slice_len_le (s : str) (lo hi : Z) :
  (0 <= lo -> 0 <= hi) -> 0 < len (slice s lo hi) ->
  len (slice s lo hi) <= hi - lo.
Proof.
  intros Hsign. rewrite slice_len. pose proof (len_nonneg s).
  unfold clamp. destruct (hi <? 0) eqn:Eh, (lo <? 0) eqn:El; lia.
Qed.

Lemma slice_nonneg (s : str) (lo hi : Z) :
  0 <= lo -> lo <= hi -> hi <= len s ->
  slice s lo hi = firstn (Z.to_nat (hi - lo)) (skipn (Z.to_nat lo) s).
Proof.
  intros. unfold slice, clamp.
  destruct (lo <? 0) eqn:El, (hi <? 0) eqn:Eh; try lia.
  rewrite !Z.min_l by lia. reflexivity.
Qed.

Lemma index_in_range (s : str) (i : Z) :
  0 <= i < len s -> exists c, index s i = Some c.
Proof.
  intros H. unfold index.
  replace ((0 <=? i) && (i <? len s)) with true by (symmetry; apply andb_true_iff; lia).
  destruct (nth_error s (Z.to_nat i)) eqn:E; [eauto|].
  apply nth_error_None in E. unfold len in H. lia.
Qed.

End StringFacts.

(** ** The sentence-boundary search and one window *)

Module ChunkerFacts.
Import Chunker.

Lemma boundary_search_spec (txt : str) (count : nat) (i : Z) :
  0 <= i - Z.of_nat count -> i < len txt ->
  boundary_search txt count i = NotFound \/
  exists e, boundary_search txt count i = Found e
            /\ i - Z.of_nat count + 1 < e <= i + 1.
Proof.
  revert i. induction count as [|n IH]; intros i Hlo Hhi; simpl.
  - left. reflexivity.
  - destruct (index_in_range txt i) as [c Hc]; [lia|]. rewrite Hc.
    destruct (is_terminator c).
    + right. exists (i + 1). split; [reflexivity | lia].
    + destruct (IH (i - 1)) as [H | [e [H He]]]; try lia.
      * left. exact H.
      * right. exists e. split; [exact H | lia].
Qed.

(** What [end] can be for a window that starts inside the text. *)
Lemma window_end_spec (txt : str) (chunk_size start : Z) :
  0 <= start < len txt -> 0 < chunk_size ->
  exists e, window_end txt chunk_size start = Returned e
            /\ start < e <= len txt
            /\ (e < len txt ->
                e = start + chunk_size \/
                (start + chunk_size - 198 <= e /\ start + 2 <= e)).
Proof.
  intros Hs Hc. unfold window_end.
  set (nominal := Z.min (start + chunk_size) (len txt)).
  destruct (nominal <? len txt) eqn:E.
  - apply Z.ltb_lt in E.
    set (stop := Z.max (start + chunk_size - 200) start).
    destruct (boundary_search_spec txt (Z.to_nat (nominal - stop)) nominal)
      as [H | [e [H He]]]; try (subst nominal stop; lia).
    + rewrite H. exists nominal. subst nominal. repeat split; try lia.
    + rewrite H. exists e. subst nominal stop. repeat split; try lia.
  - apply Z.ltb_ge in E. exists nominal. subst nominal. repeat split; try lia.
Qed.

(** Under a progress configuration the next window starts later. *)
Lemma next_start_progress (txt : str) (chunk_size overlap start e : Z) :
  progress_config chunk_size overlap ->
  start < e <= len txt ->
  (e < len txt ->
   e = start + chunk_size \/ (start + chunk_size - 198 <= e /\ start + 2 <= e)) ->
  start < next_start txt overlap e <= e
  /\ e <= next_start txt overlap e + overlap.
Proof.
  unfold progress_config, next_start. intros [H0 [H1 H2]] He Hr.
  destruct (e <? len txt) eqn:E.
  - apply Z.ltb_lt in E. specialize (Hr E). lia.
  - lia.
Qed.

(** The configuration that [extract_from_html] runs with. *)
Lemma default_progress_config : progress_config default_chunk_size default_overlap.
Proof. unfold progress_config, default_chunk_size, default_overlap. lia. Qed.

(** What a successful search says about the text. *)
Lemma boundary_search_found (txt : str) (count : nat) :
  forall i e,
    boundary_search txt count i = Found e ->
    i - Z.of_nat count < e - 1 <= i
    /\ (exists c, index txt (e - 1) = Some c /\ is_terminator c = true)
    /\ (forall j, e - 1 < j <= i ->
          exists c, index txt j = Some c /\ is_terminator c = false).
Proof.
  induction count as [|n IH]; intros i e; simpl; [discriminate|].
  destruct (index txt i) as [c|] eqn:Hi; [|discriminate].
  destruct (is_terminator c) eqn:Hc.
  - intros H. injection H as <-. replace (i + 1 - 1) with i by lia.
    split; [lia|]. split; [eauto | intros j Hj; lia].
  - intros H. destruct (IH _ _ H) as [Hr [Ht Hn]].
    split; [lia|]. split; [exact Ht|].
    intros j Hj. destruct (Z.eq_dec j i) as [-> | Hne]; [eauto|].
    apply Hn. lia.
Qed.

(** The search finds the terminator at [p] from any position above it that
    has only other characters in between. *)
Lemma boundary_search_refind (txt : str) (p : Z) (c : ascii) (count : nat) :
  index txt p = Some c -> is_terminator c = true ->
  forall i,
    p <= i -> i - Z.of_nat count < p ->
    (forall j, p < j <= i ->
       exists d, index txt j = Some d /\ is_terminator d = false) ->
    boundary_search txt count i = Found (p + 1).
Proof.
  intros Hp Hc. induction count as [|n IH]; intros i Hle Hlt Hn; [simpl in Hlt; lia|].
  simpl. destruct (Z.eq_dec i p) as [-> | Hne].
  - rewrite Hp, Hc. reflexivity.
  - destruct (Hn i ltac:(lia)) as [d [Hd Hdt]]. rewrite Hd, Hdt.
    apply IH; [lia | lia |]. intros j Hj. apply Hn. lia.
Qed.

(** A window whose refined end sends the next start back to or before its
    own start is followed by a window with the same end. *)
Lemma window_end_stall (txt : str) (chunk_size overlap s e : Z) :
  0 <= overlap < chunk_size -> 0 <= s < len txt ->
  window_end txt chunk_size s = Returned e ->
  e < len txt -> e - overlap <= s ->
  window_end txt chunk_size (e - overlap) = Returned e.
Proof.
  intros Hcfg Hs. unfold window_end.
  set (n := Z.min (s + chunk_size) (len txt)).
  set (stop := Z.max (s + chunk_size - 200) s).
  destruct (n <? len txt) eqn:En.
  - apply Z.ltb_lt in En.
    destruct (boundary_search txt (Z.to_nat (n - stop)) n) as [e0| |] eqn:Eb;
      try discriminate.
    + intros H He Hback. injection H as ->.
      destruct (boundary_search_found _ _ _ _ Eb) as [Hr [[c [Hc Ht]] Hn]].
      set (n' := Z.min (e - overlap + chunk_size) (len txt)).
      set (stop' := Z.max (e - overlap + chunk_size - 200) (e - overlap)).
      assert (Hn' : (n' <? len txt) = true) by (apply Z.ltb_lt; subst n n'; lia).
      rewrite Hn'.
      rewrite (boundary_search_refind txt (e - 1) c (Z.to_nat (n' - stop')) Hc Ht n').
      * f_equal. lia.
      * subst n n'. lia.
      * subst n n' stop stop'. lia.
      * intros j Hj. apply Hn. subst n n'. lia.
    + intros H He Hback. injection H as <-. subst n. lia.
  - intros H He Hback. injection H as <-. apply Z.ltb_ge in En. subst n. lia.
Qed.

End ChunkerFacts.

(** ** The loop of [_create_chunks] *)

Module LoopFacts.
Import Chunker ChunkerFacts.

Section Loop.
Variables (txt url : str) (chunk_size overlap : Z).

Lemma loop_S (fuel : nat) (st : loop_state) :
  loop (S fuel) txt url chunk_size overlap st =
  if start st <? len txt then
    match body txt url chunk_size overlap st with
    | Returned st' => loop fuel txt url chunk_size overlap st'
    | IndexError => IndexError
    | OutOfFuel => OutOfFuel
    end
  else Returned (chunks st).
Proof. reflexivity. Qed.

Lemma loop_O (st : loop_state) :
  loop O txt url chunk_size overlap st =
  if start st <? len txt then OutOfFuel else Returned (chunks st).
Proof. reflexivity. Qed.

Lemma body_spec (st st' : loop_state) :
  body txt url chunk_size overlap st = Returned st' ->
  exists e, window_end txt chunk_size (start st) = Returned e
            /\ chunks st' = chunks st ++ emitted txt url st e
            /\ start st' = next_start txt overlap e
            /\ chunk_index st' =
               chunk_index st + Z.of_nat (List.length (emitted txt url st e)).
Proof.
  unfold body, emitted.
  destruct (window_end txt chunk_size (start st)) as [e| |]; try discriminate.
  intros H. injection H as <-. exists e.
  destruct (strip (slice txt (start st) e)); simpl.
  - rewrite app_nil_r. repeat split; lia.
  - repeat split; lia.
Qed.

Lemma body_returns (st : loop_state) (e : Z) :
  window_end txt chunk_size (start st) = Returned e ->
  exists st', body txt url chunk_size overlap st = Returned st'.
Proof. unfold body. intros ->. eauto. Qed.

(** A property that every pass keeps holds when the loop returns. *)
Lemma loop_invariant (I : loop_state -> Prop) :
  (forall st st', I st -> start st < len txt ->
                  body txt url chunk_size overlap st = Returned st' -> I st') ->
  forall fuel st l,
    I st -> loop fuel txt url chunk_size overlap st = Returned l ->
    exists st', I st' /\ chunks st' = l /\ len txt <= start st'.
Proof.
  intros Hstep. induction fuel as [|n IH]; intros st l HI.
  - rewrite loop_O. destruct (start st <? len txt) eqn:E; [discriminate|].
    intros H. injection H as <-. exists st. apply Z.ltb_ge in E. auto.
  - rewrite loop_S. destruct (start st <? len txt) eqn:E.
    + destruct (body txt url chunk_size overlap st) as [st'| |] eqn:Hb;
        try discriminate.
      apply IH. apply (Hstep st); auto. apply Z.ltb_lt. exact E.
    + intros H. injection H as <-. exists st. apply Z.ltb_ge in E. auto.
Qed.

(** The result does not depend on the iteration budget. *)
Lemma loop_fuel_mono (fuel : nat) :
  forall st l,
    loop fuel txt url chunk_size overlap st = Returned l ->
    loop (S fuel) txt url chunk_size overlap st = Returned l.
Proof.
  induction fuel as [|n IH]; intros st l.
  - rewrite loop_S, loop_O. destruct (start st <? len txt); [discriminate | auto].
  - rewrite (loop_S (S n)), (loop_S n).
    destruct (start st <? len txt); [|auto].
    destruct (body txt url chunk_size overlap st) as [st'| |]; try discriminate.
    apply IH.
Qed.

Lemma loop_fuel_le (fuel fuel' : nat) (st : loop_state) (l : list TextChunk) :
  (fuel <= fuel')%nat ->
  loop fuel txt url chunk_size overlap st = Returned l ->
  loop fuel' txt url chunk_size overlap st = Returned l.
Proof.
  induction 1 as [|m Hle IH]; [auto|].
  intros H. apply loop_fuel_mono. auto.
Qed.

Lemma loop_fuel_irrelevant (fuel fuel' : nat) (st : loop_state)
      (l l' : list TextChunk) :
  loop fuel txt url chunk_size overlap st = Returned l ->
  loop fuel' txt url chunk_size overlap st = Returned l' -> l = l'.
Proof.
  intros H H'. destruct (Nat.le_ge_cases fuel fuel') as [Hle | Hle].
  - apply (loop_fuel_le _ _ _ _ Hle) in H. congruence.
  - apply (loop_fuel_le _ _ _ _ Hle) in H'. congruence.
Qed.

(** A start that the loop body maps to itself is never left. *)
Lemma loop_stuck (s e : Z) :
  s < len txt ->
  window_end txt chunk_size s = Returned e ->
  next_start txt overlap e = s ->
  forall fuel st, start st = s ->
    loop fuel txt url chunk_size overlap st = OutOfFuel.
Proof.
  intros Hs He Hn. induction fuel as [|fuel IH]; intros st Hst.
  - rewrite loop_O. rewrite Hst.
    replace (s <? len txt) with true by (symmetry; apply Z.ltb_lt; exact Hs).
    reflexivity.
  - rewrite loop_S. rewrite Hst.
    replace (s <? len txt) with true by (symmetry; apply Z.ltb_lt; exact Hs).
    destruct (body_returns st e) as [st' Hb];
      [rewrite Hst; exact He|].
    rewrite Hb. apply IH.
    destruct (body_spec _ _ Hb) as [e' [He' [_ [Hs' _]]]].
    rewrite Hst in He'. assert (e' = e) by congruence. subst e'.
    rewrite Hs'. exact Hn.
Qed.

(** A property that every pass followed by a return keeps holds when the
    loop returns. *)
Lemma loop_invariant_returning (I : loop_state -> Prop) :
  (forall st st' fuel l,
      I st -> start st < len txt ->
      body txt url chunk_size overlap st = Returned st' ->
      loop fuel txt url chunk_size overlap st' = Returned l -> I st') ->
  forall fuel st l,
    I st -> loop fuel txt url chunk_size overlap st = Returned l ->
    exists st', I st' /\ chunks st' = l /\ len txt <= start st'.
Proof.
  intros Hstep. induction fuel as [|n IH]; intros st l HI.
  - rewrite loop_O. destruct (start st <? len txt) eqn:E; [discriminate|].
    intros H. injection H as <-. exists st. apply Z.ltb_ge in E. auto.
  - rewrite loop_S. destruct (start st <? len txt) eqn:E.
    + destruct (body txt url chunk_size overlap st) as [st'| |] eqn:Hb;
        try discriminate.
      intros H. apply (IH st' l); [|exact H].
      apply (Hstep st st' n l); auto. apply Z.ltb_lt. exact E.
    + intros H. injection H as <-. exists st. apply Z.ltb_ge in E. auto.
Qed.

(** Under a progress configuration [len txt] passes are enough. *)
Lemma loop_terminates :
  progress_config chunk_size overlap ->
  forall fuel st,
    0 <= start st -> len txt - start st <= Z.of_nat fuel ->
    exists l, loop fuel txt url chunk_size overlap st = Returned l.
Proof.
  intros Hcfg. induction fuel as [|n IH]; intros st H0 Hf.
  - rewrite loop_O.
    destruct (start st <? len txt) eqn:E; [apply Z.ltb_lt in E; lia | eauto].
  - rewrite loop_S. destruct (start st <? len txt) eqn:E; [|eauto].
    apply Z.ltb_lt in E.
    destruct (window_end_spec txt chunk_size (start st)) as [e [He [Hb Hr]]];
      [lia | unfold progress_config in Hcfg; lia |].
    destruct (body_returns st e He) as [st' Hst']. rewrite Hst'.
    destruct (body_spec st st' Hst') as [e' [He' [_ [Hs _]]]].
    assert (e' = e) by congruence. subst e'.
    destruct (next_start_progress txt chunk_size overlap (start st) e Hcfg Hb Hr).
    apply IH; lia.
Qed.

Hypothesis Hcfg : 0 <= overlap < chunk_size.

(** In a run that returns every pass moves [start] forward. *)
Lemma returning_pass_progress (st st' : loop_state) (fuel : nat) (l : list TextChunk) :
  0 <= start st < len txt ->
  body txt url chunk_size overlap st = Returned st' ->
  loop fuel txt url chunk_size overlap st' = Returned l ->
  exists e, window_end txt chunk_size (start st) = Returned e
            /\ start st < e <= len txt
            /\ start st' = next_start txt overlap e
            /\ start st < start st' <= e
            /\ e <= start st' + overlap.
Proof.
  intros Hs Hb Hl.
  destruct (body_spec _ _ Hb) as [e [He [_ [Hs' _]]]].
  destruct (window_end_spec txt chunk_size (start st)) as [e' [He' [Hb' _]]];
    [lia | lia |].
  assert (e' = e) by congruence. subst e'.
  exists e. split; [exact He|]. split; [exact Hb'|]. split; [exact Hs'|].
  rewrite Hs'. unfold next_start. destruct (e <? len txt) eqn:E; [|lia].
  apply Z.ltb_lt in E.
  destruct (Z.lt_ge_cases (start st) (e - overlap)) as [Hp | Hback]; [lia|].
  exfalso.
  pose proof (window_end_stall txt chunk_size overlap (start st) e Hcfg Hs He E Hback)
    as Hw.
  assert (Hn : next_start txt overlap e = e - overlap).
  { unfold next_start. apply Z.ltb_lt in E. rewrite E. reflexivity. }
  rewrite (loop_stuck (e - overlap) e ltac:(lia) Hw Hn fuel st') in Hl.
  - discriminate.
  - rewrite Hs'. exact Hn.
Qed.

End Loop.

End LoopFacts.

(** ** Invariants of the emitted chunks *)

Module ChunkInvariants.
Import Chunker ChunkerFacts LoopFacts.

Lemma ForallOrdPairs_snoc {A} (R : A -> A -> Prop) (l : list A) (x : A) :
  ForallOrdPairs R l -> Forall (fun y => R y x) l -> ForallOrdPairs R (l ++ [x]).
Proof.
  induction 1 as [|a l Ha Hl IH]; intros HF; simpl.
  - constructor; constructor.
  - inversion HF; subst. constructor.
    + apply Forall_app. split; [exact Ha | constructor; [assumption | constructor]].
    + apply IH. assumption.
Qed.

Lemma ForallOrdPairs_consecutive {A} (R : A -> A -> Prop) (l : list A) :
  ForallOrdPairs R l ->
  forall i c d, nth_error l i = Some c -> nth_error l (S i) = Some d -> R c d.
Proof.
  induction 1 as [|a l Ha Hl IH]; intros i c d Hc Hd.
  - destruct i; discriminate.
  - destruct i as [|i]; simpl in *.
    + injection Hc as <-. destruct l as [|b l]; [discriminate|].
      simpl in Hd. injection Hd as <-. inversion Ha; assumption.
    + eapply IH; eassumption.
Qed.

Lemma emitted_cases (txt url : str) (st : loop_state) (e : Z) :
  emitted txt url st e = [] \/
  exists c, emitted txt url st e = [c]
            /\ id c = chunk_id url (chunk_index st)
            /\ text c = strip (slice txt (start st) e)
            /\ text c <> []
            /\ start_char c = start st /\ end_char c = e.
Proof.
  unfold emitted. destruct (strip (slice txt (start st) e)) as [|a s] eqn:E.
  - left. reflexivity.
  - right. eexists. split; [reflexivity|]. simpl. repeat split. discriminate.
Qed.

Section Spans.
Variables (txt url : str) (chunk_size overlap : Z).
Hypothesis Hcfg : 0 <= overlap < chunk_size.

Lemma span_inv_step (st st' : loop_state) (fuel : nat) (l : list TextChunk) :
  span_inv txt overlap st -> start st < len txt ->
  body txt url chunk_size overlap st = Returned st' ->
  loop fuel txt url chunk_size overlap st' = Returned l ->
  span_inv txt overlap st'.
Proof.
  intros [H0 [Hord Hall]] Hlt Hb Hl.
  destruct (returning_pass_progress txt url chunk_size overlap Hcfg st st' fuel l
              (conj H0 Hlt) Hb Hl) as [e [He [Hb' [_ [Hp Hq]]]]].
  destruct (body_spec _ _ _ _ _ _ Hb) as [e' [He' [Hch _]]].
  assert (e' = e) by congruence. subst e'.
  assert (Hall' : Forall (fun c => 0 <= start_char c < end_char c
                      /\ end_char c <= len txt
                      /\ start_char c < start st'
                      /\ end_char c <= start st' + overlap) (chunks st)).
  { eapply Forall_impl; [|exact Hall]. simpl. intros c Hc. lia. }
  unfold span_inv. rewrite Hch.
  destruct (emitted_cases txt url st e) as [E | [c [E [_ [_ [_ [Hcs Hce]]]]]]];
    rewrite E.
  - rewrite app_nil_r. repeat split; [lia | exact Hord | exact Hall'].
  - repeat split; [lia | |].
    + apply ForallOrdPairs_snoc; [exact Hord|].
      eapply Forall_impl; [|exact Hall]. unfold before. intros d Hd. lia.
    + apply Forall_app. split; [exact Hall'|].
      constructor; [lia | constructor].
Qed.

Lemma span_inv_initial : span_inv txt overlap initial.
Proof. repeat split; simpl; try lia; constructor. Qed.

End Spans.

(** C5: for every input text and every returned chunk sequence, each
    chunk has [start_char < end_char] (within the text), the chunks are in
    strictly increasing [start_char] order, and
    [chunk[i].end_char <= chunk[i+1].start_char + overlap] for consecutive
    chunks.  This holds whenever [0 <= overlap < size]; and the call does
    return, within [len(text)] passes, in the configurations in which the
    loop moves forward (the defaults 1000 and 200 are one). *)
Theorem create_chunks_monotonic_spans (txt url : str) (chunk_size overlap : Z) :
  0 <= overlap < chunk_size ->
  (forall fuel l,
      _create_chunks fuel txt url chunk_size overlap = Returned l ->
      (forall c, In c l -> 0 <= start_char c < end_char c /\ end_char c <= len txt)
      /\ (forall i c d,
             nth_error l i = Some c -> nth_error l (S i) = Some d ->
             start_char c < start_char d
             /\ end_char c <= start_char d + overlap))
  /\ (progress_config chunk_size overlap ->
      forall fuel, (List.length txt <= fuel)%nat ->
        exists l, _create_chunks fuel txt url chunk_size overlap = Returned l).
Proof.
  intros Hcfg. unfold _create_chunks. split.
  - intros fuel l Hl.
    destruct (loop_invariant_returning txt url chunk_size overlap (span_inv txt overlap)
                (span_inv_step txt url chunk_size overlap Hcfg)
                fuel initial l (span_inv_initial txt overlap) Hl)
      as [st [[_ [Hord Hall]] [<- _]]].
    split.
    + intros c Hc. rewrite Forall_forall in Hall. apply Hall in Hc. lia.
    + intros i c d Hc Hd.
      exact (ForallOrdPairs_consecutive _ _ Hord i c d Hc Hd).
  - intros Hp fuel Hfuel.
    apply loop_terminates; [exact Hp | simpl; lia | unfold len; simpl; lia].
Qed.

Lemma create_chunks_monotonic_spans_witness :
  let txt := lit "abcdefghij  klm. nop" in
  0 <= 2 < 8
  /\ (exists l, _create_chunks 20 txt (lit "https://example.com/a") 8 2 = Returned l)
  /\ (forall fuel l,
        _create_chunks fuel txt (lit "https://example.com/a") 8 2 = Returned l ->
        (forall c, In c l -> 0 <= start_char c < end_char c /\ end_char c <= len txt)
        /\ (forall i c d,
               nth_error l i = Some c -> nth_error l (S i) = Some d ->
               start_char c < start_char d /\ end_char c <= start_char d + 2)).
Proof.
  intros txt.
  assert (Hc : 0 <= 2 < 8) by lia.
  split; [exact Hc|]. split.
  - eexists. vm_compute. reflexivity.
  - exact (proj1 (create_chunks_monotonic_spans txt (lit "https://example.com/a") 8 2 Hc)).
Defined.

Example basic_chunking_scenario :
  match _create_chunks 3 (repeat "a"%char 2500) (lit "src")
                       default_chunk_size default_overlap with
  | Returned l => map span l = [(0, 1000); (800, 1800); (1600, 2500)]
  | _ => False
  end.
Proof. vm_compute. reflexivity. Qed.

Example empty_text_scenario :
  forall fuel, _create_chunks fuel [] (lit "src") default_chunk_size default_overlap
               = Returned [].
Proof. intros [|fuel]; reflexivity. Qed.

End ChunkInvariants.

(** ** Identifiers and texts of the emitted chunks *)

Module ChunkContents.
Import Chunker ChunkerFacts LoopFacts ChunkInvariants.

Lemma hex_byte_length (b : Z) : List.length (MD5.hex_byte b) = 2%nat.
Proof. reflexivity. Qed.

Lemma flat_map_length_const {A B} (f : A -> list B) (n : nat) (l : list A) :
  (forall a, List.length (f a) = n) ->
  List.length (flat_map f l) = (List.length l * n)%nat.
Proof.
  intros Hf. induction l as [|a l IH]; simpl; [reflexivity|].
  rewrite length_app, Hf, IH. reflexivity.
Qed.

Lemma hexdigest_length (msg : list Z) : List.length (MD5.hexdigest msg) = 32%nat.
Proof.
  unfold MD5.hexdigest.
  rewrite (flat_map_length_const MD5.hex_byte 2) by apply hex_byte_length.
  unfold MD5.digest. rewrite !length_app. reflexivity.
Qed.

Lemma chunk_id_length (url : str) (k : Z) : List.length (chunk_id url k) = 16%nat.
Proof.
  unfold chunk_id.
  set (h := MD5.hexdigest _).
  assert (Hh : len h = 32) by (unfold len, h; rewrite hexdigest_length; reflexivity).
  assert (H : len (slice h 0 16) = 16).
  { rewrite slice_len, Hh. reflexivity. }
  unfold len in H. lia.
Qed.

Section Contents.
Variables (txt url : str) (chunk_size overlap : Z).

Lemma id_inv_step (st st' : loop_state) :
  id_inv url st -> start st < len txt ->
  body txt url chunk_size overlap st = Returned st' -> id_inv url st'.
Proof.
  intros [Hi Hm] _ Hb.
  destruct (body_spec _ _ _ _ _ _ Hb) as [e [_ [Hch [_ Hidx]]]].
  unfold id_inv. rewrite Hch, Hidx.
  destruct (emitted_cases txt url st e) as [E | [c [E [Hid _]]]]; rewrite E.
  - rewrite app_nil_r. simpl. split; [lia | exact Hm].
  - rewrite length_app. simpl. split; [lia|].
    rewrite Nat.add_1_r, seq_S, !map_app, Hm. simpl.
    rewrite Hid, Hi. reflexivity.
Qed.

Lemma window_end_lower (start e : Z) :
  0 <= chunk_size -> 0 <= start < len txt ->
  window_end txt chunk_size start = Returned e -> start <= e.
Proof.
  intros Hc Hs. unfold window_end.
  set (nominal := Z.min (start + chunk_size) (len txt)).
  set (stop := Z.max (start + chunk_size - 200) start).
  destruct (nominal <? len txt) eqn:E.
  - apply Z.ltb_lt in E.
    destruct (boundary_search_spec txt (Z.to_nat (nominal - stop)) nominal)
      as [H | [e' [H He]]]; try (subst nominal stop; lia).
    + rewrite H. intros Hr. injection Hr as <-. subst nominal. lia.
    + rewrite H. intros Hr. injection Hr as <-. subst nominal stop. lia.
  - intros Hr. injection Hr as <-. subst nominal. lia.
Qed.

Lemma text_inv_step (st st' : loop_state) :
  0 <= chunk_size ->
  Forall (text_inv txt) (chunks st) -> start st < len txt ->
  body txt url chunk_size overlap st = Returned st' ->
  Forall (text_inv txt) (chunks st').
Proof.
  intros Hc Hall Hlt Hb.
  destruct (body_spec _ _ _ _ _ _ Hb) as [e [He [Hch _]]].
  rewrite Hch. apply Forall_app. split; [exact Hall|].
  destruct (emitted_cases txt url st e) as [E | [c [E [_ [Ht [Hne [Hcs Hce]]]]]]];
    rewrite E; constructor; [|constructor].
  unfold text_inv. rewrite Hcs, Hce. repeat split; try assumption.
  intros H0. pose proof (window_end_lower (start st) e Hc (conj H0 Hlt) He). lia.
Qed.

End Contents.

(** C7: chunking the same text with the same source id twice yields the
    same sequence of chunk ids; the id of the chunk at position [k] is
    [chunk_id url k], a function of the source id and the 0-based index of
    the emitted chunk only, and every id is 16 characters long. *)
Theorem chunk_ids_deterministic
        (txt url : str) (chunk_size overlap : Z) (fuel fuel' : nat)
        (l l' : list TextChunk) :
  _create_chunks fuel txt url chunk_size overlap = Returned l ->
  _create_chunks fuel' txt url chunk_size overlap = Returned l' ->
  map id l = map id l'
  /\ map id l = map (fun k => chunk_id url (Z.of_nat k)) (seq 0 (List.length l))
  /\ Forall (fun c => List.length (id c) = 16%nat) l.
Proof.
  unfold _create_chunks. intros H H'.
  assert (l = l') by (eapply loop_fuel_irrelevant; eassumption). subst l'.
  split; [reflexivity|].
  destruct (loop_invariant txt url chunk_size overlap (id_inv url)
              (id_inv_step txt url chunk_size overlap)
              fuel initial l (conj eq_refl eq_refl) H)
    as [st [[_ Hm] [<- _]]].
  split; [exact Hm|].
  apply Forall_forall. intros c Hc.
  apply (in_map id) in Hc. rewrite Hm in Hc.
  apply in_map_iff in Hc. destruct Hc as [k [<- _]]. apply chunk_id_length.
Qed.

(** C10: the text of every emitted chunk is the slice of the input at its
    span with leading and trailing whitespace stripped; it is not empty, it
    is a contiguous part of that slice, and it is no longer than
    [end_char - start_char]. *)
Theorem chunk_text_is_trimmed_slice
        (txt url : str) (chunk_size overlap : Z) (fuel : nat)
        (l : list TextChunk) (c : TextChunk) :
  0 <= chunk_size ->
  _create_chunks fuel txt url chunk_size overlap = Returned l ->
  In c l ->
  text c = strip (slice txt (start_char c) (end_char c))
  /\ text c <> []
  /\ (exists a b, slice txt (start_char c) (end_char c) = a ++ text c ++ b
                  /\ forallb isspace a = true /\ forallb isspace b = true)
  /\ len (text c) <= end_char c - start_char c.
Proof.
  unfold _create_chunks. intros Hc H Hin.
  destruct (loop_invariant txt url chunk_size overlap
              (fun st => Forall (text_inv txt) (chunks st))
              (fun st st' => text_inv_step txt url chunk_size overlap st st' Hc)
              fuel initial l (Forall_nil _) H)
    as [st [Hall [<- _]]].
  rewrite Forall_forall in Hall. destruct (Hall c Hin) as [Ht [Hne Hsign]].
  split; [exact Ht|]. split; [exact Hne|]. split.
  - rewrite Ht. apply strip_split.
  - pose proof (strip_len (slice txt (start_char c) (end_char c))) as Hle.
    rewrite <- Ht in Hle.
    assert (0 < len (text c)).
    { unfold len. destruct (text c); [congruence | simpl; lia]. }
    pose proof (slice_len_le txt (start_char c) (end_char c) Hsign). lia.
Qed.

Lemma chunk_ids_deterministic_witness :
  let l := [ {| id := lit "3f1bcc0da2ee0a30"; text := lit "a.";
                start_char := 0; end_char := 2; dom_selector := None |};
             {| id := lit "f7cb07bae139d0a6"; text := lit ".bc";
                start_char := 1; end_char := 4; dom_selector := None |};
             {| id := lit "7a0c2c721703b09c"; text := lit "cde";
                start_char := 3; end_char := 6; dom_selector := None |};
             {| id := lit "79b0ddf00ba669ac"; text := lit "efg";
                start_char := 5; end_char := 8; dom_selector := None |} ] in
  _create_chunks 5 (lit "a.bcdefg") (lit "u") 3 1 = Returned l
  /\ _create_chunks 9 (lit "a.bcdefg") (lit "u") 3 1 = Returned l
  /\ map id l = map (fun k => chunk_id (lit "u") (Z.of_nat k)) (seq 0 (List.length l))
  /\ Forall (fun c => List.length (id c) = 16%nat) l.
Proof.
  intros l.
  assert (H5 : _create_chunks 5 (lit "a.bcdefg") (lit "u") 3 1 = Returned l)
    by (vm_compute; reflexivity).
  assert (H9 : _create_chunks 9 (lit "a.bcdefg") (lit "u") 3 1 = Returned l)
    by (vm_compute; reflexivity).
  split; [exact H5|]. split; [exact H9|].
  exact (proj2 (chunk_ids_deterministic _ _ 3 1 5 9 l l H5 H9)).
Defined.

Lemma chunk_text_is_trimmed_slice_witness :
  let c := {| id := lit "a36847ae3df8d2b7"; text := lit "ghij";
              start_char := 6; end_char := 14; dom_selector := None |} in
  0 <= 8
  /\ (exists l,
        _create_chunks 20 (lit "abcdefghij    klm. nop") (lit "https://example.com/a") 8 2
        = Returned l /\ In c l)
  /\ text c = strip (slice (lit "abcdefghij    klm. nop") (start_char c) (end_char c))
  /\ len (text c) <= end_char c - start_char c.
Proof.
  intros c.
  assert (Hs : 0 <= 8) by lia.
  set (l := [ {| id := lit "6c4788ff53ea2e0c"; text := lit "abcdefgh";
                 start_char := 0; end_char := 8; dom_selector := None |};
              c;
              {| id := lit "bd44829cccbbda75"; text := lit "klm.";
                 start_char := 12; end_char := 18; dom_selector := None |};
              {| id := lit "1608ec97c3d99edf"; text := lit "m. nop";
                 start_char := 16; end_char := 22; dom_selector := None |} ]).
  assert (Hl : _create_chunks 20 (lit "abcdefghij    klm. nop")
                 (lit "https://example.com/a") 8 2 = Returned l)
    by (vm_compute; reflexivity).
  assert (Hin : In c l) by (right; left; reflexivity).
  split; [exact Hs|]. split; [exists l; split; assumption|].
  destruct (chunk_text_is_trimmed_slice _ _ 8 2 20 l c Hs Hl Hin) as [Ht [_ [_ Hle]]].
  split; [exact Ht | exact Hle].
Defined.

End ChunkContents.

(** ** Progress, coverage and the missing configuration check *)

Module ChunkProgress.
Import Chunker ChunkerFacts LoopFacts ChunkInvariants.

(** C8 (amended): for every input text and every configuration with
    [0 <= overlap < size] and [overlap < max(size - 198, 2)] (the defaults
    1000 and 200 are one), the loop terminates within [len(text)] passes:
    each window that starts inside the text ends after its start, and when
    it does not reach the end of the text the next start is [end - overlap],
    is not negative and is greater than the previous start; when it does,
    the next start is the length of the text and the loop stops. *)
Theorem create_chunks_progress (txt url : str) (chunk_size overlap : Z) :
  progress_config chunk_size overlap ->
  (forall fuel, (List.length txt <= fuel)%nat ->
     exists l, _create_chunks fuel txt url chunk_size overlap = Returned l)
  /\ (forall st, 0 <= start st < len txt ->
        exists e st',
          window_end txt chunk_size (start st) = Returned e
          /\ body txt url chunk_size overlap st = Returned st'
          /\ start st < e <= len txt
          /\ (e < len txt ->
              start st' = e - overlap /\ 0 <= start st' /\ start st < start st')
          /\ (e = len txt -> start st' = len txt)).
Proof.
  intros Hcfg. split.
  - intros fuel Hfuel. unfold _create_chunks.
    apply loop_terminates; [exact Hcfg | simpl; lia | unfold len; simpl; lia].
  - intros st Hst.
    destruct (window_end_spec txt chunk_size (start st)) as [e [He [Hb Hr]]];
      [lia | unfold progress_config in Hcfg; lia |].
    destruct (body_returns txt url chunk_size overlap st e He) as [st' Hst'].
    destruct (body_spec _ _ _ _ _ _ Hst') as [e' [He' [_ [Hs _]]]].
    assert (e' = e) by congruence. subst e'.
    destruct (next_start_progress txt chunk_size overlap (start st) e Hcfg Hb Hr)
      as [Hp Hq].
    exists e, st'.
    split; [exact He|]. split; [exact Hst'|]. split; [exact Hb|]. split.
    + intros Hlt. rewrite <- Hs in Hp.
      assert (start st' = e - overlap).
      { rewrite Hs. unfold next_start.
        apply Z.ltb_lt in Hlt. rewrite Hlt. reflexivity. }
      lia.
    + intros ->. rewrite Hs. unfold next_start. rewrite Z.ltb_irrefl. reflexivity.
Qed.

(** C8: with [size = 3] and [overlap = 2] the sentence boundary after
    ["a."] pulls [end] back to 2, the next start is 0 again, and the loop
    never returns. *)
Lemma create_chunks_progress_fails :
  2 < 3
  /\ (forall fuel, _create_chunks fuel (lit "a.bcdefg") (lit "u") 3 2 = OutOfFuel)
  /\ (exists st', body (lit "a.bcdefg") (lit "u") 3 2 initial = Returned st'
                  /\ start st' = start initial).
Proof.
  split; [lia|]. split.
  - intros fuel. unfold _create_chunks.
    apply (loop_stuck (lit "a.bcdefg") (lit "u") 3 2 0 2); reflexivity.
  - eexists. split; [vm_compute; reflexivity | reflexivity].
Qed.

(** C4 (amended): the chunk operation checks nothing about the
    configuration; with [size <= overlap] it enters the loop as with any
    other, and for a text no longer than [size] it returns after one pass,
    with the one chunk that spans the text (none when the text is blank). *)
Theorem create_chunks_runs_without_check
        (txt url : str) (chunk_size overlap : Z) (fuel : nat) :
  chunk_size <= overlap -> len txt <= chunk_size -> (1 <= fuel)%nat ->
  _create_chunks fuel txt url chunk_size overlap
  = Returned (emitted txt url initial (len txt)).
Proof.
  intros _ Hlen Hfuel. unfold _create_chunks.
  destruct fuel as [|n]; [lia|]. rewrite loop_S.
  destruct (start initial <? len txt) eqn:E.
  - assert (Hw : window_end txt chunk_size (start initial) = Returned (len txt)).
    { unfold window_end. simpl. rewrite Z.min_r by lia.
      rewrite Z.ltb_irrefl. reflexivity. }
    unfold body. rewrite Hw. unfold emitted, next_start.
    rewrite Z.ltb_irrefl.
    destruct (strip (slice txt (start initial) (len txt))).
    + destruct n; simpl; rewrite Z.ltb_irrefl; reflexivity.
    + destruct n; simpl; rewrite Z.ltb_irrefl; reflexivity.
  - simpl in E. apply Z.ltb_ge in E. pose proof (len_nonneg txt).
    destruct txt; [reflexivity | unfold len in E; simpl in E; lia].
Qed.

(** C4: with [size = overlap = 5] the text ["ab"] is chunked and returned;
    nothing is rejected. *)
Lemma create_chunks_accepts_bad_config :
  5 <= 5
  /\ _create_chunks 1 (lit "ab") (lit "u") 5 5
     = Returned [ {| id := lit "3f1bcc0da2ee0a30"; text := lit "ab";
                     start_char := 0; end_char := 2; dom_selector := None |} ].
Proof. split; [lia | vm_compute; reflexivity]. Qed.

Lemma create_chunks_progress_witness :
  progress_config default_chunk_size default_overlap
  /\ (exists l, _create_chunks 8 (lit "One. Two") (lit "u")
                               default_chunk_size default_overlap = Returned l)
  /\ exists e st',
       window_end (lit "a.bcdefg") 3 (start initial) = Returned e
       /\ body (lit "a.bcdefg") (lit "u") 3 1 initial = Returned st'
       /\ e < len (lit "a.bcdefg")
       /\ start st' = e - 1 /\ start initial < start st'.
Proof.
  pose proof default_progress_config as Hd.
  assert (Hc : progress_config 3 1) by (unfold progress_config; lia).
  split; [exact Hd|]. split.
  - destruct (create_chunks_progress (lit "One. Two") (lit "u") _ _ Hd) as [Ht _].
    apply (Ht 8%nat). simpl. lia.
  - destruct (create_chunks_progress (lit "a.bcdefg") (lit "u") 3 1 Hc) as [_ Hs].
    destruct (Hs initial) as [e [st' [He [Hb [Hr [Hlt _]]]]]];
      [unfold len; simpl; lia|].
    exists e, st'. split; [exact He|]. split; [exact Hb|].
    assert (He2 : e = 2) by (vm_compute in He; congruence).
    assert (Hlen : e < len (lit "a.bcdefg")) by (rewrite He2; reflexivity).
    destruct (Hlt Hlen) as [H1 [_ H3]].
    split; [exact Hlen|]. split; [exact H1 | exact H3].
Defined.

Lemma create_chunks_runs_without_check_witness :
  5 <= 7 /\ len (lit " ab ") <= 5 /\ (1 <= 1)%nat
  /\ _create_chunks 1 (lit " ab ") (lit "u") 5 7
     = Returned [ {| id := lit "3f1bcc0da2ee0a30"; text := lit "ab";
                     start_char := 0; end_char := 4; dom_selector := None |} ].
Proof.
  assert (H1 : 5 <= 7) by lia.
  assert (H2 : len (lit " ab ") <= 5) by (unfold len; simpl; lia).
  assert (H3 : (1 <= 1)%nat) by lia.
  split; [exact H1|]. split; [exact H2|]. split; [exact H3|].
  rewrite (create_chunks_runs_without_check (lit " ab ") (lit "u") 5 7 1 H1 H2 H3).
  vm_compute. reflexivity.
Defined.

End ChunkProgress.

(** ** Coverage of the text by the emitted spans *)

Module ChunkCoverage.
Import Chunker ChunkerFacts LoopFacts ChunkInvariants.

Section Coverage.
Variables (txt url : str) (chunk_size overlap : Z).

Lemma windows_S (fuel : nat) (s : Z) :
  windows (S fuel) txt chunk_size overlap s =
  if s <? len txt then
    match window_end txt chunk_size s with
    | Returned e => (s, e) :: windows fuel txt chunk_size overlap (next_start txt overlap e)
    | _ => []
    end
  else [].
Proof. reflexivity. Qed.

Lemma windows_O (s : Z) : windows O txt chunk_size overlap s = [].
Proof. simpl. destruct (s <? len txt); reflexivity. Qed.

(** The spans of the returned chunks are the windows that were not
    skipped, after those of the chunks already emitted. *)
Lemma loop_spans (fuel : nat) :
  forall st l,
    loop fuel txt url chunk_size overlap st = Returned l ->
    map span l =
    map span (chunks st)
    ++ filter (fun w => negb (skipped txt w))
              (windows fuel txt chunk_size overlap (start st)).
Proof.
  induction fuel as [|n IH]; intros st l.
  - rewrite loop_O, windows_O.
    destruct (start st <? len txt); [discriminate|].
    intros H. injection H as <-. simpl. rewrite app_nil_r. reflexivity.
  - rewrite loop_S, windows_S. destruct (start st <? len txt).
    + destruct (body txt url chunk_size overlap st) as [st'| |] eqn:Hb;
        try discriminate.
      destruct (body_spec _ _ _ _ _ _ Hb) as [e [He [Hch [Hs _]]]].
      intros H. rewrite (IH _ _ H), He, Hch, Hs, map_app, <- app_assoc.
      f_equal. simpl. unfold skipped, emitted. simpl.
      destruct (strip (slice txt (start st) e)); reflexivity.
    + intros H. injection H as <-. simpl. rewrite app_nil_r. reflexivity.
Qed.

Hypothesis Hov : 0 <= overlap.

(** In a run that returns, the windows reach from the first start to the
    end of the text. *)
Lemma windows_cover (fuel : nat) :
  forall st l p,
    loop fuel txt url chunk_size overlap st = Returned l ->
    start st <= p < len txt ->
    exists w, In w (windows fuel txt chunk_size overlap (start st))
              /\ fst w <= p < snd w.
Proof.
  induction fuel as [|n IH]; intros st l p.
  - rewrite loop_O. intros H Hp.
    replace (start st <? len txt) with true in H
      by (symmetry; apply Z.ltb_lt; lia).
    discriminate.
  - rewrite loop_S, windows_S. intros H Hp.
    replace (start st <? len txt) with true in *
      by (symmetry; apply Z.ltb_lt; lia).
    destruct (body txt url chunk_size overlap st) as [st'| |] eqn:Hb;
      try discriminate.
    destruct (body_spec _ _ _ _ _ _ Hb) as [e [He [_ [Hs _]]]].
    rewrite He. destruct (Z.lt_ge_cases p e) as [Hpe | Hpe].
    + exists (start st, e). split; [left; reflexivity | simpl; lia].
    + assert (Hn : next_start txt overlap e <= e)
        by (unfold next_start; destruct (e <? len txt); lia).
      destruct (IH st' l p H ltac:(lia)) as [w [Hw Hin]].
      exists w. rewrite <- Hs. split; [right; exact Hw | exact Hin].
Qed.

End Coverage.

(** C6: for every input text none of whose windows is skipped as empty
    after trimming, every character position of the text lies in the span
    [[start_char, end_char)] of at least one chunk of the returned sequence.
    This holds whenever [overlap >= 0]; and the call does return, within
    [len(text)] passes, in the configurations in which the loop moves
    forward (the defaults 1000 and 200 are one). *)
Theorem create_chunks_coverage (txt url : str) (chunk_size overlap : Z) :
  0 <= overlap ->
  (forall fuel l,
      _create_chunks fuel txt url chunk_size overlap = Returned l ->
      forallb (fun w => negb (skipped txt w))
              (windows fuel txt chunk_size overlap 0) = true ->
      forall p, 0 <= p < len txt -> exists c, In c l /\ covers c p)
  /\ (progress_config chunk_size overlap ->
      forall fuel, (List.length txt <= fuel)%nat ->
        exists l, _create_chunks fuel txt url chunk_size overlap = Returned l).
Proof.
  intros Hov. unfold _create_chunks. split.
  - intros fuel l Hl Hskip p Hp.
    destruct (windows_cover txt url chunk_size overlap Hov fuel initial l p Hl Hp)
      as [w [Hw Hin]].
    pose proof (loop_spans txt url chunk_size overlap fuel initial l Hl) as Hsp.
    simpl in Hsp, Hw.
    assert (Hf : In w (map span l)).
    { rewrite Hsp. apply filter_In. split; [exact Hw|].
      rewrite forallb_forall in Hskip. apply Hskip. exact Hw. }
    apply in_map_iff in Hf. destruct Hf as [c [Hc Hcl]].
    exists c. split; [exact Hcl|].
    unfold covers. unfold span in Hc. subst w. simpl in Hin. exact Hin.
  - intros Hcfg fuel Hfuel.
    apply loop_terminates; [exact Hcfg | simpl; lia | unfold len; simpl; lia].
Qed.

Lemma create_chunks_coverage_witness :
  let txt := lit "abcdefghij  klm. nop" in
  let l := [ {| id := lit "3f1bcc0da2ee0a30"; text := lit "abcdefgh";
                start_char := 0; end_char := 8; dom_selector := None |};
             {| id := lit "f7cb07bae139d0a6"; text := lit "ghij  kl";
                start_char := 6; end_char := 14; dom_selector := None |};
             {| id := lit "7a0c2c721703b09c"; text := lit "klm. nop";
                start_char := 12; end_char := 20; dom_selector := None |} ] in
  0 <= 2
  /\ _create_chunks 20 txt (lit "u") 8 2 = Returned l
  /\ forallb (fun w => negb (skipped txt w)) (windows 20 txt 8 2 0) = true
  /\ forall p, 0 <= p < len txt -> exists c, In c l /\ covers c p.
Proof.
  intros txt l.
  assert (Hov : 0 <= 2) by lia.
  assert (Hl : _create_chunks 20 txt (lit "u") 8 2 = Returned l)
    by (vm_compute; reflexivity).
  assert (Hw : forallb (fun w => negb (skipped txt w)) (windows 20 txt 8 2 0) = true)
    by (vm_compute; reflexivity).
  split; [exact Hov|]. split; [exact Hl|]. split; [exact Hw|].
  exact (proj1 (create_chunks_coverage txt (lit "u") 8 2 Hov) 20%nat l Hl Hw).
Defined.

End ChunkCoverage.

(** ** Context assembly *)

Module ContextFacts.
Import LLM.

Lemma total_chars_app (a b : list TextChunk) :
  total_chars (a ++ b) = total_chars a + total_chars b.
Proof. induction a as [|c a IH]; simpl; [reflexivity | rewrite IH; lia]. Qed.

(** The loop keeps a prefix of the chunks: the longest one in which every
    chunk still fits the budget when its turn comes. *)
Lemma collect_spec (max_chars : Z) (chunks : list TextChunk) :
  forall (done : list TextChunk),
  exists k,
    (k <= List.length chunks)%nat
    /\ collect chunks max_chars (total_chars done) (map text done)
       = map text (done ++ firstn k chunks)
    /\ (forall j, (j < k)%nat ->
          total_chars (done ++ firstn (S j) chunks) <= max_chars)
    /\ (forall c, nth_error chunks k = Some c ->
          total_chars (done ++ firstn k chunks) + len (text c) > max_chars).
Proof.
  induction chunks as [|c rest IH]; intros done.
  - exists O. simpl. rewrite app_nil_r. repeat split; try lia. discriminate.
  - simpl. destruct (total_chars done + len (text c) >? max_chars) eqn:E;
      rewrite Z.gtb_ltb in E; [apply Z.ltb_lt in E | apply Z.ltb_ge in E].
    + exists O. simpl. rewrite app_nil_r. repeat split; try lia.
      intros c' H. injection H as <-. lia.
    + destruct (IH (done ++ [c])) as [k [Hk [Hout [Hfit Hstop]]]].
      rewrite total_chars_app, map_app in Hout. simpl in Hout.
      rewrite Z.add_0_r in Hout.
      exists (S k). split; [simpl; lia|]. split.
      * rewrite Hout, <- app_assoc. reflexivity.
      * split.
        -- intros [|j] Hj.
           ++ rewrite total_chars_app. simpl. lia.
           ++ specialize (Hfit j ltac:(lia)).
              rewrite <- app_assoc in Hfit. exact Hfit.
        -- intros c' H. simpl in H. specialize (Hstop c' H).
           rewrite <- app_assoc in Hstop. exact Hstop.
Qed.

(** C3 (amended): for every ordered chunk list and budget [max_chars],
    the result is the texts of a prefix of the list, in input order, joined
    by a blank line; every chunk of the prefix is whole and keeps the running
    total of chunk characters within the budget, and the first chunk left
    out would push it over.  The first chunk is treated like the others: it
    is included exactly when it fits. *)
Theorem prepare_context_budget (chunks : list TextChunk) (max_chars : Z) :
  exists k,
    (k <= List.length chunks)%nat
    /\ _prepare_context chunks max_chars
       = join blank_line (map text (firstn k chunks))
    /\ (forall j, (j < k)%nat -> total_chars (firstn (S j) chunks) <= max_chars)
    /\ (forall c, nth_error chunks k = Some c ->
          total_chars (firstn k chunks) + len (text c) > max_chars)
    /\ (forall c rest, chunks = c :: rest ->
          (len (text c) <= max_chars <-> (0 < k)%nat)).
Proof.
  destruct (collect_spec max_chars chunks []) as [k [Hk [Hout [Hfit Hstop]]]].
  simpl in *. exists k. unfold _prepare_context.
  split; [exact Hk|]. split; [rewrite Hout; reflexivity|].
  split; [exact Hfit|]. split; [exact Hstop|].
  intros c rest ->. split.
  - intros Hle. destruct k as [|k]; [|lia].
    specialize (Hstop c eq_refl). simpl in Hstop. lia.
  - intros Hpos. specialize (Hfit O Hpos). simpl in Hfit. lia.
Qed.

(** C3: a single chunk of three characters under a budget of two: the list
    is not empty and the result is. *)
Lemma prepare_context_drops_first :
  let c := {| id := lit "3f1bcc0da2ee0a30"; text := lit "abc";
              start_char := 0; end_char := 3; dom_selector := None |} in
  [c] <> [] /\ len (text c) > 2 /\ _prepare_context [c] 2 = [].
Proof. simpl. repeat split; [discriminate]. Qed.

End ContextFacts.

(** ** The combined context of a comparison *)

Module CompareFacts.
Import LLM.

Lemma list_index_nth {A} (l : list A) (k : nat) :
  list_index l (Z.of_nat k) = nth_error l k.
Proof.
  unfold list_index. replace (0 <=? Z.of_nat k) with true
    by (symmetry; apply Z.leb_le; lia).
  rewrite Nat2Z.id. reflexivity.
Qed.

Lemma page_contexts_spec (page_chunks_list : list (list TextChunk)) :
  forall (i : nat) (page_urls : list str) (contexts : list str),
    (i + List.length page_chunks_list <= List.length page_urls)%nat ->
    page_contexts (Z.of_nat i) page_chunks_list page_urls contexts
    = Returned (contexts ++ sections i page_chunks_list (skipn i page_urls)).
Proof.
  induction page_chunks_list as [|chunks rest IH]; intros i urls contexts Hlen;
    simpl in *.
  - rewrite app_nil_r. reflexivity.
  - rewrite list_index_nth.
    destruct (nth_error urls i) as [url|] eqn:E.
    + replace (Z.of_nat i + 1) with (Z.of_nat (S i)) by lia.
      rewrite IH by lia. rewrite <- app_assoc. simpl.
      assert (Hs : skipn i urls = url :: skipn (S i) urls).
      { clear -E. revert urls E. induction i as [|i IHi]; intros [|u urls] E;
          try discriminate; simpl in *.
        - injection E as ->. reflexivity.
        - apply IHi. exact E. }
      rewrite Hs. reflexivity.
    + apply nth_error_None in E. lia.
Qed.

Lemma sections_nth (k : nat) :
  forall (i : nat) (page_chunks_list : list (list TextChunk)) (page_urls : list str)
         (chunks : list TextChunk) (url : str),
    nth_error page_chunks_list k = Some chunks ->
    nth_error page_urls k = Some url ->
    nth_error (sections i page_chunks_list page_urls) k
    = Some (page_section (Z.of_nat (i + k)) url
              (_prepare_context chunks default_max_chars)).
Proof.
  induction k as [|k IH]; intros i [|c pcl] [|u urls] chunks url Hc Hu;
    try discriminate; simpl in *.
  - injection Hc as ->. injection Hu as ->. rewrite Nat.add_0_r. reflexivity.
  - rewrite (IH (S i) pcl urls chunks url Hc Hu).
    replace (S i + k)%nat with (i + S k)%nat by lia. reflexivity.
Qed.

Lemma sections_length (page_chunks_list : list (list TextChunk)) :
  forall (i : nat) (page_urls : list str),
    (List.length page_chunks_list <= List.length page_urls)%nat ->
    List.length (sections i page_chunks_list page_urls)
    = List.length page_chunks_list.
Proof.
  induction page_chunks_list as [|c pcl IH]; intros i [|u urls] H; simpl in *;
    try lia.
  rewrite IH by lia. reflexivity.
Qed.

Lemma slice_prefix (s : str) (n : Z) :
  0 <= n -> slice s 0 n = firstn (Z.to_nat n) s /\ len (slice s 0 n) <= n.
Proof.
  intros Hn. pose proof (len_nonneg s) as Hs.
  assert (H0 : clamp (len s) 0 = 0).
  { unfold clamp. change (0 <? 0) with false. cbv iota. lia. }
  assert (H1 : clamp (len s) n = Z.min n (len s)).
  { unfold clamp. replace (n <? 0) with false by (symmetry; apply Z.ltb_ge; lia).
    reflexivity. }
  split.
  - unfold slice. rewrite H0, H1, Z.sub_0_r. change (Z.to_nat 0) with O.
    rewrite skipn_O.
    destruct (Z.le_ge_cases n (len s)).
    + rewrite Z.min_l by lia. reflexivity.
    + rewrite Z.min_r by lia. unfold len in *.
      rewrite !firstn_all2 by lia. reflexivity.
  - rewrite slice_len, H0, H1. lia.
Qed.

(** C9: in the combined context of a comparison the section at position
    [k] is ["Page k+1 (url):"], a newline, and at most 2000 characters: the
    first 2000 of what [_prepare_context] gives for that page alone.  The
    sections follow the request order and are joined by the separator. *)
Theorem compare_context_capped_and_labelled
        (page_chunks_list : list (list TextChunk)) (page_urls : list str) :
  (List.length page_chunks_list <= List.length page_urls)%nat ->
  exists contexts,
    combined_context page_chunks_list page_urls
    = Returned (join separator contexts)
    /\ List.length contexts = List.length page_chunks_list
    /\ forall k chunks url,
         nth_error page_chunks_list k = Some chunks ->
         nth_error page_urls k = Some url ->
         exists capped,
           nth_error contexts k
           = Some (lit "Page " ++ of_int (Z.of_nat k + 1) ++ lit " (" ++ url
                       ++ lit "):" ++ [Extractor.nl] ++ capped)
           /\ capped = firstn 2000 (_prepare_context chunks default_max_chars)
           /\ len capped <= 2000.
Proof.
  intros Hlen. exists (sections O page_chunks_list page_urls).
  unfold combined_context.
  change 0 with (Z.of_nat O).
  rewrite (page_contexts_spec page_chunks_list O page_urls [] Hlen). simpl.
  split; [reflexivity|]. split; [apply sections_length; exact Hlen|].
  intros k chunks url Hc Hu.
  exists (slice (_prepare_context chunks default_max_chars) 0 2000).
  rewrite (sections_nth k O _ _ chunks url Hc Hu). simpl.
  destruct (slice_prefix (_prepare_context chunks default_max_chars) 2000)
    as [Hs Hl]; [lia|].
  split; [reflexivity|]. split; [exact Hs | exact Hl].
Qed.

Lemma compare_context_capped_and_labelled_witness :
  let c1 := {| id := lit "3f1bcc0da2ee0a30"; text := repeat "a"%char 3000;
               start_char := 0; end_char := 3000; dom_selector := None |} in
  let c2 := {| id := lit "3f1bcc0da2ee0a30"; text := repeat "b"%char 3000;
               start_char := 0; end_char := 3000; dom_selector := None |} in
  let urls := [lit "https://a.example"; lit "https://b.example"] in
  (List.length [[c1]; [c2]] <= List.length urls)%nat
  /\ exists contexts,
       combined_context [[c1]; [c2]] urls = Returned (join separator contexts)
       /\ List.length contexts = 2%nat
       /\ forall k chunks url,
            nth_error [[c1]; [c2]] k = Some chunks ->
            nth_error urls k = Some url ->
            exists capped,
              nth_error contexts k
              = Some (lit "Page " ++ of_int (Z.of_nat k + 1) ++ lit " (" ++ url
                          ++ lit "):" ++ [Extractor.nl] ++ capped)
              /\ capped = firstn 2000 (_prepare_context chunks default_max_chars)
              /\ len capped <= 2000.
Proof.
  intros c1 c2 urls.
  assert (Hl : (List.length [[c1]; [c2]] <= List.length urls)%nat) by (simpl; lia).
  split; [exact Hl|].
  exact (compare_context_capped_and_labelled [[c1]; [c2]] urls Hl).
Defined.

Example multi_page_scenario :
  let c1 := {| id := lit "3f1bcc0da2ee0a30"; text := repeat "a"%char 3000;
               start_char := 0; end_char := 3000; dom_selector := None |} in
  let c2 := {| id := lit "3f1bcc0da2ee0a30"; text := repeat "b"%char 3000;
               start_char := 0; end_char := 3000; dom_selector := None |} in
  combined_context [[c1]; [c2]] [lit "https://a.example"; lit "https://b.example"]
  = Returned (lit "Page 1 (https://a.example):" ++ [Extractor.nl]
                  ++ repeat "a"%char 2000 ++ separator
                  ++ lit "Page 2 (https://b.example):" ++ [Extractor.nl]
                  ++ repeat "b"%char 2000).
Proof. vm_compute. reflexivity. Qed.

End CompareFacts.

(** ** The sensitive-input detector *)

Module DetectorFacts.
Import Detector.

Lemma list_of_set_In (fields : list str) (x : str) :
  In x (list_of_set fields) <-> In x fields.
Proof. unfold list_of_set. apply nodup_In. Qed.

Lemma find_all_attr_In (soup : list node) (name key value : str) (n : node) :
  In n (find_all_attr soup name key value) <->
  In n (find_all soup name) /\ get n key = Some value.
Proof.
  unfold find_all_attr. rewrite filter_In. split; intros [H1 H2]; split; auto.
  - destruct (get n key) as [v|]; [|discriminate].
    unfold PyStr.eqb in H2. destruct (list_eq_dec ascii_dec v value); congruence.
  - rewrite H2. unfold PyStr.eqb.
    destruct (list_eq_dec ascii_dec value value); congruence.
Qed.

Section Parser.
Variable parse : str -> list node.

Lemma detect_password (html : str) :
  In (lit "password") (detect_sensitive_inputs parse html) <->
  exists t, In t (inputs parse html) /\ get t (lit "type") = Some (lit "password").
Proof.
  unfold detect_sensitive_inputs, inputs.
  rewrite list_of_set_In, in_app_iff. split.
  - intros [H | H].
    + apply in_map_iff in H. destruct H as [t [_ Ht]].
      apply find_all_attr_In in Ht. exists t. exact Ht.
    + apply in_flat_map in H. destruct H as [t [_ Ht]].
      destruct (card_like t); [|destruct Ht].
      destruct Ht as [Ht | []]. discriminate.
  - intros [t Ht]. left. apply in_map_iff. exists t. split; [reflexivity|].
    apply find_all_attr_In. exact Ht.
Qed.

Lemma detect_credit_card (html : str) :
  In (lit "credit_card") (detect_sensitive_inputs parse html) <->
  exists t, In t (inputs parse html) /\ card_like t = true.
Proof.
  unfold detect_sensitive_inputs, inputs.
  rewrite list_of_set_In, in_app_iff. split.
  - intros [H | H].
    + apply in_map_iff in H. destruct H as [t [Ht _]]. discriminate.
    + apply in_flat_map in H. destruct H as [t [Hin Ht]].
      exists t. split; [exact Hin|].
      destruct (card_like t); [reflexivity | destruct Ht].
  - intros [t [Hin Ht]]. right. apply in_flat_map. exists t.
    split; [exact Hin|]. rewrite Ht. left. reflexivity.
Qed.

Lemma detect_only_kinds (html : str) (x : str) :
  In x (detect_sensitive_inputs parse html) ->
  x = lit "password" \/ x = lit "credit_card".
Proof.
  unfold detect_sensitive_inputs. rewrite list_of_set_In, in_app_iff.
  intros [H | H].
  - apply in_map_iff in H. destruct H as [t [Ht _]]. left. auto.
  - apply in_flat_map in H. destruct H as [t [_ Ht]].
    destruct (card_like t); [|destruct Ht].
    destruct Ht as [Ht | []]. right. auto.
Qed.

(** C2: for every HTML string, an [input] element whose [type] attribute
    is the string [password] puts ['password'] in the result; an [input]
    element whose lower-cased [name], a space and [id] contain one of
    [card], [cvv], [ccv], [credit] puts ['credit_card'] in it; and when no
    [input] element is of either kind the result is empty. *)
Theorem detect_sensitive_inputs_spec (html : str) :
  ((exists t, In t (inputs parse html) /\ get t (lit "type") = Some (lit "password"))
   -> In (lit "password") (detect_sensitive_inputs parse html))
  /\ ((exists t, In t (inputs parse html)
                 /\ exists keyword,
                      In keyword keywords
                      /\ contains keyword
                           (lower (get_default t (lit "name") [] ++ lit " "
                                   ++ get_default t (lit "id") [])) = true)
      -> In (lit "credit_card") (detect_sensitive_inputs parse html))
  /\ ((forall t, In t (inputs parse html) ->
         get t (lit "type") <> Some (lit "password") /\ card_like t = false)
      -> detect_sensitive_inputs parse html = []).
Proof.
  split; [|split].
  - apply detect_password.
  - intros [t [Hin [kw [Hkw Hc]]]]. apply detect_credit_card.
    exists t. split; [exact Hin|].
    unfold card_like, field_name. apply existsb_exists. exists kw. auto.
  - intros Hnone.
    destruct (detect_sensitive_inputs parse html) as [|x l] eqn:E; [reflexivity|].
    exfalso.
    assert (Hx : In x (detect_sensitive_inputs parse html))
      by (rewrite E; left; reflexivity).
    destruct (detect_only_kinds html x Hx) as [-> | ->].
    + apply detect_password in Hx. destruct Hx as [t [Hin Ht]].
      destruct (Hnone t Hin) as [Hp _]. contradiction.
    + apply detect_credit_card in Hx. destruct Hx as [t [Hin Ht]].
      destruct (Hnone t Hin) as [_ Hc]. congruence.
Qed.

End Parser.

Example sensitive_rejection_scenario :
  detect_sensitive_inputs
    (fun _ => [ Tag (lit "html") []
                  [ Tag (lit "body") []
                      [ Tag (lit "input")
                            [ (lit "type", lit "password"); (lit "name", lit "pwd") ]
                            [] ] ] ])
    (lit "<input type=password name=pwd>")
  = [ lit "password" ].
Proof. vm_compute. reflexivity. Qed.

Example card_field_scenario :
  detect_sensitive_inputs
    (fun _ => [ Tag (lit "form") []
                  [ Tag (lit "input") [ (lit "id", lit "CardNumber") ] [];
                    Tag (lit "input") [ (lit "type", lit "PASSWORD") ] [] ] ])
    (lit "<form><input id=CardNumber><input type=PASSWORD></form>")
  = [ lit "credit_card" ].
Proof. vm_compute. reflexivity. Qed.

End DetectorFacts.

(** ** Facts about matching and substitution *)

Module ReFacts.
Import Re.

Lemma prefixb_spec (p s : str) :
  prefixb p s = true <-> exists b, s = p ++ b.
Proof.
  revert s. induction p as [|a p IH]; intros s; simpl.
  - split; [intros _; exists s; reflexivity | reflexivity].
  - destruct s as [|c s].
    + split; [discriminate | intros [b H]; discriminate].
    + rewrite andb_true_iff, IH. split.
      * intros [Ha [b Hb]]. apply Ascii.eqb_eq in Ha. subst. exists b. reflexivity.
      * intros [b H]. injection H as -> ->. split; [apply Ascii.eqb_refl | eauto].
Qed.

Lemma contains_spec (p s : str) :
  contains p s = true <-> exists a b, s = a ++ p ++ b.
Proof.
  induction s as [|c s IH]; simpl.
  - rewrite orb_false_r, prefixb_spec. split.
    + intros [b H]. exists [], b. exact H.
    + intros [a [b H]]. destruct a; [exists b; exact H | discriminate].
  - rewrite orb_true_iff, prefixb_spec, IH. split.
    + intros [[b H] | [a [b H]]].
      * exists [], b. exact H.
      * exists (c :: a), b. rewrite H. reflexivity.
    + intros [[|a0 a] [b H]].
      * left. exists b. exact H.
      * right. injection H as -> ->. exists a, b. reflexivity.
Qed.

Section Barrier.
(** [c] is a character that no set of the pattern holds, at the head of
    what follows [x]. *)
Variables (c : ascii) (y : str).

Lemma rep_stops (set : char_set) (k : option ascii -> str -> option nat) :
  set c = false ->
  (forall prev x n, k prev (x ++ c :: y) = Some n -> (n <= List.length x)%nat) ->
  forall x lo hi prev n,
    rep set k lo hi prev (x ++ c :: y) = Some n -> (n <= List.length x)%nat.
Proof.
  intros Hc Hk. induction x as [|d x IH]; intros lo hi prev n; simpl.
  - rewrite Hc. simpl. destruct lo; [|discriminate].
    intros H. apply (Hk prev [] n H).
  - destruct (set d && may_take hi).
    + destruct (rep set k (Nat.pred lo) (option_map Nat.pred hi) (Some d)
                    (x ++ c :: y)) as [m|] eqn:E.
      * intros H. injection H as <-. apply IH in E. lia.
      * destruct lo; [|discriminate]. intros H.
        apply (Hk prev (d :: x) n H).
    + destruct lo; [|discriminate]. intros H. apply (Hk prev (d :: x) n H).
Qed.

(** A match ends before the barrier. *)
Lemma match_stops (r : regex) :
  barrier r c = true ->
  forall prev x n,
    match_here r prev (x ++ c :: y) = Some n -> (n <= List.length x)%nat.
Proof.
  induction r as [|[|set lo hi] r IH]; simpl; intros Hb prev x n.
  - intros H. injection H as <-. lia.
  - destruct (at_boundary prev (x ++ c :: y)); [|discriminate]. apply IH, Hb.
  - apply andb_true_iff in Hb. destruct Hb as [Hc Hb].
    apply rep_stops; [apply negb_true_iff; exact Hc | apply IH, Hb].
Qed.

Variable y' : str.

Lemma at_boundary_local (prev : option ascii) (x : str) :
  at_boundary prev (x ++ c :: y) = at_boundary prev (x ++ c :: y').
Proof. destruct x; reflexivity. Qed.

Lemma rep_local (set : char_set) (k : option ascii -> str -> option nat) :
  set c = false ->
  (forall prev x, k prev (x ++ c :: y) = k prev (x ++ c :: y')) ->
  forall x lo hi prev,
    rep set k lo hi prev (x ++ c :: y) = rep set k lo hi prev (x ++ c :: y').
Proof.
  intros Hc Hk. induction x as [|d x IH]; intros lo hi prev; simpl.
  - rewrite Hc. simpl. destruct lo; [apply (Hk prev []) | reflexivity].
  - rewrite IH. pose proof (Hk prev (d :: x)) as E. simpl in E.
    destruct lo; [rewrite E|]; reflexivity.
Qed.

(** A match does not depend on what comes after the barrier. *)
Lemma match_local (r : regex) :
  barrier r c = true ->
  forall prev x,
    match_here r prev (x ++ c :: y) = match_here r prev (x ++ c :: y').
Proof.
  induction r as [|[|set lo hi] r IH]; simpl; intros Hb prev x.
  - reflexivity.
  - rewrite at_boundary_local, IH by exact Hb. reflexivity.
  - apply andb_true_iff in Hb. destruct Hb as [Hc Hb].
    apply rep_local; [apply negb_true_iff; exact Hc | apply IH, Hb].
Qed.

End Barrier.

Lemma rep_min_len (set : char_set) (k : option ascii -> str -> option nat) (m : nat) :
  (forall prev s n, k prev s = Some n -> (m <= n)%nat) ->
  forall s lo hi prev n,
    rep set k lo hi prev s = Some n -> (lo + m <= n)%nat.
Proof.
  intros Hk. induction s as [|d s IH]; intros lo hi prev n; simpl.
  - destruct lo; [|discriminate]. apply Hk.
  - destruct (set d && may_take hi).
    + destruct (rep set k (Nat.pred lo) (option_map Nat.pred hi) (Some d) s)
        as [j|] eqn:E.
      * intros H. injection H as <-. apply IH in E. lia.
      * destruct lo; [|discriminate]. apply Hk.
    + destruct lo; [|discriminate]. apply Hk.
Qed.

Lemma match_min_len (r : regex) :
  forall prev s n, match_here r prev s = Some n -> (min_len r <= n)%nat.
Proof.
  induction r as [|[|set lo hi] r IH]; simpl; intros prev s n.
  - intros H. injection H as <-. lia.
  - destruct (at_boundary prev s); [apply IH | discriminate].
  - apply rep_min_len. exact IH.
Qed.

Section Substitution.
Variables (r : regex) (repl : str).

(** A successful search leaves the replacement in the result. *)
Lemma sub_scan_emits (s : str) :
  forall prev pos found,
    search_from r prev pos s = Some found ->
    contains repl (sub_scan r repl prev O s) = true.
Proof.
  induction s as [|d s IH]; intros prev pos found; simpl.
  - destruct (match_here r prev []) as [[|n]|]; try discriminate;
      intros _; apply contains_spec; exists [], []; reflexivity.
  - destruct (match_here r prev (d :: s)) as [[|n]|].
    + intros _. apply contains_spec. eexists [], _. reflexivity.
    + intros _. apply contains_spec. eexists [], _. reflexivity.
    + intros H. apply IH in H. apply contains_spec in H.
      destruct H as [a [b H]]. apply contains_spec.
      exists (d :: a), b. rewrite H. reflexivity.
Qed.

Hypothesis Hne : (0 < min_len r)%nat.

Variables (c : ascii) (rest : str).
Hypothesis Hc : barrier r c = true.

Lemma no_match_at_barrier (prev : option ascii) :
  match_here r prev (c :: rest) = None.
Proof.
  destruct (match_here r prev (c :: rest)) as [n|] eqn:E; [|reflexivity].
  pose proof (match_min_len r prev _ n E).
  pose proof (match_stops c rest r Hc prev [] n E). simpl in *. lia.
Qed.

(** The scan passes over a barrier and starts afresh behind it. *)
Lemma sub_scan_barrier (a : str) :
  forall prev skip, (skip <= List.length a)%nat ->
    exists a', sub_scan r repl prev skip (a ++ c :: rest)
               = a' ++ c :: sub_scan r repl (Some c) O rest.
Proof.
  induction a as [|d a IH]; intros prev skip Hskip; simpl in Hskip.
  - assert (skip = O) by lia. subst skip. simpl.
    rewrite no_match_at_barrier. exists []. reflexivity.
  - destruct skip as [|skip]; simpl.
    + destruct (match_here r prev (d :: a ++ c :: rest)) as [[|n]|] eqn:E.
      * apply match_min_len in E. lia.
      * pose proof (match_stops c rest r Hc prev (d :: a) (S n) E) as Hn.
        simpl in Hn.
        destruct (IH (Some d) n ltac:(lia)) as [a' Ha'].
        exists (repl ++ a'). rewrite Ha', <- app_assoc. reflexivity.
      * destruct (IH (Some d) O ltac:(lia)) as [a' Ha'].
        exists (d :: a'). rewrite Ha'. reflexivity.
    + apply IH. lia.
Qed.

(** Nothing is replaced in a stretch where no match starts. *)
Lemma sub_scan_inside (inner : str) :
  forall prev,
    no_match_inside r prev inner c = true ->
    sub_scan r repl (Some prev) O (inner ++ c :: rest)
    = inner ++ c :: sub_scan r repl (Some c) O rest.
Proof.
  induction inner as [|d inner IH]; intros prev; simpl.
  - intros _. rewrite no_match_at_barrier. reflexivity.
  - pose proof (match_local c rest [] r Hc (Some prev) (d :: inner)) as E.
    simpl in E. rewrite E.
    destruct (match_here r (Some prev) (d :: inner ++ [c])); [discriminate|].
    intros H. rewrite (IH d H). reflexivity.
Qed.

End Substitution.

(** A bracketed marker that the pattern can neither run over nor match
    inside survives the substitution. *)
Lemma sub_keeps_marker (r : regex) (repl : str) (c0 c1 : ascii) (inner s : str) :
  (0 < min_len r)%nat ->
  barrier r c0 = true -> barrier r c1 = true ->
  no_match_inside r c0 inner c1 = true ->
  contains (c0 :: inner ++ [c1]) s = true ->
  contains (c0 :: inner ++ [c1]) (sub r repl s) = true.
Proof.
  intros Hne H0 H1 Hin Hs. apply contains_spec in Hs. destruct Hs as [a [b ->]].
  apply contains_spec. unfold sub. simpl. rewrite <- app_assoc. simpl.
  destruct (sub_scan_barrier r repl Hne c0 (inner ++ c1 :: b) H0 a None O
              ltac:(lia)) as [a' ->].
  rewrite (sub_scan_inside r repl Hne c1 b H1 inner c0 Hin).
  exists a', (sub_scan r repl (Some c1) O b).
  simpl. rewrite <- app_assoc. reflexivity.
Qed.

End ReFacts.

(** ** Cleaning and redaction *)

Module RedactionFacts.
Import Re ReFacts Extractor.

Lemma markers :
  map (fun item => marker (fst item)) sensitive_patterns
  = [ lit "[REDACTED_CREDIT_CARD]"; lit "[REDACTED_SSN]"; lit "[REDACTED_EMAIL]" ].
Proof. reflexivity. Qed.

Lemma redact_sensitive_steps (txt : str) :
  _redact_sensitive txt
  = sub email (lit "[REDACTED_EMAIL]")
      (sub ssn (lit "[REDACTED_SSN]")
         (sub credit_card (lit "[REDACTED_CREDIT_CARD]") txt)).
Proof. reflexivity. Qed.

(** The later patterns leave the earlier markers alone. *)
Lemma ssn_keeps_credit_card_marker (s : str) :
  contains (lit "[REDACTED_CREDIT_CARD]") s = true ->
  contains (lit "[REDACTED_CREDIT_CARD]") (sub ssn (lit "[REDACTED_SSN]") s) = true.
Proof.
  apply (sub_keeps_marker ssn _ "["%char "]"%char (lit "REDACTED_CREDIT_CARD"));
    vm_compute; (reflexivity || lia).
Qed.

Lemma email_keeps_credit_card_marker (s : str) :
  contains (lit "[REDACTED_CREDIT_CARD]") s = true ->
  contains (lit "[REDACTED_CREDIT_CARD]") (sub email (lit "[REDACTED_EMAIL]") s) = true.
Proof.
  apply (sub_keeps_marker email _ "["%char "]"%char (lit "REDACTED_CREDIT_CARD"));
    vm_compute; (reflexivity || lia).
Qed.

Lemma email_keeps_ssn_marker (s : str) :
  contains (lit "[REDACTED_SSN]") s = true ->
  contains (lit "[REDACTED_SSN]") (sub email (lit "[REDACTED_EMAIL]") s) = true.
Proof.
  apply (sub_keeps_marker email _ "["%char "]"%char (lit "REDACTED_SSN"));
    vm_compute; (reflexivity || lia).
Qed.

(** C1 (amended): for every input text, normalization cleans the
    whitespace first and then applies the substitutions in the order credit
    card, SSN, email, each replacing the matches its scan finds in the
    running text by [[REDACTED_CREDIT_CARD]], [[REDACTED_SSN]] or
    [[REDACTED_EMAIL]]; whenever a pattern finds a match in the running text
    it is applied to, the returned text contains the corresponding marker. *)
Theorem normalize_redacts (plain : str) :
  normalize plain
  = sub email (lit "[REDACTED_EMAIL]")
      (sub ssn (lit "[REDACTED_SSN]")
         (sub credit_card (lit "[REDACTED_CREDIT_CARD]") (_clean_text plain)))
  /\ forall k name pattern found,
       nth_error sensitive_patterns k = Some (name, pattern) ->
       search pattern (running k (_clean_text plain)) = Some found ->
       contains (marker name) (normalize plain) = true.
Proof.
  split; [reflexivity|].
  intros k name pattern found Hk Hfound. unfold normalize.
  rewrite redact_sensitive_steps.
  destruct k as [|[|[|k]]]; simpl in Hk; try (destruct k; discriminate);
    injection Hk as <- <-.
  - apply email_keeps_credit_card_marker, ssn_keeps_credit_card_marker.
    exact (sub_scan_emits credit_card _ _ None O found Hfound).
  - apply email_keeps_ssn_marker.
    exact (sub_scan_emits ssn _ _ None O found Hfound).
  - exact (sub_scan_emits email _ _ None O found Hfound).
Qed.

(** C1: the SSN matched at the start of the text is still in the result,
    where it follows a letter and the pattern finds no word boundary; and a
    text that the email pattern matches gets no email marker, because the
    credit-card substitution has taken its local part. *)
Lemma redaction_leaves_substring :
  (matched ssn (lit "123-45-6789 x123-45-6789") (lit "123-45-6789")
   /\ normalize (lit "123-45-6789 x123-45-6789") = lit "[REDACTED_SSN] x123-45-6789"
   /\ contains (lit "123-45-6789") (normalize (lit "123-45-6789 x123-45-6789")) = true)
  /\ (matched email (lit "1234567890123456@b.com") (lit "1234567890123456@b.com")
      /\ normalize (lit "1234567890123456@b.com") = lit "[REDACTED_CREDIT_CARD]@b.com"
      /\ contains (lit "[REDACTED_EMAIL]") (normalize (lit "1234567890123456@b.com"))
         = false).
Proof.
  split; (split; [|split]); try (vm_compute; reflexivity).
  - exists 0%nat, 11%nat. split; vm_compute; reflexivity.
  - exists 0%nat, 22%nat. split; vm_compute; reflexivity.
Qed.

Example redaction_scenario :
  normalize (lit "Contact me at a@b.com") = lit "Contact me at [REDACTED_EMAIL]"
  /\ contains (lit "a@b.com") (normalize (lit "Contact me at a@b.com")) = false.
Proof. split; vm_compute; reflexivity. Qed.

End RedactionFacts.

(** ** More on the emitted chunks *)

Module ChunkShape.
Import Chunker ChunkerFacts LoopFacts ChunkInvariants.

(** [end] is at most one past the nominal end of the window. *)
Lemma window_end_upper (txt : str) (chunk_size s e : Z) :
  window_end txt chunk_size s = Returned e -> e <= s + chunk_size + 1.
Proof.
  unfold window_end.
  set (n := Z.min (s + chunk_size) (len txt)).
  destruct (n <? len txt).
  - destruct (boundary_search txt _ n) as [e0| |] eqn:Eb; try discriminate.
    + intros H. injection H as ->.
      destruct (boundary_search_found _ _ _ _ Eb) as [Hr _]. subst n. lia.
    + intros H. injection H as <-. subst n. lia.
  - intros H. injection H as <-. subst n. lia.
Qed.

(** An end short of the end of the text is the nominal one or follows a
    sentence terminator. *)
Lemma window_end_refined (txt : str) (chunk_size s e : Z) :
  window_end txt chunk_size s = Returned e -> e < len txt ->
  e = s + chunk_size
  \/ exists c, index txt (e - 1) = Some c /\ is_terminator c = true.
Proof.
  unfold window_end.
  set (n := Z.min (s + chunk_size) (len txt)).
  destruct (n <? len txt) eqn:En.
  - apply Z.ltb_lt in En.
    destruct (boundary_search txt _ n) as [e0| |] eqn:Eb; try discriminate.
    + intros H _. injection H as ->.
      destruct (boundary_search_found _ _ _ _ Eb) as [_ [Ht _]]. right. exact Ht.
    + intros H _. injection H as <-. left. subst n. lia.
  - intros H He. injection H as <-. apply Z.ltb_ge in En. lia.
Qed.

Lemma terminator_not_space (c : ascii) : is_terminator c = true -> isspace c = false.
Proof.
  unfold is_terminator. simpl. rewrite !orb_false_r, !andb_true_r.
  intros H. repeat (apply orb_true_iff in H; destruct H as [H | H]);
    try discriminate; apply Ascii.eqb_eq in H; subst c; reflexivity.
Qed.

Lemma lstrip_keeps_last (s : str) (c : ascii) :
  isspace c = false -> lstrip (s ++ [c]) = lstrip s ++ [c].
Proof.
  intros Hc. induction s as [|d s IH]; simpl.
  - rewrite Hc. reflexivity.
  - destruct (isspace d); [exact IH | reflexivity].
Qed.

(** A character that is not whitespace at the end of a string is still the
    last one after [strip]. *)
Lemma strip_keeps_last (s : str) (c : ascii) :
  isspace c = false -> strip (s ++ [c]) = lstrip s ++ [c].
Proof.
  intros Hc. unfold strip, rstrip. rewrite (lstrip_keeps_last s c Hc).
  rewrite rev_app_distr. simpl. rewrite Hc.
  change (rev (c :: rev (lstrip s))) with (rev (rev (lstrip s)) ++ [c]).
  rewrite rev_involutive. reflexivity.
Qed.

(** The last character of a slice that ends inside the string. *)
Lemma slice_last (s : str) (lo hi : Z) (c : ascii) :
  0 <= lo < hi -> hi <= len s -> index s (hi - 1) = Some c ->
  exists front, slice s lo hi = front ++ [c].
Proof.
  intros Hlo Hhi Hc. rewrite slice_nonneg by lia.
  unfold index in Hc.
  replace ((0 <=? hi - 1) && (hi - 1 <? len s)) with true in Hc
    by (symmetry; apply andb_true_iff; lia).
  assert (Hn : nth_error (skipn (Z.to_nat lo) s) (Z.to_nat (hi - lo) - 1) = Some c).
  { rewrite nth_error_skipn. rewrite <- Hc. f_equal. lia. }
  remember (skipn (Z.to_nat lo) s) as t. clear Heqt Hc.
  assert (Hk : exists k, Z.to_nat (hi - lo) = S k) by (exists (Z.to_nat (hi - lo) - 1)%nat; lia).
  destruct Hk as [k Hk]. rewrite Hk in *. simpl in Hn. rewrite Nat.sub_0_r in Hn.
  exists (firstn k t). clear -Hn. revert t Hn.
  induction k as [|k IH]; intros [|a t] Hn; try discriminate.
  - simpl in Hn. injection Hn as ->. destruct t; reflexivity.
  - simpl in Hn. change (firstn (S (S k)) (a :: t)) with (a :: firstn (S k) t).
    rewrite (IH t Hn). reflexivity.
Qed.

End ChunkShape.

Module ChunkBounds.
Import Chunker ChunkerFacts LoopFacts ChunkInvariants ChunkContents ChunkShape.

Section Bounds.
Variables (txt url : str) (chunk_size overlap : Z).

Lemma span_bound_step (st st' : loop_state) :
  Forall (fun c => end_char c - start_char c <= chunk_size + 1) (chunks st) ->
  start st < len txt ->
  body txt url chunk_size overlap st = Returned st' ->
  Forall (fun c => end_char c - start_char c <= chunk_size + 1) (chunks st').
Proof.
  intros Hall _ Hb.
  destruct (body_spec _ _ _ _ _ _ Hb) as [e [He [Hch _]]].
  rewrite Hch. apply Forall_app. split; [exact Hall|].
  destruct (emitted_cases txt url st e) as [E | [c [E [_ [_ [_ [Hcs Hce]]]]]]];
    rewrite E; constructor; [|constructor].
  pose proof (window_end_upper _ _ _ _ He). lia.
Qed.

End Bounds.

(** X1: the span of a chunk is at most [chunk_size + 1] long, and so is its
    text: the search for a sentence terminator starts at the nominal end
    itself and puts [end] one past it. *)
Theorem chunk_span_at_most_size_plus_one
        (txt url : str) (chunk_size overlap : Z) (fuel : nat)
        (l : list TextChunk) (c : TextChunk) :
  0 <= chunk_size ->
  _create_chunks fuel txt url chunk_size overlap = Returned l ->
  In c l ->
  end_char c - start_char c <= chunk_size + 1
  /\ len (text c) <= chunk_size + 1.
Proof.
  unfold _create_chunks. intros Hs H Hin.
  destruct (loop_invariant txt url chunk_size overlap
              (fun st => Forall (fun c => end_char c - start_char c <= chunk_size + 1)
                                (chunks st))
              (span_bound_step txt url chunk_size overlap)
              fuel initial l (Forall_nil _) H) as [st [Hall [<- _]]].
  destruct (loop_invariant txt url chunk_size overlap
              (fun st => Forall (text_inv txt) (chunks st))
              (fun st st' => text_inv_step txt url chunk_size overlap st st' Hs)
              fuel initial (chunks st) (Forall_nil _) H) as [st2 [Hall2 [E2 _]]].
  rewrite E2 in Hall2.
  rewrite Forall_forall in Hall, Hall2.
  pose proof (Hall c Hin) as Hb. destruct (Hall2 c Hin) as [Ht [Hne Hsign]].
  split; [exact Hb|].
  pose proof (strip_len (slice txt (start_char c) (end_char c))) as Hle.
  rewrite <- Ht in Hle.
  assert (0 < len (text c)).
  { unfold len. destruct (text c); [congruence | simpl; lia]. }
  pose proof (slice_len_le txt (start_char c) (end_char c) Hsign). lia.
Qed.

Lemma chunk_span_at_most_size_plus_one_witness :
  let c := {| id := lit "3f1bcc0da2ee0a30"; text := lit "abc.";
              start_char := 0; end_char := 4; dom_selector := None |} in
  0 <= 3
  /\ (exists l, _create_chunks 7 (lit "abc.def") (lit "u") 3 1 = Returned l /\ In c l)
  /\ end_char c - start_char c = 3 + 1
  /\ len (text c) <= 3 + 1.
Proof.
  intros c.
  assert (Hs : 0 <= 3) by lia.
  set (l := [ c;
              {| id := lit "f7cb07bae139d0a6"; text := lit ".de";
                 start_char := 3; end_char := 6; dom_selector := None |};
              {| id := lit "7a0c2c721703b09c"; text := lit "ef";
                 start_char := 5; end_char := 7; dom_selector := None |} ]).
  assert (Hl : _create_chunks 7 (lit "abc.def") (lit "u") 3 1 = Returned l)
    by (vm_compute; reflexivity).
  assert (Hin : In c l) by (left; reflexivity).
  split; [exact Hs|]. split; [exists l; split; assumption|].
  split; [reflexivity|].
  exact (proj2 (chunk_span_at_most_size_plus_one _ _ 3 1 7 l c Hs Hl Hin)).
Defined.

End ChunkBounds.

Module ChunkBoundaries.
Import Chunker ChunkShapes ChunkerFacts LoopFacts ChunkInvariants ChunkContents ChunkShape.

Section Boundary.
Variables (txt url : str) (chunk_size overlap : Z).
Hypothesis Hcfg : 0 <= overlap < chunk_size.

Lemma cut_step (st st' : loop_state) (fuel : nat) (l : list TextChunk) :
  0 <= start st /\ Forall (cut_at_sentence txt chunk_size) (chunks st) ->
  start st < len txt ->
  body txt url chunk_size overlap st = Returned st' ->
  loop fuel txt url chunk_size overlap st' = Returned l ->
  0 <= start st' /\ Forall (cut_at_sentence txt chunk_size) (chunks st').
Proof.
  intros [H0 Hall] Hlt Hb Hl.
  destruct (returning_pass_progress txt url chunk_size overlap Hcfg st st' fuel l
              (conj H0 Hlt) Hb Hl) as [e [He [Hb' [_ [Hp _]]]]].
  destruct (body_spec _ _ _ _ _ _ Hb) as [e' [He' [Hch _]]].
  assert (e' = e) by congruence. subst e'.
  split; [lia|]. rewrite Hch. apply Forall_app. split; [exact Hall|].
  destruct (emitted_cases txt url st e) as [E | [c [E [_ [Ht [_ [Hcs Hce]]]]]]];
    rewrite E; constructor; [|constructor].
  unfold cut_at_sentence. rewrite Hcs, Hce. intros Hend.
  destruct (window_end_refined _ _ _ _ He Hend) as [Hn | [t [Hi Hterm]]];
    [left; exact Hn|].
  right. destruct (slice_last txt (start st) e t) as [front Hf]; [lia | lia | exact Hi|].
  exists (lstrip front), t. split; [|exact Hterm].
  rewrite Ht, Hf. apply strip_keeps_last. apply terminator_not_space. exact Hterm.
Qed.

End Boundary.

(** X2: a chunk that stops before the end of the text either spans exactly
    [chunk_size] characters or ends with a sentence terminator. *)
Theorem chunk_ends_at_sentence_or_window
        (txt url : str) (chunk_size overlap : Z) (fuel : nat)
        (l : list TextChunk) (c : TextChunk) :
  0 <= overlap < chunk_size ->
  _create_chunks fuel txt url chunk_size overlap = Returned l ->
  In c l -> end_char c < len txt ->
  end_char c = start_char c + chunk_size
  \/ exists front t, text c = front ++ [t] /\ In t (lit ".!?").
Proof.
  unfold _create_chunks. intros Hcfg H Hin Hend.
  destruct (loop_invariant_returning txt url chunk_size overlap
              (fun st => 0 <= start st /\ Forall (cut_at_sentence txt chunk_size) (chunks st))
              (cut_step txt url chunk_size overlap Hcfg)
              fuel initial l (conj (Z.le_refl 0) (Forall_nil _)) H)
    as [st [[_ Hall] [<- _]]].
  rewrite Forall_forall in Hall.
  destruct (Hall c Hin Hend) as [Hn | [front [t [Ht Hterm]]]]; [left; exact Hn|].
  right. exists front, t. split; [exact Ht|].
  unfold is_terminator in Hterm. simpl in Hterm.
  rewrite !orb_false_r, !andb_true_r in Hterm.
  repeat (apply orb_true_iff in Hterm; destruct Hterm as [Hterm | Hterm]);
    try discriminate; apply Ascii.eqb_eq in Hterm; subst t; simpl; auto.
Qed.

Lemma chunk_ends_at_sentence_or_window_witness :
  let txt := lit "One. Two three four" in
  let c := {| id := lit "3f1bcc0da2ee0a30"; text := lit "One.";
              start_char := 0; end_char := 4; dom_selector := None |} in
  0 <= 1 < 8
  /\ (exists l, _create_chunks 19 txt (lit "u") 8 1 = Returned l /\ In c l)
  /\ end_char c < len txt
  /\ (end_char c = start_char c + 8
      \/ exists front t, text c = front ++ [t] /\ In t (lit ".!?")).
Proof.
  intros txt c.
  assert (Hc : 0 <= 1 < 8) by lia.
  set (l := [ c;
              {| id := lit "f7cb07bae139d0a6"; text := lit ". Two th";
                 start_char := 3; end_char := 11; dom_selector := None |};
              {| id := lit "7a0c2c721703b09c"; text := lit "hree fou";
                 start_char := 10; end_char := 18; dom_selector := None |};
              {| id := lit "79b0ddf00ba669ac"; text := lit "ur";
                 start_char := 17; end_char := 19; dom_selector := None |} ]).
  assert (Hl : _create_chunks 19 txt (lit "u") 8 1 = Returned l)
    by (vm_compute; reflexivity).
  assert (Hin : In c l) by (left; reflexivity).
  assert (He : end_char c < len txt) by reflexivity.
  split; [exact Hc|]. split; [exists l; split; assumption|]. split; [exact He|].
  exact (chunk_ends_at_sentence_or_window txt (lit "u") 8 1 19 l c Hc Hl Hin He).
Defined.

End ChunkBoundaries.

Module ChunkCounts.
Import Chunker ChunkShapes ChunkerFacts LoopFacts ChunkInvariants ChunkShape.

Lemma forallb_firstn {A} (f : A -> bool) (n : nat) (l : list A) :
  forallb f l = true -> forallb f (firstn n l) = true.
Proof.
  revert n. induction l as [|a l IH]; intros [|n] H; simpl in *; auto.
  apply andb_true_iff in H. destruct H as [Ha Hl]. rewrite Ha. simpl. auto.
Qed.

Lemma forallb_skipn {A} (f : A -> bool) (n : nat) (l : list A) :
  forallb f l = true -> forallb f (skipn n l) = true.
Proof.
  revert n. induction l as [|a l IH]; intros [|n] H; simpl in *; auto.
  apply andb_true_iff in H. destruct H as [_ Hl]. auto.
Qed.

Lemma lstrip_blank (s : str) : forallb isspace s = true -> lstrip s = [].
Proof.
  induction s as [|c s IH]; simpl; [reflexivity|].
  intros H. apply andb_true_iff in H. destruct H as [Hc Hs]. rewrite Hc. auto.
Qed.

(** Every slice of a blank text strips to nothing. *)
Lemma strip_slice_blank (s : str) (lo hi : Z) :
  forallb isspace s = true -> strip (slice s lo hi) = [].
Proof.
  intros H. unfold strip, slice.
  rewrite lstrip_blank; [reflexivity|].
  apply forallb_firstn, forallb_skipn, H.
Qed.

Section Counts.
Variables (txt url : str) (chunk_size overlap : Z).

Lemma blank_step (st st' : loop_state) :
  forallb isspace txt = true ->
  chunks st = [] -> start st < len txt ->
  body txt url chunk_size overlap st = Returned st' -> chunks st' = [].
Proof.
  intros Hblank Hnil _ Hb.
  destruct (body_spec _ _ _ _ _ _ Hb) as [e [_ [Hch _]]].
  rewrite Hch, Hnil. unfold emitted. rewrite strip_slice_blank by exact Hblank.
  reflexivity.
Qed.

Hypothesis Hcfg : progress_config chunk_size overlap.

Lemma stride_pos : 0 < stride chunk_size overlap.
Proof. unfold stride. unfold progress_config in Hcfg. lia. Qed.

Lemma stride_step (st st' : loop_state) :
  stride_inv txt chunk_size overlap st -> start st < len txt ->
  body txt url chunk_size overlap st = Returned st' ->
  stride_inv txt chunk_size overlap st'.
Proof.
  intros [H0 [Hnth Hlen]] Hlt Hb. specialize (Hlen Hlt).
  destruct (body_spec _ _ _ _ _ _ Hb) as [e [He [Hch [Hs _]]]].
  destruct (window_end_spec txt chunk_size (start st)) as [e' [He' [Hb' Hr]]];
    [lia | unfold progress_config in Hcfg; lia |].
  assert (e' = e) by congruence. subst e'.
  destruct (next_start_progress txt chunk_size overlap (start st) e Hcfg Hb' Hr)
    as [Hp Hq].
  rewrite <- Hs in Hp, Hq.
  assert (Hstride : start st' < len txt ->
                    start st + stride chunk_size overlap <= start st').
  { intros Hin. rewrite Hs in *. unfold next_start in *.
    destruct (e <? len txt) eqn:E; [|lia].
    apply Z.ltb_lt in E. specialize (Hr E). unfold stride. lia. }
  pose proof stride_pos as Hd.
  unfold stride_inv. rewrite Hch.
  destruct (emitted_cases txt url st e) as [E | [c [E [_ [_ [_ [Hcs Hce]]]]]]];
    rewrite E.
  - rewrite app_nil_r. split; [lia|]. split; [exact Hnth|].
    intros Hin. specialize (Hstride Hin). lia.
  - split; [lia|]. split.
    + intros j d Hj.
      destruct (Nat.lt_ge_cases j (List.length (chunks st))) as [Hjl | Hjl].
      * rewrite nth_error_app1 in Hj by exact Hjl. apply Hnth. exact Hj.
      * rewrite nth_error_app2 in Hj by exact Hjl.
        destruct (j - List.length (chunks st))%nat as [|k] eqn:Ek;
          [|destruct k; discriminate].
        simpl in Hj. injection Hj as <-.
        assert (j = List.length (chunks st)) by lia. subst j. lia.
    + intros Hin. specialize (Hstride Hin). rewrite length_app. simpl.
      rewrite Nat2Z.inj_add. simpl. lia.
Qed.

End Counts.

(** X3: a text of whitespace only gives no chunk. *)
Theorem blank_text_gives_no_chunk
        (txt url : str) (chunk_size overlap : Z) (fuel : nat) :
  progress_config chunk_size overlap ->
  forallb isspace txt = true ->
  (List.length txt <= fuel)%nat ->
  _create_chunks fuel txt url chunk_size overlap = Returned [].
Proof.
  intros Hcfg Hblank Hfuel. unfold _create_chunks.
  destruct (loop_terminates txt url chunk_size overlap Hcfg fuel initial)
    as [l Hl]; [simpl; lia | unfold len; simpl; lia |].
  rewrite Hl. f_equal.
  destruct (loop_invariant txt url chunk_size overlap
              (fun st => chunks st = [])
              (fun st st' => blank_step txt url chunk_size overlap st st' Hblank)
              fuel initial l eq_refl Hl) as [st [Hnil [<- _]]].
  exact Hnil.
Qed.

Lemma blank_text_gives_no_chunk_witness :
  progress_config default_chunk_size default_overlap
  /\ forallb isspace (repeat " "%char 1500 ++ [Extractor.nl]) = true
  /\ (List.length (repeat " "%char 1500 ++ [Extractor.nl]) <= 1501)%nat
  /\ _create_chunks 1501 (repeat " "%char 1500 ++ [Extractor.nl]) (lit "u")
                    default_chunk_size default_overlap = Returned [].
Proof.
  pose proof default_progress_config as Hc.
  assert (Hb : forallb isspace (repeat " "%char 1500 ++ [Extractor.nl]) = true)
    by (vm_compute; reflexivity).
  assert (Hl : (List.length (repeat " "%char 1500 ++ [Extractor.nl]) <= 1501)%nat)
    by (rewrite length_app, repeat_length; simpl; lia).
  split; [exact Hc|]. split; [exact Hb|]. split; [exact Hl|].
  exact (blank_text_gives_no_chunk _ (lit "u") _ _ 1501 Hc Hb Hl).
Defined.

(** X4: the starts of the chunks are at least a stride apart, where the
    stride is [min(size, max(size - 198, 2)) - overlap] (602 for the
    defaults); a text of [n] characters gives at most [(n - 1) / stride + 1]
    chunks. *)
Theorem chunk_count_bound
        (txt url : str) (chunk_size overlap : Z) (fuel : nat) (l : list TextChunk) :
  progress_config chunk_size overlap ->
  _create_chunks fuel txt url chunk_size overlap = Returned l ->
  (forall j c, nth_error l j = Some c ->
     Z.of_nat j * stride chunk_size overlap <= start_char c)
  /\ (l <> [] ->
      Z.of_nat (List.length l) <= (len txt - 1) / stride chunk_size overlap + 1).
Proof.
  unfold _create_chunks. intros Hcfg H.
  assert (Hinit : stride_inv txt chunk_size overlap initial).
  { split; [simpl; lia|]. split; [intros [|j] c Hj; discriminate | simpl; lia]. }
  destruct (loop_invariant txt url chunk_size overlap
              (stride_inv txt chunk_size overlap)
              (stride_step txt url chunk_size overlap Hcfg)
              fuel initial l Hinit H) as [st [[_ [Hnth _]] [<- _]]].
  pose proof (stride_pos chunk_size overlap Hcfg) as Hd.
  split.
  - intros j c Hj. apply Hnth in Hj. lia.
  - intros Hne.
    destruct (nth_error (chunks st) (List.length (chunks st) - 1)) as [c|] eqn:E.
    + apply Hnth in E.
      assert (Hlen : (0 < List.length (chunks st))%nat)
        by (destruct (chunks st); [congruence | simpl; lia]).
      assert (Hk : (Z.of_nat (List.length (chunks st)) - 1) * stride chunk_size overlap
                   <= len txt - 1).
      { rewrite Nat2Z.inj_sub in E by lia. simpl in E. lia. }
      assert (Z.of_nat (List.length (chunks st)) - 1
              <= (len txt - 1) / stride chunk_size overlap).
      { apply Z.div_le_lower_bound; [exact Hd | lia]. }
      lia.
    + apply nth_error_None in E.
      destruct (chunks st); [congruence | simpl in E; lia].
Qed.

Lemma chunk_count_bound_witness :
  progress_config default_chunk_size default_overlap
  /\ stride default_chunk_size default_overlap = 602
  /\ exists l,
       _create_chunks 3 (repeat "a"%char 2500) (lit "src")
                      default_chunk_size default_overlap = Returned l
       /\ Z.of_nat (List.length l) <= (len (repeat "a"%char 2500) - 1) / 602 + 1.
Proof.
  pose proof default_progress_config as Hc.
  split; [exact Hc|]. split; [reflexivity|].
  destruct (_create_chunks 3 (repeat "a"%char 2500) (lit "src")
                           default_chunk_size default_overlap) as [l| |] eqn:E;
    try (vm_compute in E; discriminate).
  exists l. split; [reflexivity|].
  destruct (chunk_count_bound _ _ _ _ 3 l Hc E) as [_ Hn].
  apply Hn. intros ->. vm_compute in E. discriminate.
Defined.

End ChunkCounts.

(** ** The alphabet of the identifiers *)

Module HexFacts.
Import Chunker ChunkShapes ChunkContents.

Lemma land_255 (x : Z) : 0 <= Z.land x 255 < 256.
Proof.
  change 255 with (Z.ones 8). rewrite Z.land_ones by lia.
  apply Z.mod_pos_bound. reflexivity.
Qed.

Lemma hex_digit_in (d : Z) : 0 <= d < 16 -> In (MD5.hex_digit d) hex_alphabet.
Proof.
  intros H.
  assert (Hd : d = 0 \/ d = 1 \/ d = 2 \/ d = 3 \/ d = 4 \/ d = 5 \/ d = 6 \/ d = 7
               \/ d = 8 \/ d = 9 \/ d = 10 \/ d = 11 \/ d = 12 \/ d = 13 \/ d = 14
               \/ d = 15) by lia.
  repeat (destruct Hd as [-> | Hd]; [vm_compute; tauto|]). subst d. vm_compute. tauto.
Qed.

Lemma hex_byte_in (b : Z) :
  0 <= b < 256 -> Forall (fun ch => In ch hex_alphabet) (MD5.hex_byte b).
Proof.
  intros Hb. unfold MD5.hex_byte.
  apply Forall_cons; [|apply Forall_cons; [|apply Forall_nil]].
  - apply hex_digit_in. rewrite Z.shiftr_div_pow2 by lia.
    change (2 ^ 4) with 16. split; [apply Z.div_pos; lia|].
    apply Z.div_lt_upper_bound; lia.
  - apply hex_digit_in. change 15 with (Z.ones 4). rewrite Z.land_ones by lia.
    apply Z.mod_pos_bound. reflexivity.
Qed.

Lemma le_bytes_range (w : Z) : Forall (fun b => 0 <= b < 256) (MD5.le_bytes w).
Proof.
  unfold MD5.le_bytes. apply Forall_forall. intros b Hb.
  apply in_map_iff in Hb. destruct Hb as [i [<- _]]. apply land_255.
Qed.

Lemma digest_range (msg : list Z) : Forall (fun b => 0 <= b < 256) (MD5.digest msg).
Proof.
  unfold MD5.digest. repeat (apply Forall_app; split); apply le_bytes_range.
Qed.

(** [hexdigest()] is 32 lowercase hexadecimal digits. *)
Lemma hexdigest_hex (msg : list Z) :
  List.length (MD5.hexdigest msg) = 32%nat
  /\ Forall (fun ch => In ch hex_alphabet) (MD5.hexdigest msg).
Proof.
  split; [apply hexdigest_length|].
  unfold MD5.hexdigest. pose proof (digest_range msg) as H.
  induction H as [|b l Hb Hl IH]; [constructor|].
  change (flat_map MD5.hex_byte (b :: l)) with (MD5.hex_byte b ++ flat_map MD5.hex_byte l).
  apply Forall_app. split; [apply hex_byte_in; exact Hb | exact IH].
Qed.

Lemma Forall_firstn {A} (P : A -> Prop) (n : nat) (l : list A) :
  Forall P l -> Forall P (firstn n l).
Proof.
  intros H. rewrite <- (firstn_skipn n l) in H. apply Forall_app in H. tauto.
Qed.

Lemma Forall_skipn {A} (P : A -> Prop) (n : nat) (l : list A) :
  Forall P l -> Forall P (skipn n l).
Proof.
  intros H. rewrite <- (firstn_skipn n l) in H. apply Forall_app in H. tauto.
Qed.

Lemma Forall_slice (P : ascii -> Prop) (s : str) (lo hi : Z) :
  Forall P s -> Forall P (slice s lo hi).
Proof. intros H. unfold slice. apply Forall_firstn, Forall_skipn, H. Qed.

(** X5: a chunk id is 16 lowercase hexadecimal digits, for every source id
    and index. *)
Theorem chunk_id_is_hex (url : str) (chunk_index : Z) :
  List.length (chunk_id url chunk_index) = 16%nat
  /\ Forall (fun ch => In ch (lit "0123456789abcdef")) (chunk_id url chunk_index).
Proof.
  split; [apply chunk_id_length|].
  unfold chunk_id. apply Forall_slice. apply hexdigest_hex.
Qed.

End HexFacts.

(** ** Sources and prompts *)

Module SourceFacts.
Import LLM Prompts ContextFacts CompareFacts.

Lemma list_slice_to {A} (l : list A) (n : Z) :
  0 <= n -> PyList.slice_to l n = firstn (Z.to_nat n) l.
Proof.
  intros Hn. unfold PyList.slice_to, PyList.slice.
  set (m := Z.of_nat (List.length l)).
  assert (H0 : clamp m 0 = 0).
  { unfold clamp. change (0 <? 0) with false. cbv iota. lia. }
  assert (H1 : clamp m n = Z.min n m).
  { unfold clamp. replace (n <? 0) with false by (symmetry; apply Z.ltb_ge; lia).
    reflexivity. }
  rewrite H0, H1, Z.sub_0_r. change (Z.to_nat 0) with O. rewrite skipn_O.
  destruct (Z.le_ge_cases n m).
  - rewrite Z.min_l by lia. reflexivity.
  - rewrite Z.min_r by lia. subst m. rewrite !firstn_all2 by lia. reflexivity.
Qed.


Lemma preview_spec (s : str) :
  len (preview s) <= 203
  /\ (len s <= 200 -> preview s = s)
  /\ (200 < len s -> preview s = firstn 200 s ++ lit "..." /\ len (preview s) = 203).
Proof.
  unfold preview. destruct (len s >? 200) eqn:E; rewrite Z.gtb_ltb in E.
  - apply Z.ltb_lt in E.
    destruct (slice_prefix s 200) as [Hs _]; [lia|].
    assert (Hl : len (PyStr.slice s 0 200 ++ ellipsis) = 203).
    { rewrite len_app, Hs. change (len ellipsis) with 3.
      unfold len in *. rewrite length_firstn, Nat.min_l by lia.
      rewrite Z2Nat.id by lia. reflexivity. }
    split; [lia|]. split; [lia|]. intros _. split; [|exact Hl].
    rewrite Hs. reflexivity.
  - apply Z.ltb_ge in E. split; [lia|]. split; [reflexivity | lia].
Qed.

(** X6: [_extract_sources] gives one source per chunk, in order, with the
    id and selector of the chunk; the text of a source is the text of the
    chunk when that has at most 200 characters, otherwise its first 200
    characters followed by ["..."], so it is never longer than 203. *)
Theorem extract_sources_previews (chunks : list TextChunk) :
  List.length (_extract_sources chunks) = List.length chunks
  /\ forall k chunk,
       nth_error chunks k = Some chunk ->
       exists source,
         nth_error (_extract_sources chunks) k = Some source
         /\ SourceReference.chunk_id source = id chunk
         /\ SourceReference.selector source = dom_selector chunk
         /\ len (SourceReference.text source) <= 203
         /\ (len (text chunk) <= 200 -> SourceReference.text source = text chunk)
         /\ (200 < len (text chunk) ->
             SourceReference.text source = firstn 200 (text chunk) ++ lit "...").
Proof.
  unfold _extract_sources. split; [apply length_map|].
  intros k chunk Hk. eexists. split.
  - rewrite nth_error_map, Hk. reflexivity.
  - simpl. destruct (preview_spec (text chunk)) as [H1 [H2 H3]].
    repeat split; try assumption. intros H. apply H3. exact H.
Qed.

(** X7: the sources of a summary or of an answer are those of the first
    three chunks, whatever part of the chunks the character budget let into
    the context: when the first chunk alone is over the budget the context
    is empty and the chunk is cited all the same. *)
Theorem sources_cited_regardless_of_context
        (chunks : list TextChunk) (max_chars : Z) :
  map SourceReference.chunk_id (_extract_relevant_sources chunks)
  = map id (firstn 3 chunks)
  /\ List.length (_extract_relevant_sources chunks)
     = Nat.min 3 (List.length chunks)
  /\ (forall c rest,
        chunks = c :: rest -> max_chars < len (text c) ->
        _prepare_context chunks max_chars = []
        /\ exists source others,
             _extract_relevant_sources chunks = source :: others
             /\ SourceReference.chunk_id source = id c).
Proof.
  unfold _extract_relevant_sources. rewrite list_slice_to by lia.
  change (Z.to_nat 3) with 3%nat.
  split; [|split].
  - unfold _extract_sources. rewrite map_map. reflexivity.
  - unfold _extract_sources. rewrite length_map. apply length_firstn.
  - intros c rest -> Hover. split.
    + unfold _prepare_context. cbn [collect].
      replace (0 + len (text c) >? max_chars) with true
        by (symmetry; apply Z.gtb_lt; lia).
      reflexivity.
    + cbn [firstn _extract_sources map]. eexists. eexists.
      split; [reflexivity|]. reflexivity.
Qed.

Lemma compare_sources_spec (page_chunks_list : list (list TextChunk)) :
  forall acc,
    fold_left (fun all_sources chunks =>
                 all_sources ++ _extract_sources (PyList.slice_to chunks 2))
              page_chunks_list acc
    = acc ++ flat_map (fun chunks => _extract_sources (firstn 2 chunks))
                      page_chunks_list.
Proof.
  induction page_chunks_list as [|chunks rest IH]; intros acc; simpl.
  - rewrite app_nil_r. reflexivity.
  - rewrite IH, list_slice_to by lia. rewrite <- app_assoc. reflexivity.
Qed.

(** X8: a comparison cites the first two chunks of every page, page after
    page: at most two sources for each page. *)
Theorem compare_sources_two_per_page (page_chunks_list : list (list TextChunk)) :
  map SourceReference.chunk_id (compare_sources page_chunks_list)
  = flat_map (fun chunks => map id (firstn 2 chunks)) page_chunks_list
  /\ (List.length (compare_sources page_chunks_list)
      <= 2 * List.length page_chunks_list)%nat.
Proof.
  unfold compare_sources. rewrite compare_sources_spec. rewrite app_nil_l.
  induction page_chunks_list as [|chunks rest [IH1 IH2]].
  - split; [reflexivity | simpl; lia].
  - cbn [flat_map]. rewrite map_app, length_app, IH1. split.
    + f_equal. unfold _extract_sources. rewrite map_map. reflexivity.
    + unfold _extract_sources at 1. rewrite length_map.
      pose proof (firstn_le_length 2 chunks).
      change (List.length (chunks :: rest)) with (S (List.length rest)). lia.
Qed.

End SourceFacts.

Module PromptFacts.
Import LLM Prompts ContextFacts SourceFacts.

Lemma join_len (sep : str) (parts : list str) :
  len (join sep parts)
  = fold_right (fun p acc => len p + acc) 0 parts
    + len sep * Z.max 0 (Z.of_nat (List.length parts) - 1).
Proof.
  induction parts as [|p rest IH].
  { cbn [join fold_right List.length].
    change (Z.max 0 (Z.of_nat 0 - 1)) with 0. rewrite Z.mul_0_r. reflexivity. }
  destruct rest as [|q rest].
  - change (join sep [p]) with p. cbn [fold_right List.length].
    change (Z.max 0 (Z.of_nat 1 - 1)) with 0. lia.
  - change (join sep (p :: q :: rest)) with (p ++ sep ++ join sep (q :: rest)).
    rewrite !len_app, IH.
    change (fold_right (fun p acc => len p + acc) 0 (p :: q :: rest))
      with (len p + fold_right (fun p acc => len p + acc) 0 (q :: rest)).
    change (List.length (p :: q :: rest)) with (S (List.length (q :: rest))).
    change (List.length (q :: rest)) with (S (List.length rest)).
    rewrite !Z.max_r by lia. rewrite !Nat2Z.inj_succ. ring.
Qed.

Lemma total_chars_map (chunks : list TextChunk) :
  fold_right (fun p acc => len p + acc) 0 (map text chunks) = total_chars chunks.
Proof. induction chunks as [|c l IH]; simpl; [reflexivity | rewrite IH; reflexivity]. Qed.

(** X9: the separators are not counted against the budget: the context is
    as long as the included chunk texts, which together fit the budget, plus
    two characters between each two of them. *)
Theorem prepare_context_length (chunks : list TextChunk) (max_chars : Z) :
  exists k,
    (k <= List.length chunks)%nat
    /\ len (_prepare_context chunks max_chars)
       = total_chars (firstn k chunks) + 2 * Z.max 0 (Z.of_nat k - 1)
    /\ (0 <= max_chars -> total_chars (firstn k chunks) <= max_chars)
    /\ (0 <= max_chars ->
        len (_prepare_context chunks max_chars)
        <= max_chars + 2 * Z.max 0 (Z.of_nat (List.length chunks) - 1)).
Proof.
  destruct (collect_spec max_chars chunks []) as [k [Hk [Hout [Hfit _]]]].
  simpl in Hout, Hfit.
  assert (Hlen : len (_prepare_context chunks max_chars)
                 = total_chars (firstn k chunks) + 2 * Z.max 0 (Z.of_nat k - 1)).
  { unfold _prepare_context. rewrite Hout, join_len, total_chars_map, length_map.
    rewrite length_firstn, Nat.min_l by exact Hk. reflexivity. }
  assert (Htot : 0 <= max_chars -> total_chars (firstn k chunks) <= max_chars).
  { intros HN. destruct k as [|k]; [simpl; lia|]. apply (Hfit k). lia. }
  exists k. split; [exact Hk|]. split; [exact Hlen|]. split; [exact Htot|].
  intros HN. specialize (Htot HN). lia.
Qed.

Example context_longer_than_budget :
  let c := {| id := lit "3f1bcc0da2ee0a30"; text := lit "a";
              start_char := 0; end_char := 1; dom_selector := None |} in
  len (_prepare_context [c; c; c; c] 3) = 7.
Proof. reflexivity. Qed.


End PromptFacts.

(** ** Text that redaction leaves alone *)

Module RedactionScope.
Import Re ReFacts Extractor.

Section Needs.
(** A set that a match has to take a character from. *)
Variable need : char_set.

Lemma rep_needs_cont (set : char_set) (k : option ascii -> str -> option nat) :
  (forall prev s, Forall (fun c => need c = false) s -> k prev s = None) ->
  forall s lo hi prev,
    Forall (fun c => need c = false) s -> rep set k lo hi prev s = None.
Proof.
  intros Hk. induction s as [|c s IH]; intros lo hi prev Hs; simpl.
  - destruct lo; [apply Hk; exact Hs | reflexivity].
  - inversion Hs; subst.
    rewrite IH by assumption.
    assert (Hstop : match lo with O => k prev (c :: s) | S _ => None end = None)
      by (destruct lo; [apply Hk; exact Hs | reflexivity]).
    rewrite Hstop. destruct (set c && may_take hi); reflexivity.
Qed.

Lemma rep_needs_here (k : option ascii -> str -> option nat) :
  forall s lo hi prev,
    Forall (fun c => need c = false) s -> rep need k (S lo) hi prev s = None.
Proof.
  intros [|c s] lo hi prev Hs; simpl; [reflexivity|].
  inversion Hs; subst. replace (need c) with false by (symmetry; assumption).
  reflexivity.
Qed.

(** A pattern that asks for a character of [need] matches nowhere in a text
    without one. *)
Lemma match_needs (r : regex) :
  (exists lo hi, In (Rep need (S lo) hi) r) ->
  forall prev s, Forall (fun c => need c = false) s -> match_here r prev s = None.
Proof.
  induction r as [|[|set lo hi] r IH]; intros [lo0 [hi0 Hin]] prev s Hs.
  - destruct Hin.
  - simpl. destruct Hin as [Hin | Hin]; [discriminate|].
    destruct (at_boundary prev s); [|reflexivity].
    apply IH; [eauto | exact Hs].
  - simpl. destruct Hin as [Hin | Hin].
    + injection Hin as -> -> ->. apply rep_needs_here. exact Hs.
    + apply rep_needs_cont; [|exact Hs]. intros p t Ht. apply IH; [eauto | exact Ht].
Qed.

Lemma sub_needs (r : regex) (repl : str) :
  (exists lo hi, In (Rep need (S lo) hi) r) ->
  forall s prev, Forall (fun c => need c = false) s -> sub_scan r repl prev O s = s.
Proof.
  intros Hr. induction s as [|c s IH]; intros prev Hs; simpl.
  - rewrite (match_needs r Hr prev [] Hs). reflexivity.
  - rewrite (match_needs r Hr prev (c :: s) Hs). inversion Hs; subst.
    rewrite IH by assumption. reflexivity.
Qed.

End Needs.

(** X11: redaction changes nothing in a text that has no digit and no [@]. *)
Theorem redaction_needs_digit_or_at (txt : str) :
  Forall (fun c => digit c = false /\ c <> "@"%char) txt ->
  _redact_sensitive txt = txt.
Proof.
  intros H.
  assert (Hd : Forall (fun c => digit c = false) txt)
    by (eapply Forall_impl; [|exact H]; cbv beta; tauto).
  assert (Ha : Forall (fun c => chr "@" c = false) txt).
  { eapply Forall_impl; [|exact H]. cbv beta. intros c [_ Hc].
    unfold chr. apply Ascii.eqb_neq. congruence. }
  rewrite RedactionFacts.redact_sensitive_steps. unfold sub.
  rewrite (sub_needs digit credit_card) by
    (try exact Hd; exists 3%nat, (Some 4%nat); simpl; auto).
  rewrite (sub_needs digit ssn) by
    (try exact Hd; exists 2%nat, (Some 3%nat); simpl; auto).
  rewrite (sub_needs (chr "@") email) by
    (try exact Ha; exists 0%nat, (Some 1%nat); simpl; auto).
  reflexivity.
Qed.

Lemma redaction_needs_digit_or_at_witness :
  Forall (fun c => digit c = false /\ c <> "@"%char) (lit "Call me. Or write!")
  /\ _redact_sensitive (lit "Call me. Or write!") = lit "Call me. Or write!".
Proof.
  assert (H : Forall (fun c => digit c = false /\ c <> "@"%char)
                     (lit "Call me. Or write!")).
  { apply Forall_forall. intros c Hc. simpl in Hc.
    repeat (destruct Hc as [<- | Hc]; [split; [reflexivity | discriminate]|]).
    destruct Hc. }
  split; [exact H|]. exact (redaction_needs_digit_or_at _ H).
Defined.

End RedactionScope.

(** ** What [_clean_text] returns *)

Module CleanFacts.
Import Re ReFacts Extractor CleanShapes.

Lemma lstrip_head (s : str) (c : ascii) (rest : str) :
  lstrip s = c :: rest -> isspace c = false.
Proof.
  induction s as [|d s IH]; simpl; [discriminate|].
  destruct (isspace d) eqn:E; [exact IH|].
  intros H. injection H as <- _. exact E.
Qed.

(** [strip] leaves no whitespace at either end. *)
Lemma strip_ends (s : str) (c : ascii) (rest : str) :
  strip s = c :: rest ->
  isspace c = false /\ isspace (last (c :: rest) c) = false.
Proof.
  intros H. split.
  - destruct (rstrip_split (lstrip s)) as [b [Hb _]].
    unfold strip in H. rewrite H in Hb.
    apply (lstrip_head s c (rest ++ b)). exact Hb.
  - unfold strip, rstrip in H.
    assert (Hr : lstrip (rev (lstrip s)) = rev (c :: rest))
      by (rewrite <- H, rev_involutive; reflexivity).
    destruct (rev (c :: rest)) as [|d t] eqn:E.
    + apply (f_equal (@List.length ascii)) in E. rewrite length_rev in E. discriminate.
    + apply lstrip_head in Hr.
      assert (Hl : c :: rest = rev t ++ [d]).
      { rewrite <- (rev_involutive (c :: rest)), E. reflexivity. }
      rewrite Hl, last_last. exact Hr.
Qed.

#[local] Opaque Ascii.eqb.

Lemma rep_spaces (s : str) (prev : option ascii) :
  rep (chr " ") (match_here []) 0 None prev s = Some (run s).
Proof.
  revert prev. induction s as [|c s IH]; intros prev; simpl; [reflexivity|].
  unfold chr, is_sp. destruct (Ascii.eqb " " c); simpl; [|reflexivity].
  fold (chr " "). rewrite IH. reflexivity.
Qed.

Lemma match_spaces (s : str) (prev : option ascii) :
  match_here spaces prev s = match run s with O => None | S n => Some (S n) end.
Proof.
  unfold spaces, plus. simpl match_here.
  destruct s as [|c s]; simpl; [reflexivity|].
  unfold chr, is_sp. destruct (Ascii.eqb " " c); simpl; [|reflexivity].
  fold (chr " "). rewrite rep_spaces. reflexivity.
Qed.

Lemma contains_cons (p : str) (c : ascii) (s : str) :
  contains p (c :: s) = prefixb p (c :: s) || contains p s.
Proof. reflexivity. Qed.

Lemma double_space_cons (c : ascii) (s : str) :
  contains (lit "  ") (c :: s) = (is_sp c && lead_space s) || contains (lit "  ") s.
Proof.
  rewrite contains_cons. f_equal. simpl. unfold is_sp, lead_space.
  destruct s as [|d s]; simpl; [rewrite andb_false_r; reflexivity|].
  unfold is_sp. rewrite andb_true_r. reflexivity.
Qed.

(** After a run of spaces has been replaced and passed over, the scan goes
    on without a space at the head of what it gives. *)
Lemma collapse_spaces (s : str) :
  forall prev skip,
    (skip <= run s)%nat ->
    contains (lit "  ") (sub_scan spaces (lit " ") prev skip s) = false
    /\ (((0 < skip)%nat /\ skip = run s) \/ lead_space s = false ->
        lead_space (sub_scan spaces (lit " ") prev skip s) = false).
Proof.
  induction s as [|c s IH]; intros prev skip Hskip.
  - simpl in Hskip. assert (skip = O) by lia. subst skip. simpl. auto.
  - destruct skip as [|skip].
    + cbn [sub_scan]. rewrite match_spaces. cbn [run].
      destruct (is_sp c) eqn:Ec.
      * destruct (IH (Some c) (run s) (Nat.le_refl _))
          as [Hno Hlead].
        assert (Hl : lead_space (sub_scan spaces (lit " ") (Some c) (run s) s) = false).
        { apply Hlead. destruct (run s) eqn:Er; [right | left; lia].
          destruct s as [|d s]; [reflexivity|]. simpl in Er. simpl.
          destruct (is_sp d); [discriminate | reflexivity]. }
        change (lit " " ++ sub_scan spaces (lit " ") (Some c) (run s) s)
          with (" "%char :: sub_scan spaces (lit " ") (Some c) (run s) s).
        rewrite double_space_cons, Hl, Hno, andb_false_r. split; [reflexivity|].
        intros [[H _] | H]; [lia|]. simpl in H. congruence.
      * destruct (IH (Some c) O (Nat.le_0_l _))
          as [Hno _].
        rewrite double_space_cons, Ec, Hno. split; [reflexivity|].
        intros _. simpl. exact Ec.
    + cbn [sub_scan]. cbn [run] in Hskip. destruct (is_sp c) eqn:Ec; [|lia].
      destruct (IH (Some c) skip ltac:(lia)) as [Hno Hlead].
      split; [exact Hno|].
      intros [[_ H] | H]; [|simpl in H; congruence].
      cbn [run] in H. rewrite Ec in H. injection H as H.
      apply Hlead. destruct skip as [|skip]; [right | left; split; [lia | exact H]].
      destruct s as [|d s]; [reflexivity|]. simpl in H. simpl.
      destruct (is_sp d); [discriminate | reflexivity].
Qed.

Lemma sub_spaces_no_double (s : str) :
  contains (lit "  ") (sub spaces (lit " ") s) = false.
Proof.
  unfold sub.
  exact (proj1 (collapse_spaces s None O (Nat.le_0_l _))).
Qed.

Lemma contains_middle (p a m b : str) :
  contains p (a ++ m ++ b) = false -> contains p m = false.
Proof.
  intros H. destruct (contains p m) eqn:E; [|reflexivity].
  apply contains_spec in E. destruct E as [x [y ->]].
  assert (contains p (a ++ (x ++ p ++ y) ++ b) = true).
  { apply contains_spec. exists (a ++ x), (y ++ b).
    rewrite <- !app_assoc. reflexivity. }
  congruence.
Qed.

(** X12: the text that [_clean_text] returns has no whitespace at either end
    and no two spaces in a row. *)
Theorem clean_text_trimmed_single_spaced (txt : str) :
  (forall c rest,
      _clean_text txt = c :: rest ->
      isspace c = false /\ isspace (last (c :: rest) c) = false)
  /\ contains (lit "  ") (_clean_text txt) = false.
Proof.
  unfold _clean_text. split.
  - intros c rest. apply strip_ends.
  - set (t := sub spaces (lit " ") (sub blank_lines [nl; nl] txt)).
    destruct (strip_split t) as [a [b [Ht _]]].
    apply (contains_middle _ a _ b). rewrite <- Ht. apply sub_spaces_no_double.
Qed.

#[local] Transparent Ascii.eqb.

End CleanFacts.

(** ** Blank lines in what [_clean_text] returns *)

Module BlankLineFacts.
Import Re ReFacts Extractor CleanShapes CleanFacts.

#[local] Opaque Ascii.eqb.

Lemma is_nl_eq (c : ascii) : is_nl c = true -> c = nl.
Proof. unfold is_nl. intros H. apply Ascii.eqb_eq in H. congruence. Qed.

Lemma is_nl_space (c : ascii) : is_nl c = true -> isspace c = true.
Proof. intros H. apply is_nl_eq in H. subst c. reflexivity. Qed.

Lemma is_sp_eq (c : ascii) : is_sp c = true -> c = " "%char.
Proof. unfold is_sp. intros H. apply Ascii.eqb_eq in H. congruence. Qed.

Lemma rep_done (set : char_set) (k : option ascii -> str -> option nat)
      (p : option ascii) (s : str) :
  rep set k 0 (Some O) p s = k p s.
Proof. destruct s; cbn [rep may_take]; rewrite ?andb_false_r; reflexivity. Qed.

Lemma rep_one (set : char_set) (k : option ascii -> str -> option nat)
      (p : option ascii) (c : ascii) (s : str) :
  rep set k 1 (Some 1%nat) p (c :: s)
  = if set c then option_map S (k (Some c) s) else None.
Proof.
  cbn [rep may_take Nat.pred option_map]. rewrite andb_true_r, rep_done.
  destruct (set c); [|reflexivity]. destruct (k (Some c) s); reflexivity.
Qed.

(** [\s*\n] takes the whitespace up to the last newline of the run. *)
Lemma star_nl_spec (t : str) :
  forall p,
    match rep space (match_here [one (chr nl)]) 0 None p t with
    | Some n =>
        run_has_nl t = true /\ run_has_nl (skipn n t) = false
        /\ (1 <= n <= List.length t)%nat
    | None => run_has_nl t = false
    end.
Proof.
  induction t as [|c t IH]; intros p; [reflexivity|].
  cbn [rep may_take Nat.pred option_map andb run_has_nl].
  rewrite andb_true_r. unfold space at 1.
  assert (Hk : match_here [one (chr nl)] p (c :: t)
               = if is_nl c then Some 1%nat else None).
  { unfold one. cbn [match_here]. rewrite rep_one. unfold chr, is_nl.
    destruct (Ascii.eqb nl c); reflexivity. }
  destruct (isspace c) eqn:Es.
  - specialize (IH (Some c)).
    destruct (rep space (match_here [one (chr nl)]) 0 None (Some c) t) as [n|].
    + destruct IH as [H1 [H2 H3]]. cbn [skipn List.length].
      destruct (is_nl c); repeat split; auto; lia.
    + rewrite Hk. destruct (is_nl c); cbn [skipn List.length]; [|exact IH].
      repeat split; auto; lia.
  - rewrite Hk. destruct (is_nl c) eqn:En; [|reflexivity].
    apply is_nl_space in En. congruence.
Qed.

Lemma match_blank_cons (c : ascii) (s : str) (prev : option ascii) :
  match_here blank_lines prev (c :: s)
  = if is_nl c
    then option_map S (rep space (match_here [one (chr nl)]) 0 None (Some c) s)
    else None.
Proof.
  unfold blank_lines, one at 1, star. cbn [match_here]. rewrite rep_one.
  reflexivity.
Qed.

Lemma match_blank (s : str) (prev : option ascii) :
  match match_here blank_lines prev s with
  | Some n =>
      exists c s' m, s = c :: s' /\ is_nl c = true /\ n = S m
                     /\ run_has_nl s' = true /\ run_has_nl (skipn m s') = false
                     /\ (1 <= m <= List.length s')%nat
  | None =>
      match s with
      | c :: s' => is_nl c = true -> run_has_nl s' = false
      | [] => True
      end
  end.
Proof.
  destruct s as [|c s']; [exact I|].
  rewrite match_blank_cons.
  destruct (is_nl c) eqn:En; [|intros H; discriminate H].
  pose proof (star_nl_spec s' (Some c)) as H.
  destruct (rep space (match_here [one (chr nl)]) 0 None (Some c) s') as [m|];
    cbn [option_map].
  - destruct H as [H1 [H2 H3]]. exists c, s', m. repeat split; auto; lia.
  - intros _. exact H.
Qed.

Lemma tidy_cons (g : gap) (c : ascii) (s : str) :
  tidy g (c :: s) = match step g c with Some g' => tidy g' s | None => false end.
Proof. reflexivity. Qed.

(** After the first substitution no newline is followed by whitespace and
    a newline, other than by the newline itself. *)
Lemma blank_lines_tidy (s : str) :
  forall prev skip g,
    (skip <= List.length s)%nat ->
    (g = Open /\ skip = O) \/ run_has_nl (skipn skip s) = false ->
    tidy g (sub_scan blank_lines [nl; nl] prev skip s) = true.
Proof.
  induction s as [|c s IH]; intros prev skip g Hskip Hg.
  - destruct skip; reflexivity.
  - destruct skip as [|k].
    + cbn [sub_scan]. pose proof (match_blank (c :: s) prev) as Hm.
      destruct (match_here blank_lines prev (c :: s)) as [n|].
      * destruct Hm as [c' [s' [m [E [En [-> [H1 [H2 H3]]]]]]]].
        injection E as <- <-.
        assert (g = Open) as ->.
        { destruct Hg as [[Hg _] | Hg]; [exact Hg|].
          cbn [skipn run_has_nl] in Hg. rewrite En in Hg. discriminate. }
        change ([nl; nl] ++ sub_scan blank_lines [nl; nl] (Some c) m s)
          with (nl :: nl :: sub_scan blank_lines [nl; nl] (Some c) m s).
        rewrite !tidy_cons. cbn. apply IH; [lia | right; exact H2].
      * rewrite tidy_cons. unfold step.
        destruct (is_nl c) eqn:En.
        -- assert (g = Open) as ->.
           { destruct Hg as [[Hg _] | Hg]; [exact Hg|].
             cbn [skipn run_has_nl] in Hg. rewrite En in Hg. discriminate. }
           apply IH; [cbn; lia | right; exact (Hm eq_refl)].
        -- destruct (isspace c) eqn:Es.
           ++ destruct Hg as [[-> _] | Hg].
              ** apply IH; [cbn; lia | left; auto].
              ** cbn [skipn run_has_nl] in Hg. rewrite En, Es in Hg.
                 destruct g; apply IH; cbn; try lia; right; exact Hg.
           ++ apply IH; [cbn; lia | left; auto].
    + cbn [sub_scan]. apply IH; [cbn in Hskip; lia|].
      destruct Hg as [[_ Hg] | Hg]; [discriminate | right; exact Hg].
Qed.

Lemma step_space (g : gap) (c : ascii) :
  is_sp c = true -> step g c = Some (after_space g).
Proof.
  intros H. apply is_sp_eq in H. subst c. destruct g; reflexivity.
Qed.

(** The second substitution keeps that. *)
Lemma spaces_tidy (s : str) :
  forall prev skip g,
    (skip <= run s)%nat ->
    ((0 < skip)%nat -> after_space g = g) ->
    tidy g s = true ->
    tidy g (sub_scan spaces (lit " ") prev skip s) = true.
Proof.
  induction s as [|c s IH]; intros prev skip g Hskip Hfix Ht.
  - destruct skip; reflexivity.
  - destruct skip as [|k].
    + cbn [sub_scan]. rewrite match_spaces. cbn [run]. cbn [run] in Hskip.
      rewrite tidy_cons in Ht.
      destruct (is_sp c) eqn:Ec.
      * change (lit " " ++ sub_scan spaces (lit " ") (Some c) (run s) s)
          with (" "%char :: sub_scan spaces (lit " ") (Some c) (run s) s).
        rewrite tidy_cons, (step_space g " " eq_refl).
        rewrite (step_space g c Ec) in Ht.
        apply IH; [lia | intros _; destruct g; reflexivity | exact Ht].
      * rewrite tidy_cons. destruct (step g c) as [g'|]; [|discriminate].
        apply IH; [lia | intros H; lia | exact Ht].
    + cbn [sub_scan]. cbn [run] in Hskip.
      destruct (is_sp c) eqn:Ec; [|lia].
      rewrite tidy_cons, (step_space g c Ec), (Hfix ltac:(lia)) in Ht.
      apply IH; [lia | intros _; apply Hfix; lia | exact Ht].
Qed.

Lemma tidy_closed_one (s : str) : tidy Closed s = true -> tidy OneNl s = true.
Proof.
  destruct s as [|c s]; [reflexivity|]. rewrite !tidy_cons. unfold step.
  destruct (is_nl c); [discriminate|]. destruct (isspace c); auto.
Qed.

Lemma tidy_one_open (s : str) : tidy OneNl s = true -> tidy Open s = true.
Proof.
  induction s as [|c s IH]; [reflexivity|]. rewrite !tidy_cons. unfold step.
  destruct (is_nl c); [apply tidy_closed_one|].
  destruct (isspace c); [|auto].
  intros H. apply IH, tidy_closed_one, H.
Qed.

Lemma tidy_open (g : gap) (s : str) : tidy g s = true -> tidy Open s = true.
Proof.
  destruct g; [auto | apply tidy_one_open |].
  intros H. apply tidy_one_open, tidy_closed_one, H.
Qed.

Lemma tidy_app (a b : str) :
  forall g, tidy g (a ++ b) = true -> tidy g a = true /\ tidy Open b = true.
Proof.
  induction a as [|c a IH]; intros g H.
  - split; [reflexivity | exact (tidy_open g b H)].
  - cbn [app] in H. rewrite tidy_cons in *.
    destruct (step g c) as [g'|]; [exact (IH g' H) | discriminate].
Qed.

Lemma closed_run (w b : str) :
  forallb isspace w = true -> tidy Closed (w ++ nl :: b) = false.
Proof.
  induction w as [|c w IH]; intros Hw.
  - reflexivity.
  - cbn [forallb] in Hw. apply andb_true_iff in Hw. destruct Hw as [Hc Hw].
    cbn [app]. rewrite tidy_cons. unfold step. rewrite Hc.
    destruct (is_nl c); [reflexivity | exact (IH Hw)].
Qed.

Lemma tidy_spec (s a w b : str) :
  tidy Open s = true -> s = a ++ nl :: w ++ nl :: b ->
  forallb isspace w = true -> w = [].
Proof.
  intros Ht -> Hw. apply tidy_app in Ht. destruct Ht as [_ Ht].
  destruct w as [|c w]; [reflexivity|]. exfalso.
  rewrite tidy_cons in Ht. change (step Open nl) with (Some OneNl) in Ht.
  cbn [forallb] in Hw. apply andb_true_iff in Hw. destruct Hw as [Hc Hw].
  cbn [app] in Ht. rewrite tidy_cons in Ht. unfold step in Ht. rewrite Hc in Ht.
  destruct (is_nl c); rewrite (closed_run w b Hw) in Ht; discriminate.
Qed.

(** X13: in the text that [_clean_text] returns, two newlines with nothing
    but whitespace between them are next to each other: no line holds
    whitespace only, and there are never three newlines in a row. *)
Theorem clean_text_blank_lines (txt a w b : str) :
  _clean_text txt = a ++ nl :: w ++ nl :: b ->
  forallb isspace w = true ->
  w = [].
Proof.
  intros E Hw. unfold _clean_text in E.
  set (t := sub spaces (lit " ") (sub blank_lines [nl; nl] txt)) in E.
  assert (Ht : tidy Open t = true).
  { unfold t, sub. apply spaces_tidy; [lia | lia |].
    apply blank_lines_tidy; [lia | left; auto]. }
  destruct (strip_split t) as [x [y [Hs _]]].
  rewrite Hs in Ht. apply tidy_app in Ht. destruct Ht as [_ Ht].
  apply tidy_app in Ht. destruct Ht as [Ht _].
  exact (tidy_spec _ a w b Ht E Hw).
Qed.

#[local] Transparent Ascii.eqb.

Lemma clean_text_blank_lines_witness :
  _clean_text (lit "x" ++ [nl] ++ lit "  " ++ [nl; nl] ++ lit "y")
  = lit "x" ++ nl :: [] ++ nl :: lit "y"
  /\ @nil ascii = [].
Proof.
  split; [reflexivity|].
  apply (clean_text_blank_lines
           (lit "x" ++ [nl] ++ lit "  " ++ [nl; nl] ++ lit "y") (lit "x") [] (lit "y"));
    reflexivity.
Defined.

End BlankLineFacts.

(** ** The password before hashing *)

Module SecurityFacts.
Import Security SourceFacts.

Lemma encode_char_cases (c : ascii) :
  (encode_char c = [code c] /\ code c < 128)
  \/ (exists lead cont, encode_char c = [lead; cont]
                        /\ 194 <= lead < 196 /\ is_continuation cont = true).
Proof.
  destruct c as [[] [] [] [] [] [] [] []];
    solve [ left; split; [reflexivity | vm_compute; reflexivity]
          | right; eexists _, _; split; [vm_compute; reflexivity|];
            split; [vm_compute; split; [discriminate | reflexivity] | reflexivity] ].
Qed.

(** Decoding gives back an encoded character. *)
Lemma decode_encode_char (c : ascii) (bytes : list Z) :
  decode_ignore (encode_char c ++ bytes) = option_map (cons c) (decode_ignore bytes).
Proof.
  destruct c as [[] [] [] [] [] [] [] []]; reflexivity.
Qed.

Lemma decode_encode (s : str) (bytes : list Z) :
  decode_ignore (encode s ++ bytes) = option_map (app s) (decode_ignore bytes).
Proof.
  induction s as [|c s IH]; simpl.
  - destruct (decode_ignore bytes); reflexivity.
  - unfold encode in *. rewrite <- app_assoc, decode_encode_char, IH.
    destruct (decode_ignore bytes); reflexivity.
Qed.

Lemma encode_app (a b : str) : encode (a ++ b) = encode a ++ encode b.
Proof. unfold encode. apply flat_map_app. Qed.

(** The first [n] bytes of an encoding are the encoding of the longest
    prefix that fits, and perhaps the first byte of the next character. *)
Lemma firstn_encode (s : str) :
  forall n,
    exists kept rest cut,
      s = kept ++ rest
      /\ firstn n (encode s) = encode kept ++ cut
      /\ (List.length (encode kept) <= n)%nat
      /\ decode_ignore cut = Some []
      /\ (forall c rest', rest = c :: rest' ->
            (n < List.length (encode kept) + List.length (encode_char c))%nat).
Proof.
  induction s as [|c s IH]; intros n.
  - exists [], [], []. simpl. rewrite firstn_nil. repeat split; try lia.
    intros c r H. discriminate.
  - destruct (encode_char_cases c) as [[Hc _] | [lead [cont [Hc [Hlead Hcont]]]]].
    + destruct n as [|n].
      * exists [], (c :: s), []. simpl. repeat split; try lia.
        intros c' r H. injection H as <- <-. rewrite Hc. simpl. lia.
      * destruct (IH n) as [kept [rest [cut [Hs [Hf [Hl [Hd Hmax]]]]]]].
        exists (c :: kept), rest, cut. subst s. split; [reflexivity|].
        change (encode (c :: kept ++ rest)) with (encode_char c ++ encode (kept ++ rest)).
        change (encode (c :: kept)) with (encode_char c ++ encode kept).
        rewrite Hc. simpl. rewrite Hf. split; [reflexivity|].
        split; [lia|]. split; [exact Hd|].
        intros c' r H. specialize (Hmax c' r H). lia.
    + change (encode (c :: s)) with (encode_char c ++ encode s). rewrite Hc.
      destruct n as [|[|n]].
      * exists [], (c :: s), []. simpl. repeat split; try lia.
        intros c' r H. injection H as <- <-. rewrite Hc. simpl. lia.
      * exists [], (c :: s), [lead]. simpl. split; [reflexivity|].
        split; [reflexivity|]. split; [lia|]. split.
        -- replace (lead <? 128) with false by (symmetry; apply Z.ltb_ge; lia).
           replace (lead <? 194) with false by (symmetry; apply Z.ltb_ge; lia).
           replace (lead <? 196) with true by (symmetry; apply Z.ltb_lt; lia).
           reflexivity.
        -- intros c' r H. injection H as <- <-. rewrite Hc. simpl. lia.
      * destruct (IH n) as [kept [rest [cut [Hs [Hf [Hl [Hd Hmax]]]]]]].
        exists (c :: kept), rest, cut. subst s. split; [reflexivity|].
        change (encode (c :: kept)) with (encode_char c ++ encode kept).
        rewrite Hc. simpl. rewrite Hf. split; [reflexivity|].
        split; [lia|]. split; [exact Hd|].
        intros c' r H. specialize (Hmax c' r H). lia.
Qed.

(** X14: the password that is hashed and verified is the longest prefix of
    the given one whose UTF-8 encoding has at most 72 bytes; a password of
    at most 72 bytes is taken whole. *)
Theorem password_truncated_to_72_bytes (password : str) :
  exists kept rest,
    truncate_password password = Some kept
    /\ password = kept ++ rest
    /\ (List.length (encode kept) <= 72)%nat
    /\ (forall c rest', rest = c :: rest' ->
          (72 < List.length (encode (kept ++ [c])))%nat)
    /\ ((List.length (encode password) <= 72)%nat -> kept = password).
Proof.
  unfold truncate_password. rewrite list_slice_to by lia.
  change (Z.to_nat 72) with 72%nat.
  destruct (firstn_encode password 72) as [kept [rest [cut [Hs [Hf [Hl [Hd Hmax]]]]]]].
  exists kept, rest. rewrite Hf, decode_encode, Hd. simpl. rewrite app_nil_r.
  split; [reflexivity|]. split; [exact Hs|]. split; [exact Hl|]. split.
  - intros c r H. specialize (Hmax c r H). rewrite encode_app, length_app.
    unfold encode at 2. simpl. rewrite app_nil_r. lia.
  - intros Hshort. destruct rest as [|c r]; [rewrite app_nil_r in Hs; auto|].
    specialize (Hmax c r eq_refl). subst password.
    rewrite encode_app, length_app in Hshort.
    change (encode (c :: r)) with (encode_char c ++ encode r) in Hshort.
    rewrite length_app in Hshort. lia.
Qed.

Section Bcrypt.
Variable verify : str -> str -> bool.

(** X15: what follows the first 72 bytes of a password plays no part in its
    verification. *)
Theorem password_tail_ignored (kept tail hashed : str) :
  List.length (encode kept) = 72%nat ->
  verify_password verify (kept ++ tail) hashed = verify_password verify kept hashed.
Proof.
  intros H72. unfold verify_password, truncate_password.
  rewrite !list_slice_to by lia. change (Z.to_nat 72) with 72%nat.
  rewrite encode_app, firstn_app, H72, Nat.sub_diag. simpl firstn at 2.
  rewrite app_nil_r. reflexivity.
Qed.

End Bcrypt.

Lemma password_tail_ignored_witness :
  List.length (encode (repeat "a"%char 72)) = 72%nat
  /\ verify_password PyStr.eqb (repeat "a"%char 72 ++ lit "-one") (repeat "a"%char 72)
     = verify_password PyStr.eqb (repeat "a"%char 72) (repeat "a"%char 72).
Proof.
  assert (H : List.length (encode (repeat "a"%char 72)) = 72%nat) by reflexivity.
  split; [exact H|].
  exact (password_tail_ignored PyStr.eqb (repeat "a"%char 72) (lit "-one")
                               (repeat "a"%char 72) H).
Defined.

Example truncation_drops_cut_character :
  truncate_password (repeat "a"%char 71 ++ [ascii_of_nat 233] ++ lit "z")
  = Some (repeat "a"%char 71).
Proof. vm_compute. reflexivity. Qed.

End SecurityFacts.

(** ** Metadata *)

Module MetadataFacts.
Import Detector Metadata SourceFacts CleanFacts.



(** X17: the metadata lists at most twenty links: the first twenty [a]
    elements that have an [href], in document order, each with its [href]
    and its text stripped. *)
Theorem links_first_twenty (soup : list node) (page_url : str) :
  let anchors := find_all_with soup (lit "a") (lit "href") in
  (List.length (links (_extract_metadata soup page_url)) <= 20)%nat
  /\ links (_extract_metadata soup page_url)
     = map (fun link => (strip (get_text link), get_default link (lit "href") []))
           (firstn 20 anchors)
  /\ forall k link,
       nth_error (firstn 20 anchors) k = Some link ->
       tag_name link = lit "a"
       /\ exists href, get link (lit "href") = Some href
                       /\ nth_error (links (_extract_metadata soup page_url)) k
                          = Some (strip (get_text link), href).
Proof.
  cbv zeta. unfold _extract_metadata. cbn [links].
  rewrite list_slice_to by lia. change (Z.to_nat 20) with 20%nat.
  set (anchors := find_all_with soup (lit "a") (lit "href")).
  split; [rewrite length_map; apply firstn_le_length|]. split; [reflexivity|].
  intros k link Hk.
  assert (Hin : In link anchors).
  { apply nth_error_In in Hk. rewrite <- (firstn_skipn 20 anchors).
    apply in_or_app. left. exact Hk. }
  unfold anchors, find_all_with in Hin. apply filter_In in Hin.
  destruct Hin as [Hall Hhref]. unfold find_all in Hall. apply filter_In in Hall.
  destruct Hall as [_ Hname]. split.
  - unfold PyStr.eqb in Hname.
    destruct (list_eq_dec ascii_dec (tag_name link) (lit "a")); [assumption | discriminate].
  - destruct (get link (lit "href")) as [href|] eqn:E; [|discriminate].
    exists href. split; [reflexivity|].
    rewrite nth_error_map, Hk. cbn [option_map]. unfold get_default. rewrite E.
    reflexivity.
Qed.

(** Induction on a tree, with the property for the children of a tag. *)
Lemma node_ind' (P : node -> Prop) :
  (forall name attrs children, Forall P children -> P (Tag name attrs children)) ->
  (forall s, P (NavigableString s)) ->
  forall n, P n.
Proof.
  intros HT HS. fix IH 1. intros [name attrs children | s].
  - apply HT. induction children as [|c cs IHc]; constructor; [apply IH | exact IHc].
  - apply HS.
Qed.

Lemma prune_descendants (names : list str) (n : node) :
  forall t, In t (flat_map descendants (prune names n)) ->
            existsb (PyStr.eqb (tag_name t)) names = false.
Proof.
  induction n as [name attrs children IH | s] using node_ind'; intros t Ht.
  - simpl in Ht. destruct (existsb (PyStr.eqb name) names) eqn:E; [destruct Ht|].
    simpl in Ht. rewrite app_nil_r in Ht. destruct Ht as [<- | Ht]; [exact E|].
    apply in_flat_map in Ht. destruct Ht as [m [Hm Ht]].
    apply in_flat_map in Hm. destruct Hm as [child [Hchild Hm]].
    rewrite Forall_forall in IH. apply (IH child Hchild).
    apply in_flat_map. exists m. split; assumption.
  - simpl in Ht. destruct Ht.
Qed.

End MetadataFacts.

(** ** The gate before extraction *)

Module GateFacts.
Import Detector DetectorFacts ExtractEndpoint Metadata MetadataFacts.

Section Parser.
Variable parse : str -> list node.

(** X18: the detector names each kind once: its result has no duplicate,
    holds nothing but ['password'] and ['credit_card'], and so has at most
    two entries however many inputs the page has. *)
Theorem detect_result_is_a_set (html : str) :
  NoDup (detect_sensitive_inputs parse html)
  /\ incl (detect_sensitive_inputs parse html) [lit "password"; lit "credit_card"]
  /\ (List.length (detect_sensitive_inputs parse html) <= 2)%nat.
Proof.
  assert (Hnd : NoDup (detect_sensitive_inputs parse html))
    by (unfold detect_sensitive_inputs, list_of_set; apply NoDup_nodup).
  assert (Hincl : incl (detect_sensitive_inputs parse html)
                       [lit "password"; lit "credit_card"]).
  { intros x Hx. destruct (detect_only_kinds parse html x Hx) as [-> | ->];
      simpl; auto. }
  split; [exact Hnd|]. split; [exact Hincl|].
  apply (NoDup_incl_length Hnd Hincl).
Qed.

Variable A : Type.

(** X19: the endpoint answers 400, without running the extraction, exactly
    when the page has a password input or a card-like input; only a page
    with neither can get its content back. *)
Theorem extract_content_gate
        (extract_from_html : str -> str -> A + str) (html url : str) :
  let sensitive :=
    exists t, In t (inputs parse html)
              /\ (get t (lit "type") = Some (lit "password") \/ card_like t = true) in
  (sensitive ->
   exists detail,
     extract_content A parse extract_from_html html url = HTTPException 400 detail
     /\ forall other,
          extract_content A parse other html url = HTTPException 400 detail)
  /\ (forall result,
         extract_content A parse extract_from_html html url = Ok result ->
         ~ sensitive /\ extract_from_html html url = inl result).
Proof.
  cbv zeta. unfold extract_content.
  destruct (detect_sensitive_inputs parse html) as [|x l] eqn:E.
  - split.
    + intros [t [Hin [Hp | Hc]]]; exfalso.
      * assert (H : In (lit "password") (detect_sensitive_inputs parse html))
          by (apply detect_password; eauto).
        rewrite E in H. destruct H.
      * assert (H : In (lit "credit_card") (detect_sensitive_inputs parse html))
          by (apply detect_credit_card; eauto).
        rewrite E in H. destruct H.
    + intros result H. destruct (extract_from_html html url) as [r|e];
        [|discriminate]. injection H as ->. split; [|reflexivity].
      intros [t [Hin [Hp | Hc]]].
      * assert (H : In (lit "password") (detect_sensitive_inputs parse html))
          by (apply detect_password; eauto).
        rewrite E in H. destruct H.
      * assert (H : In (lit "credit_card") (detect_sensitive_inputs parse html))
          by (apply detect_credit_card; eauto).
        rewrite E in H. destruct H.
  - split; [|discriminate].
    intros _. eexists. split; reflexivity.
Qed.

End Parser.

(** X20: after the removal loop no [script], [style], [nav], [footer] or
    [header] element is left in the tree, at any depth, so the metadata
    takes no heading and no link from inside one. *)
Theorem decompose_leaves_no_removed_tag (soup : list node) :
  (forall t, In t (flat_map descendants (decompose_all soup)) ->
             ~ In (tag_name t) removed_names)
  /\ find_all_names (decompose_all soup) removed_names = [].
Proof.
  assert (H : forall t, In t (flat_map descendants (decompose_all soup)) ->
                        existsb (PyStr.eqb (tag_name t)) removed_names = false).
  { intros t Ht. apply in_flat_map in Ht. destruct Ht as [m [Hm Ht]].
    unfold decompose_all in Hm. apply in_flat_map in Hm.
    destruct Hm as [n [_ Hm]]. apply (prune_descendants removed_names n).
    apply in_flat_map. exists m. split; assumption. }
  split.
  - intros t Ht Hin. specialize (H t Ht).
    assert (existsb (PyStr.eqb (tag_name t)) removed_names = true).
    { apply existsb_exists. exists (tag_name t). split; [exact Hin|].
      unfold PyStr.eqb. destruct (list_eq_dec ascii_dec (tag_name t) (tag_name t));
        congruence. }
    congruence.
  - unfold find_all_names.
    induction (flat_map descendants (decompose_all soup)) as [|t l IH]; [reflexivity|].
    cbn [filter]. rewrite (H t (or_introl eq_refl)). apply IH.
    intros t' Ht'. apply H. right. exact Ht'.
Qed.

End GateFacts.

(** ** The text pipeline of [extract_from_html] *)

Module PipelineFacts.
Import Chunker ChunkerFacts LoopFacts ChunkInvariants ChunkContents ChunkShape
       ChunkBounds ChunkCounts Re ReFacts Extractor ExtractEndpoint.

Lemma slice_split (s : str) (lo hi : Z) :
  exists a b, s = a ++ slice s lo hi ++ b.
Proof.
  unfold slice. set (n := Z.to_nat (clamp (len s) lo)).
  set (k := Z.to_nat (clamp (len s) hi - clamp (len s) lo)).
  exists (firstn n s), (skipn k (skipn n s)).
  rewrite (firstn_skipn k (skipn n s)), (firstn_skipn n s). reflexivity.
Qed.

(** X21: the extraction of a page never hangs: with the configuration it runs
    with, [_create_chunks] returns within as many passes as the text has
    characters, and every chunk is a stretch of the returned text, with its
    span inside the text and at most 1001 characters. *)
Theorem extraction_returns (converted url : str) (fuel : nat) :
  (List.length (extract_text converted) <= fuel)%nat ->
  exists l,
    extract_chunks fuel converted url = Returned l
    /\ forall c, In c l ->
         contains (text c) (extract_text converted) = true
         /\ 0 <= start_char c < end_char c
         /\ end_char c <= len (extract_text converted)
         /\ len (text c) <= 1001.
Proof.
  intros Hfuel. unfold extract_chunks, _create_chunks.
  set (txt := extract_text converted) in *.
  pose proof default_progress_config as Hcfg.
  assert (Hov : 0 <= default_overlap < default_chunk_size)
    by (unfold default_overlap, default_chunk_size; lia).
  assert (Hsz : 0 <= default_chunk_size) by (unfold default_chunk_size; lia).
  destruct (loop_terminates txt url _ _ Hcfg fuel initial) as [l Hl];
    [simpl; lia | unfold len; simpl; lia |].
  exists l. split; [exact Hl|]. intros c Hin.
  destruct (loop_invariant_returning txt url _ _ (span_inv txt default_overlap)
              (span_inv_step txt url _ _ Hov)
              fuel initial l (span_inv_initial txt default_overlap) Hl)
    as [st1 [[_ [_ Hspan]] [E1 _]]].
  destruct (loop_invariant txt url _ _
              (fun st => Forall (text_inv txt) (chunks st))
              (fun st st' => text_inv_step txt url _ default_overlap st st' Hsz)
              fuel initial l (Forall_nil _) Hl) as [st2 [Htext [E2 _]]].
  destruct (loop_invariant txt url _ _
              (fun st => Forall (fun c => end_char c - start_char c
                                          <= default_chunk_size + 1) (chunks st))
              (span_bound_step txt url _ default_overlap)
              fuel initial l (Forall_nil _) Hl) as [st3 [Hbound [E3 _]]].
  rewrite E1 in Hspan. rewrite E2 in Htext. rewrite E3 in Hbound.
  rewrite Forall_forall in Hspan, Htext, Hbound.
  specialize (Hspan c Hin). destruct (Htext c Hin) as [Ht [Hne Hsign]].
  specialize (Hbound c Hin). unfold default_chunk_size in Hbound.
  split; [|split; [lia | split; [lia|]]].
  - apply contains_spec.
    destruct (strip_split (slice txt (start_char c) (end_char c))) as [a [b [Hs _]]].
    destruct (slice_split txt (start_char c) (end_char c)) as [x [y Hxy]].
    exists (x ++ a), (b ++ y). rewrite Ht. rewrite Hxy at 1. rewrite Hs at 1.
    rewrite <- !app_assoc. reflexivity.
  - pose proof (strip_len (slice txt (start_char c) (end_char c))) as Hle.
    rewrite <- Ht in Hle.
    assert (0 < len (text c)).
    { unfold len. destruct (text c); [congruence | simpl; lia]. }
    pose proof (slice_len_le txt (start_char c) (end_char c) Hsign). lia.
Qed.

Lemma extraction_returns_witness :
  (List.length (extract_text (lit "Mail  me at a@b.com. Thanks!")) <= 40)%nat
  /\ exists l,
       extract_chunks 40 (lit "Mail  me at a@b.com. Thanks!") (lit "u") = Returned l
       /\ forall c, In c l ->
            contains (text c) (extract_text (lit "Mail  me at a@b.com. Thanks!")) = true
            /\ 0 <= start_char c < end_char c
            /\ end_char c <= len (extract_text (lit "Mail  me at a@b.com. Thanks!"))
            /\ len (text c) <= 1001.
Proof.
  assert (H : (List.length (extract_text (lit "Mail  me at a@b.com. Thanks!")) <= 40)%nat)
    by (vm_compute; lia).
  split; [exact H|].
  exact (extraction_returns (lit "Mail  me at a@b.com. Thanks!") (lit "u") 40 H).
Defined.

Section Blank.
Variables (r : regex) (repl : str).
Hypothesis Hrepl : forallb isspace repl = true.

(** A substitution of whitespace for whitespace keeps a blank text blank. *)
Lemma sub_scan_blank (s : str) :
  forall prev skip,
    forallb isspace s = true ->
    forallb isspace (sub_scan r repl prev skip s) = true.
Proof.
  induction s as [|c s IH]; intros prev skip Hs.
  - destruct skip; simpl; [|reflexivity].
    destruct (match_here r prev []) as [[|n]|]; simpl;
      rewrite ?app_nil_r; auto.
  - simpl in Hs. apply andb_true_iff in Hs. destruct Hs as [Hc Hs].
    destruct skip as [|skip]; simpl; [|apply IH; exact Hs].
    destruct (match_here r prev (c :: s)) as [[|n]|]; simpl;
      rewrite ?forallb_app, ?Hrepl; simpl; rewrite ?Hc; simpl; apply IH; exact Hs.
Qed.

End Blank.

(** X22: a page whose converted text is only whitespace gives the empty text
    and no chunk. *)
Theorem blank_page_extracts_nothing (converted url : str) (fuel : nat) :
  forallb isspace converted = true ->
  extract_text converted = []
  /\ extract_chunks fuel converted url = Returned [].
Proof.
  intros Hblank.
  assert (Hclean : _clean_text converted = []).
  { unfold _clean_text, strip.
    rewrite lstrip_blank; [reflexivity|].
    unfold sub. apply sub_scan_blank; [reflexivity|].
    apply sub_scan_blank; [reflexivity | exact Hblank]. }
  assert (Htext : extract_text converted = [])
    by (unfold extract_text; rewrite Hclean; reflexivity).
  split; [exact Htext|].
  unfold extract_chunks. rewrite Htext. destruct fuel; reflexivity.
Qed.

Lemma blank_page_extracts_nothing_witness :
  forallb isspace (lit "   " ++ [nl; nl] ++ lit "  ") = true
  /\ extract_text (lit "   " ++ [nl; nl] ++ lit "  ") = []
  /\ extract_chunks 0 (lit "   " ++ [nl; nl] ++ lit "  ") (lit "u") = Returned [].
Proof.
  assert (H : forallb isspace (lit "   " ++ [nl; nl] ++ lit "  ") = true)
    by reflexivity.
  split; [exact H|].
  exact (blank_page_extracts_nothing _ (lit "u") 0 H).
Defined.

End PipelineFacts.

(** ** Chats and messages *)

Module ChatFacts.
Import ExtractEndpoint Chats.

Lemma filter_length_le {A} (f : A -> bool) (l : list A) :
  (List.length (filter f l) <= List.length l)%nat.
Proof.
  induction l as [|a l IH]; simpl; [lia|]. destruct (f a); simpl; lia.
Qed.


Lemma find_chat_spec (d : db) (cid user_id : Z) (chat : Chat) :
  find_chat d cid user_id = Some chat ->
  In chat (chats d) /\ chat_id chat = cid /\ chat_user_id chat = user_id.
Proof.
  unfold find_chat. intros H. apply find_some in H. destruct H as [Hin H].
  apply andb_true_iff in H. destruct H as [H1 H2].
  apply Z.eqb_eq in H1, H2. auto.
Qed.


Section Limits.
Variables (maxc maxm : Z).
Hypothesis Hmaxc : 0 <= maxc.
Hypothesis Hmaxm : 0 <= maxm.




End Limits.



End ChatFacts.

Module ChatOwnership.
Import ExtractEndpoint Chats ChatFacts.

Section Ownership.
Variables (maxc maxm : Z).

Lemma NoDup_map_filter {A B} (f : A -> B) (g : A -> bool) (l : list A) :
  NoDup (map f l) -> NoDup (map f (filter g l)).
Proof.
  induction l as [|a l IH]; simpl; [auto|]. intros H. inversion H; subst.
  destruct (g a); simpl; [|auto]. constructor; [|auto].
  intros Hin. apply H2. apply in_map_iff in Hin. destruct Hin as [x [Hx Hin]].
  apply filter_In in Hin. apply in_map_iff. exists x. tauto.
Qed.

Lemma handle_well_formed (req : request) (d : db) :
  well_formed d -> well_formed (handle maxc maxm req d).
Proof.
  intros [Hnd Hfresh].
  destruct req as [u t | u cid | u cid t | u cid q a | u cid s]; simpl.
  - unfold create_chat. destruct (chat_count d u >=? maxc); simpl;
      [split; assumption|]. split; simpl.
    + rewrite map_app. simpl. apply NoDup_app; [exact Hnd | repeat constructor; auto |].
      intros x Hx [<- | []]. apply in_map_iff in Hx. destruct Hx as [c [Hc Hin]].
      rewrite Forall_forall in Hfresh. specialize (Hfresh c Hin). lia.
    + apply Forall_app. split.
      * eapply Forall_impl; [|exact Hfresh]. cbv beta. intros c Hc. lia.
      * constructor; [simpl; lia | constructor].
  - unfold delete_chat. destruct (find_chat d cid u) as [chat|]; simpl;
      [|split; assumption]. split; simpl.
    + apply NoDup_map_filter. exact Hnd.
    + rewrite Forall_forall in *. intros c Hc. apply filter_In in Hc.
      apply Hfresh. tauto.
  - unfold update_chat_title. destruct (find_chat d cid u) as [chat|]; simpl;
      [|split; assumption]. split; simpl.
    + rewrite map_map.
      replace (map (fun x => chat_id (if chat_id x =? chat_id chat
                                      then {| chat_id := chat_id x;
                                              chat_user_id := chat_user_id x;
                                              chat_title := or_else t (chat_title x) |}
                                      else x)) (chats d))
        with (map chat_id (chats d)); [exact Hnd|].
      apply map_ext. intros c. destruct (chat_id c =? chat_id chat); reflexivity.
    + rewrite Forall_forall in *. intros c Hc. apply in_map_iff in Hc.
      destruct Hc as [c0 [<- Hin]]. specialize (Hfresh c0 Hin).
      destruct (chat_id c0 =? chat_id chat); simpl; exact Hfresh.
  - unfold save_answer. destruct cid as [cid|]; [|split; assumption].
    destruct (cid =? 0); [split; assumption|].
    destruct (find_chat d cid u) as [chat|]; [|split; assumption].
    destruct (message_count d (chat_id chat) >=? maxm); simpl; split; assumption.
  - unfold save_summary. destruct cid as [cid|]; [|split; assumption].
    destruct (cid =? 0); [split; assumption|].
    destruct (find_chat d cid u) as [chat|]; [|split; assumption].
    destruct (message_count d (chat_id chat) >=? maxm); simpl; split; assumption.
Qed.

(** A chat of another user has another identifier than the one found. *)
Lemma other_chat_other_id (d : db) (cid u : Z) (chat c : Chat) :
  well_formed d -> find_chat d cid u = Some chat ->
  In c (chats d) -> chat_user_id c <> u -> (chat_id c =? chat_id chat) = false.
Proof.
  intros [Hnd _] Hf Hin Hu. apply find_chat_spec in Hf. destruct Hf as [Hin' [_ Hu']].
  apply Z.eqb_neq. intros Heq. apply Hu. rewrite <- Hu'. f_equal.
  clear -Hnd Hin Hin' Heq. induction (chats d) as [|x l IH]; [destruct Hin|].
  simpl in Hnd. inversion Hnd; subst.
  destruct Hin as [-> | Hin], Hin' as [-> | Hin']; auto.
  - exfalso. apply H1. rewrite Heq. apply in_map. exact Hin'.
  - exfalso. apply H1. rewrite <- Heq. apply in_map. exact Hin.
Qed.

Lemma filter_ext_in_list {A} (f g : A -> bool) (l : list A) :
  (forall a, In a l -> f a = g a) -> filter f l = filter g l.
Proof.
  intros H. induction l as [|a l IH]; simpl; [reflexivity|].
  rewrite (H a (or_introl eq_refl)), IH; [reflexivity|].
  intros x Hx. apply H. right. exact Hx.
Qed.

End Ownership.

(** X24: a request of one user leaves the chats of every other user, and the
    messages in them, as they were; a deletion or a change of title aimed at
    another user's chat is answered 404. *)
Theorem requests_touch_own_chats_only
        (MAX_CHATS_PER_USER MAX_MESSAGES_PER_CHAT : Z) (req : request) (d : db)
        (c : Chat) :
  well_formed d -> In c (chats d) -> chat_user_id c <> request_user req ->
  let d' := handle MAX_CHATS_PER_USER MAX_MESSAGES_PER_CHAT req d in
  In c (chats d')
  /\ filter (fun m => message_chat_id m =? chat_id c) (messages d')
     = filter (fun m => message_chat_id m =? chat_id c) (messages d)
  /\ (forall title,
        delete_chat (request_user req) (chat_id c) d
        = (d, HTTPException 404 (lit "Chat not found"))
        /\ update_chat_title (request_user req) (chat_id c) title d
           = (d, HTTPException 404 (lit "Chat not found"))).
Proof.
  intros Hwf Hin Hu. cbv zeta.
  assert (Hnone : find_chat d (chat_id c) (request_user req) = None).
  { destruct (find_chat d (chat_id c) (request_user req)) as [chat|] eqn:E;
      [|reflexivity]. exfalso.
    pose proof (other_chat_other_id d _ _ chat c Hwf E Hin Hu) as Hne.
    apply find_chat_spec in E. destruct E as [_ [E _]].
    apply Z.eqb_neq in Hne. congruence. }
  split; [|split].
  - destruct req as [u t | u cid | u cid t | u cid q a | u cid s]; simpl in *.
    + unfold create_chat. destruct (chat_count d u >=? _); simpl; [exact Hin|].
      apply in_or_app. left. exact Hin.
    + unfold delete_chat. destruct (find_chat d cid u) as [chat|] eqn:E; simpl;
        [|exact Hin]. apply filter_In. split; [exact Hin|].
      rewrite (other_chat_other_id d cid u chat c Hwf E Hin Hu). reflexivity.
    + unfold update_chat_title. destruct (find_chat d cid u) as [chat|] eqn:E; simpl;
        [|exact Hin]. apply in_map_iff. exists c. split; [|exact Hin].
      rewrite (other_chat_other_id d cid u chat c Hwf E Hin Hu). reflexivity.
    + unfold save_answer. destruct cid as [cid|]; [|exact Hin].
      destruct (cid =? 0); [exact Hin|].
      destruct (find_chat d cid u); [|exact Hin].
      destruct (message_count d _ >=? _); exact Hin.
    + unfold save_summary. destruct cid as [cid|]; [|exact Hin].
      destruct (cid =? 0); [exact Hin|].
      destruct (find_chat d cid u); [|exact Hin].
      destruct (message_count d _ >=? _); exact Hin.
  - destruct req as [u t | u cid | u cid t | u cid q a | u cid s]; simpl in *.
    + unfold create_chat. destruct (chat_count d u >=? _); reflexivity.
    + unfold delete_chat. destruct (find_chat d cid u) as [chat|] eqn:E; simpl;
        [|reflexivity].
      pose proof (other_chat_other_id d cid u chat c Hwf E Hin Hu) as Hne.
      apply Z.eqb_neq in Hne.
      induction (messages d) as [|m l IH]; simpl; [reflexivity|].
      destruct (message_chat_id m =? chat_id chat) eqn:E1; simpl.
      * apply Z.eqb_eq in E1.
        replace (message_chat_id m =? chat_id c) with false
          by (symmetry; apply Z.eqb_neq; lia). exact IH.
      * destruct (message_chat_id m =? chat_id c); rewrite IH; reflexivity.
    + unfold update_chat_title. destruct (find_chat d cid u); reflexivity.
    + unfold save_answer. destruct cid as [cid|]; [|reflexivity].
      destruct (cid =? 0); [reflexivity|].
      destruct (find_chat d cid u) as [chat|] eqn:E; [|reflexivity].
      destruct (message_count d _ >=? _); [reflexivity|].
      pose proof (other_chat_other_id d cid u chat c Hwf E Hin Hu) as Hne.
      unfold add_message. simpl. rewrite !filter_app. simpl.
      rewrite Z.eqb_sym in Hne. rewrite Hne. rewrite !app_nil_r. reflexivity.
    + unfold save_summary. destruct cid as [cid|]; [|reflexivity].
      destruct (cid =? 0); [reflexivity|].
      destruct (find_chat d cid u) as [chat|] eqn:E; [|reflexivity].
      destruct (message_count d _ >=? _); [reflexivity|].
      pose proof (other_chat_other_id d cid u chat c Hwf E Hin Hu) as Hne.
      unfold add_message. simpl. rewrite !filter_app. simpl.
      rewrite Z.eqb_sym in Hne. rewrite Hne. rewrite !app_nil_r. reflexivity.
  - intros title. unfold delete_chat, update_chat_title. rewrite Hnone. auto.
Qed.

Lemma requests_touch_own_chats_only_witness :
  let d := run 3 50 [CreateChat 1 None; CreateChat 2 None;
                     SaveAnswer 1 (Some 1) (lit "q") (lit "a")] empty_db in
  let c := {| chat_id := 1; chat_user_id := 1; chat_title := Some (lit "New Chat") |} in
  let d' := handle 3 50 (DeleteChat 2 1) d in
  In c (chats d')
  /\ filter (fun m => message_chat_id m =? chat_id c) (messages d')
     = filter (fun m => message_chat_id m =? chat_id c) (messages d)
  /\ (forall title,
        delete_chat 2 (chat_id c) d = (d, HTTPException 404 (lit "Chat not found"))
        /\ update_chat_title 2 (chat_id c) title d
           = (d, HTTPException 404 (lit "Chat not found"))).
Proof.
  intros d c.
  apply (requests_touch_own_chats_only 3 50 (DeleteChat 2 1) d c).
  - split.
    + vm_compute. apply NoDup_cons; [|apply NoDup_cons; [|apply NoDup_nil]].
      * intros [H | []]. discriminate H.
      * intros [].
    + vm_compute. apply Forall_cons; [reflexivity|].
      apply Forall_cons; [reflexivity|]. apply Forall_nil.
  - vm_compute. left. reflexivity.
  - vm_compute. discriminate.
Defined.

End ChatOwnership.

(** ** The rate limit *)

Module RateLimitFacts.
Import RateLimit.

Lemma eqb_refl (k : str) : PyStr.eqb k k = true.
Proof. unfold PyStr.eqb. destruct (list_eq_dec ascii_dec k k); congruence. Qed.

Lemma call_when_live (s : store) (key : str) (window now v t : Z) :
  0 < window ->
  s key = Some {| value := v; expires_at := Some t |} -> now < t ->
  exists s',
    increment_rate_limit (Some s) key window now = (Some s', v + 1)
    /\ s' key = Some {| value := v + 1; expires_at := Some (now + window) |}.
Proof.
  intros Hw Hs Hlive. unfold increment_rate_limit, incr, lookup. rewrite Hs. simpl.
  replace (t <=? now) with false by (symmetry; apply Z.leb_gt; lia).
  unfold expire, lookup, set_key. rewrite eqb_refl. simpl.
  replace (t <=? now) with false by (symmetry; apply Z.leb_gt; lia).
  eexists. split; [reflexivity|]. simpl. rewrite eqb_refl. reflexivity.
Qed.

Lemma call_when_gone (s : store) (key : str) (window now : Z) :
  lookup s key now = None ->
  exists s',
    increment_rate_limit (Some s) key window now = (Some s', 1)
    /\ s' key = Some {| value := 1; expires_at := Some (now + window) |}.
Proof.
  intros Hs. unfold increment_rate_limit, incr. rewrite Hs.
  unfold expire, lookup, set_key. rewrite eqb_refl. simpl.
  eexists. split; [reflexivity|]. simpl. rewrite eqb_refl. reflexivity.
Qed.

Lemma counts_cons (c : option store) (key : str) (window now : Z) (later : list Z) :
  counts c key window (now :: later)
  = snd (increment_rate_limit c key window now)
    :: counts (fst (increment_rate_limit c key window now)) key window later.
Proof.
  cbn [counts]. destruct (increment_rate_limit c key window now). reflexivity.
Qed.

Lemma counts_from (key : str) (window : Z) (times : list Z) :
  0 < window ->
  forall s v previous,
    s key = Some {| value := v; expires_at := Some (previous + window) |} ->
    close_calls window previous times ->
    counts (Some s) key window times
    = map (fun i => v + Z.of_nat i) (seq 1 (List.length times)).
Proof.
  intros Hw. induction times as [|now later IH]; intros s v previous Hs Hclose;
    [reflexivity|].
  destruct Hclose as [Hnow Hlater].
  destruct (call_when_live s key window now v _ Hw Hs Hnow) as [s' [Hcall Hs']].
  unfold store in *. rewrite counts_cons, Hcall.
  cbn [fst snd List.length seq map]. f_equal; try lia.
  rewrite (IH s' (v + 1) now Hs' Hlater), <- (seq_shift (List.length later) 1), map_map.
  apply map_ext. intros i. lia.
Qed.

(** X25: every call pushes the expiry of the counter [window] seconds
    ahead, so the counter never starts again while each request comes less
    than [window] seconds after the one before: from a first request that
    finds no counter, the [k]-th request gets the count [k], and is refused
    exactly when [k] exceeds the limit, however long the requests have been
    going on. *)
Theorem rate_limit_window_slides
        (s : store) (key : str) (window rate_limit first : Z) (later : list Z) :
  0 < window ->
  lookup s key first = None ->
  close_calls window first later ->
  counts (Some s) key window (first :: later)
  = map Z.of_nat (seq 1 (S (List.length later)))
  /\ (forall k count,
        nth_error (counts (Some s) key window (first :: later)) k = Some count ->
        count = Z.of_nat (S k)
        /\ (refused rate_limit count = true <-> rate_limit < Z.of_nat (S k))).
Proof.
  intros Hw Hgone Hclose.
  destruct (call_when_gone s key window first Hgone) as [s' [Hcall Hs']].
  assert (Heq : counts (Some s) key window (first :: later)
                = map Z.of_nat (seq 1 (S (List.length later)))).
  { unfold store in *. rewrite counts_cons, Hcall. cbn [fst snd seq map]. f_equal.
    rewrite (counts_from key window later Hw s' 1 first Hs' Hclose).
    rewrite <- (seq_shift (List.length later) 1), !map_map.
    apply map_ext. intros i. lia. }
  split; [exact Heq|].
  intros k count Hk. rewrite Heq in Hk. rewrite nth_error_map in Hk.
  destruct (nth_error (seq 1 (S (List.length later))) k) as [i|] eqn:E;
    [|discriminate].
  injection Hk as <-.
  assert (Hi : i = S k).
  { assert (Hlt : (k < S (List.length later))%nat).
    { pose proof (proj1 (nth_error_Some (seq 1 (S (List.length later))) k)) as H.
      rewrite length_seq in H. apply H. congruence. }
    pose proof (nth_error_nth _ _ 0%nat E) as Hn.
    rewrite seq_nth in Hn by exact Hlt. lia. }
  subst i. split; [reflexivity|].
  unfold refused. rewrite Z.gtb_ltb. apply Z.ltb_lt.
Qed.

Lemma rate_limit_window_slides_witness :
  counts (Some no_keys) (lit "rate_limit:qa:1") 60 [0; 59; 118; 177]
  = map Z.of_nat (seq 1 4)
  /\ (forall k count,
        nth_error (counts (Some no_keys) (lit "rate_limit:qa:1") 60 [0; 59; 118; 177]) k
        = Some count ->
        count = Z.of_nat (S k)
        /\ (refused 3 count = true <-> 3 < Z.of_nat (S k))).
Proof.
  apply (rate_limit_window_slides no_keys (lit "rate_limit:qa:1") 60 3 0 [59; 118; 177]).
  - lia.
  - reflexivity.
  - simpl. lia.
Defined.

End RateLimitFacts.
